(** * ol/format/KML: a shallow embedding of the KML feature format

    The development follows [src/ol/format/KML.js].  Text is a list of
    characters, JavaScript objects used as dictionaries are finite maps,
    arrays are lists, and the stateful readers thread the shared-style
    registry explicitly.  Regular expressions are kept as syntax and run by
    a backtracking matcher with the priorities of the JavaScript engine, so
    that every pattern below can be compared with the literal in the source. *)

From Stdlib Require Import ZArith QArith Qabs Ascii String List Lia Bool.
From stdpp Require Import base option list gmap strings.

Local Open Scope Z_scope.

(** ** Characters and text *)

Module Chars.

Definition text := list ascii.

Definition of_string (s : string) : text := list_ascii_of_string s.

Definition code (a : ascii) : N := N_of_ascii a.

Definition between (lo hi : N) (a : ascii) : bool :=
  ((lo <=? code a) && (code a <=? hi))%N.

Definition is_char (c : ascii) (a : ascii) : bool := (code a =? code c)%N.

(** [\d] *)
Definition is_digit : ascii -> bool := between 48 57.

(** [[0-9A-Fa-f]] *)
Definition is_hex (a : ascii) : bool :=
  is_digit a || between 65 70 a || between 97 102 a.

(** [\s], restricted to the code units below 256: TAB, LF, VT, FF, CR,
    SPACE and NO-BREAK SPACE. *)
Definition is_space (a : ascii) : bool :=
  between 9 13 a || (code a =? 32)%N || (code a =? 160)%N.

(** [[+\-]] *)
Definition is_sign (a : ascii) : bool := is_char "+" a || is_char "-" a.

(** [e] under the [i] flag *)
Definition is_e (a : ascii) : bool := is_char "e" a || is_char "E" a.

(** [String.prototype.substr(start, length)] for a start inside the text. *)
Definition substr (start len : nat) (s : text) : text := take len (drop start s).

End Chars.

Import Chars.

(** ** Regular expressions

    The fragment of the JavaScript pattern language used by the format: all
    quantified atoms are character classes, all quantifiers are greedy. *)

Module RegExp.

Inductive regex : Type :=
| Eps                                  (* empty pattern *)
| Cls (p : ascii -> bool)              (* one character of a class *)
| Seq (r1 r2 : regex)                  (* r1 r2 *)
| Star (p : ascii -> bool)             (* c*  *)
| Opt (r : regex)                      (* (?:r)? *)
| Grp (i : nat) (r : regex)            (* capturing group number i *)
| Eos.                                 (* $ *)

(** [c+] and [c{n}] *)
Definition Plus (p : ascii -> bool) : regex := Seq (Cls p) (Star p).

Fixpoint Rep (n : nat) (p : ascii -> bool) : regex :=
  match n with
  | O => Eps
  | S n' => Seq (Cls p) (Rep n' p)
  end.

Fixpoint seqs (rs : list regex) : regex :=
  match rs with
  | [] => Eps
  | [r] => r
  | r :: rs' => Seq r (seqs rs')
  end.

(** Captures: the text of each group that took part in the match. *)
Definition captures := list (nat * text).

Fixpoint capture (i : nat) (c : captures) : option text :=
  match c with
  | [] => None
  | (j, t) :: c' => if Nat.eqb i j then Some t else capture i c'
  end.

Section Matcher.
Context {A : Type}.

Definition cont := text -> captures -> option A.

(** Greedy iteration of a class: take one more character first, give it
    back when the rest of the pattern fails. *)
Fixpoint star_k (p : ascii -> bool) (s : text) (c : captures) (k : cont)
  : option A :=
  match s with
  | a :: s' =>
      if p a then
        match star_k p s' c k with
        | Some x => Some x
        | None => k s c
        end
      else k s c
  | [] => k s c
  end.

Fixpoint rmatch (r : regex) (s : text) (c : captures) (k : cont)
  : option A :=
  match r with
  | Eps => k s c
  | Cls p =>
      match s with
      | a :: s' => if p a then k s' c else None
      | [] => None
      end
  | Seq r1 r2 => rmatch r1 s c (fun s' c' => rmatch r2 s' c' k)
  | Star p => star_k p s c k
  | Opt r' =>
      match rmatch r' s c k with
      | Some x => Some x
      | None => k s c
      end
  | Grp i r' =>
      rmatch r' s c
        (fun s' c' => k s' ((i, take (length s - length s') s) :: c'))
  | Eos =>
      match s with
      | [] => k s c
      | _ :: _ => None
      end
  end.
End Matcher.

(** The result of [re.exec(s)] for a pattern that starts with [^]: the
    matched text [m[0]], the captures, and the text after the match. *)
Record match_result := MatchResult {
  m0 : text;
  groups : captures;
  rest : text
}.

Definition exec (r : regex) (s : text) : option match_result :=
  rmatch r s []
    (fun s' c => Some (MatchResult (take (length s - length s') s) c s')).

Definition group (i : nat) (m : match_result) : option text :=
  capture i (groups m).

End RegExp.

Import RegExp.

(** ** Integers in positional notation *)

Module Digits.

(** Value of a digit character in a radix up to 16, as [parseInt] reads it. *)
Definition digit_value (a : ascii) : option Z :=
  if is_digit a then Some (Z.of_N (code a) - 48)
  else if between 97 102 a then Some (Z.of_N (code a) - 87)
  else if between 65 70 a then Some (Z.of_N (code a) - 55)
  else None.

Definition is_radix_digit (radix : Z) (a : ascii) : bool :=
  match digit_value a with
  | Some d => d <? radix
  | None => false
  end.

(** Longest prefix of digits of the radix, with its value. *)
Fixpoint read_digits (radix : Z) (acc : Z) (s : text) : Z * text :=
  match s with
  | a :: s' =>
      match digit_value a with
      | Some d => if d <? radix then read_digits radix (acc * radix + d) s'
                  else (acc, s)
      | None => (acc, s)
      end
  | [] => (acc, s)
  end.

Fixpoint skip_space (s : text) : text :=
  match s with
  | a :: s' => if is_space a then skip_space s' else s
  | [] => []
  end.

(** [parseInt(s, radix)] for radix 10 or 16; [None] is NaN. *)
Definition parseInt (s : text) (radix : Z) : option Z :=
  let s1 := skip_space s in
  let '(sign, s2) :=
    match s1 with
    | a :: s' =>
        if is_char "-" a then (-1, s')
        else if is_char "+" a then (1, s')
        else (1, s1)
    | [] => (1, s1)
    end in
  let s3 :=
    match s2 with
    | a :: b :: s' =>
        if (radix =? 16) && is_char "0" a && (is_char "x" b || is_char "X" b)
        then s' else s2
    | _ => s2
    end in
  match s3 with
  | a :: _ =>
      if is_radix_digit radix a
      then Some (sign * fst (read_digits radix 0 s3))
      else None
  | [] => None
  end.

End Digits.

Import Digits.

(** ** Colors *)

(** A color as [readColor] returns it: three integer channels and an
    opacity, the quotient of an integer by 255. *)
Record color := Color {
  red : Z;
  green : Z;
  blue : Z;
  alpha : Q
}.

(** [/^\s*#?\s*([0-9A-Fa-f]{8})\s*$/] *)
Definition COLOR_RE : regex :=
  seqs [Star is_space; Opt (Cls (is_char "#")); Star is_space;
        Grp 1 (Rep 8 is_hex); Star is_space; Eos].

(** [readColor], on the text content [s] of the node. *)
Definition readColor (s : text) : option color :=
  match exec COLOR_RE s with
  | Some m =>
      match group 1 m with
      | Some hexColor =>
          match parseInt (substr 6 2 hexColor) 16,
                parseInt (substr 4 2 hexColor) 16,
                parseInt (substr 2 2 hexColor) 16,
                parseInt (substr 0 2 hexColor) 16 with
          | Some r, Some g, Some b, Some a => Some (Color r g b (a # 255))
          | _, _, _, _ => None
          end
      | None => None
      end
  | None => None
  end.

(** ** Numbers

    A finite JavaScript number is kept as a decimal [mant * 10 ^ expo]: the
    decimal with the digits [Number::toString] gives the number.  Of the
    arithmetic of the format (binary64), the product the color writer
    computes is modelled with its rounding, in [Binary64]; the readers keep
    the decimal of a literal as it is written. *)

Module Number.

Record dec := Dec { mant : Z; expo : Z }.

Definition of_Z (z : Z) : dec := Dec z 0.

Definition to_Q (x : dec) : Q :=
  if 0 <=? expo x then inject_Z (mant x * 10 ^ expo x)
  else Qmake (mant x) (Z.to_pos (10 ^ (- expo x))).

(** Integer part towards minus infinity. *)
Definition floor (x : dec) : Z :=
  if 0 <=? expo x then mant x * 10 ^ expo x
  else mant x / 10 ^ (- expo x).

(** The product of two decimals, exact. *)
Definition mul (x y : dec) : dec := Dec (mant x * mant y) (expo x + expo y).

(** Digits of a positive integer, least significant first. *)
Fixpoint digits_le (fuel : nat) (radix n : Z) : list Z :=
  match fuel with
  | O => []
  | S f => if n <=? 0 then [] else (n mod radix) :: digits_le f radix (n / radix)
  end.

(** Digits of a positive integer, most significant first. *)
Definition digits (radix n : Z) : list Z :=
  rev (digits_le (S (Z.to_nat (Z.log2 n))) radix n).

(** Lower-case digit character. *)
Definition digit_char (d : Z) : ascii :=
  ascii_of_N (Z.to_N (if d <? 10 then 48 + d else 87 + d)).

Definition digit_chars (ds : list Z) : text := map digit_char ds.

(** [n.toString(radix)] of an integer [n]. *)
Definition int_to_string (radix n : Z) : text :=
  if n =? 0 then of_string "0"
  else if n <? 0 then "-"%char :: digit_chars (digits radix (- n))
  else digit_chars (digits radix n).

Fixpoint drop_zeros (ds : list Z) : list Z :=
  match ds with
  | d :: ds' => if d =? 0 then drop_zeros ds' else ds
  | [] => []
  end.

(** Removes the zeros at the end of a digit sequence. *)
Definition strip_zeros (ds : list Z) : list Z := rev (drop_zeros (rev ds)).

Definition zeros (n : Z) : list Z := replicate (Z.to_nat n) 0.

(** [Number::toString(x)] in radix 10 for a positive [x]: with [ds] the [k]
    significant digits of [x] and [x = 0.ds * 10 ^ n]. *)
Definition pos_to_string (x : dec) : text :=
  let ds0 := digits 10 (mant x) in
  let ds := strip_zeros ds0 in
  let k := Z.of_nat (length ds) in
  let n := Z.of_nat (length ds0) + expo x in
  if (k <=? n) && (n <=? 21) then
    digit_chars (ds ++ zeros (n - k))
  else if (0 <? n) && (n <=? 21) then
    digit_chars (take (Z.to_nat n) ds) ++ "."%char :: digit_chars (drop (Z.to_nat n) ds)
  else if (-6 <? n) && (n <=? 0) then
    "0"%char :: "."%char :: digit_chars (zeros (- n) ++ ds)
  else
    let e := n - 1 in
    let es := (if e <? 0 then "-"%char else "+"%char)
                :: digit_chars (digits 10 (Z.abs e)) in
    match ds with
    | [d] => digit_char d :: "e"%char :: es
    | d :: ds' => digit_char d :: "."%char :: digit_chars ds' ++ "e"%char :: es
    | [] => []
    end.

(** [String(x)] of a finite number. *)
Definition to_string (x : dec) : text :=
  if mant x =? 0 then of_string "0"
  else if mant x <? 0 then "-"%char :: pos_to_string (Dec (- mant x) (expo x))
  else pos_to_string x.

End Number.

Import Number.

(** ** The product of two numbers *)

Module Binary64.

(** The integer nearest to [n / d], the even one of two that are as near;
    for [0 <= n] and [0 < d]. *)
Definition round_half_even (n d : Z) : Z :=
  let q := n / d in
  let r := n mod d in
  if 2 * r <? d then q
  else if d <? 2 * r then q + 1
  else if Z.even q then q else q + 1.

(** [b ^ e <= n / d], for [0 < d]. *)
Definition pow_le (b e n d : Z) : bool :=
  if 0 <=? e then d * b ^ e <=? n else d <=? n * b ^ (- e).

(** The integers [e] with [2 ^ e <= n / d < 2 ^ (e + 1)] and with
    [10 ^ e <= n / d < 10 ^ (e + 1)], for [0 < n] and [0 < d]. *)
Definition ilog2 (n d : Z) : Z :=
  let e := Z.log2 n - Z.log2 d in
  if pow_le 2 e n d then e else e - 1.

Definition ilog10 (n d : Z) : Z :=
  let e := Z.of_nat (length (digits 10 n)) - Z.of_nat (length (digits 10 d)) in
  if pow_le 10 e n d then e else e - 1.

(** [m * b ^ e] as a fraction. *)
Definition fraction (b m e : Z) : Z * Z :=
  if 0 <=? e then (m * b ^ e, 1) else (m, b ^ (- e)).

(** Round to nearest, ties to even: the number [m * 2 ^ e] of the format
    that is nearest to the fraction [n / d], for [0 < n] and [0 < d]: a
    mantissa of 53 bits, below [2 ^ 52] only with the least exponent, -1074.
    [None] when the fraction is beyond the range of the format, where the
    result is an infinity. *)
Definition round (nd : Z * Z) : option (Z * Z) :=
  let '(n, d) := nd in
  let e := Z.max (ilog2 n d - 52) (-1074) in
  let m := if 0 <=? e then round_half_even n (d * 2 ^ e)
           else round_half_even (n * 2 ^ (- e)) d in
  let '(m, e) := if m =? 2 ^ 53 then (2 ^ 52, e + 1) else (m, e) in
  if 971 <? e then None else Some (m, e).

Definition rounds_to (m e : Z) (s q : Z) : bool :=
  match round (fraction 10 s q) with
  | Some (m', e') => (m' =? m) && (e' =? e)
  | None => false
  end.

(** The digits [Number::toString] gives a number [m * 2 ^ e] above 0: the
    decimal [s * 10 ^ q] with the fewest digits [s] that rounds to the
    number, and of two such the nearer.  With [k] digits, the candidates
    are the two multiples of [10 ^ q] around the number, [q] being
    [l + 1 - k] for a number from [10 ^ l] to [10 ^ (l + 1)]; 17 digits are
    always enough. *)
Fixpoint shortest_from (fuel : nat) (q : Z) (m e : Z) : dec :=
  let '(vn, vd) := fraction 2 m e in
  let '(a, b) := if 0 <=? q then (vn, vd * 10 ^ q) else (vn * 10 ^ (- q), vd) in
  let near := round_half_even a b in
  let other := if near =? a / b then a / b + 1 else a / b in
  match fuel with
  | O => Dec near q
  | S fuel' =>
      if rounds_to m e near q then Dec near q
      else if rounds_to m e other q then Dec other q
      else shortest_from fuel' (q - 1) m e
  end.

Definition shortest (m e : Z) : dec :=
  let '(vn, vd) := fraction 2 m e in
  shortest_from 16 (ilog10 vn vd) m e.

(** The number a decimal stands for: its sign, and its magnitude
    [m * 2 ^ e], [None] for an infinity. *)
Definition of_dec (x : dec) : Z * option (Z * Z) :=
  if mant x =? 0 then (1, Some (0, 0))
  else (Z.sgn (mant x), round (fraction 10 (Z.abs (mant x)) (expo x))).

(** The decimal notation of the number with sign [sg] and magnitude
    [m * 2 ^ e]. *)
Definition to_dec (sg m e : Z) : dec :=
  if m =? 0 then Dec 0 0
  else let s := shortest m e in Dec (sg * mant s) (expo s).

(** The result of an operation: a finite number, an infinity, or NaN. *)
Inductive result : Type :=
| Finite (x : dec)
| Infinite (negative : bool)
| Invalid.

(** [x * y]: the product of the two numbers, rounded. *)
Definition mul (x y : dec) : result :=
  let '(sx, vx) := of_dec x in
  let '(sy, vy) := of_dec y in
  let negative := sx * sy <? 0 in
  match vx, vy with
  | Some (mx, ex), Some (my, ey) =>
      if mx * my =? 0 then Finite (Dec 0 0)
      else
        match round (fraction 2 (mx * my) (ex + ey)) with
        | Some (m, e) => Finite (to_dec (sx * sy) m e)
        | None => Infinite negative
        end
  | Some (m, _), None | None, Some (m, _) =>
      if m =? 0 then Invalid else Infinite negative
  | None, None => Infinite negative
  end.

End Binary64.

(** ** Writing a color *)

(** A value of the array [abgr]: a finite number; an infinity or NaN, which
    the product can be; or [undefined], as read from a position after the
    end of the color. *)
Inductive component : Type :=
| CUndefined
| CNaN
| CInfinity (negative : bool)
| CNumber (x : dec).

Definition component_of (r : Binary64.result) : component :=
  match r with
  | Binary64.Finite x => CNumber x
  | Binary64.Infinite negative => CInfinity negative
  | Binary64.Invalid => CNaN
  end.

(** [String(v)] *)
Definition js_to_string (v : component) : text :=
  match v with
  | CNumber x => to_string x
  | CInfinity false => of_string "Infinity"
  | CInfinity true => of_string "-Infinity"
  | CNaN => of_string "NaN"
  | CUndefined => of_string "undefined"
  end.

(** [parseInt(v, 10).toString(16)], left-padded to two characters. *)
Definition hex_component (v : component) : text :=
  let hex :=
    match parseInt (js_to_string v) 10 with
    | Some n => int_to_string 16 n
    | None => of_string "NaN"
    end in
  if Nat.eqb (length hex) 1 then "0"%char :: hex else hex.

(** [rgba[i]] *)
Definition color_get (rgba : list dec) (i : nat) : component :=
  match rgba !! i with
  | Some x => CNumber x
  | None => CUndefined
  end.

(** [writeColorTextNode]: the text handed to [writeStringTextNode] for the
    color [rgba].  The color is an array of finite numbers, which [asArray]
    returns as it is; colors given as CSS strings are not in the model. *)
Definition writeColorTextNode (rgba : list dec) : text :=
  let opacity := if Nat.eqb (length rgba) 4 then color_get rgba 3 else CNumber (of_Z 1) in
  let abgr := [ match opacity with
                | CNumber o => component_of (Binary64.mul o (of_Z 255))
                | _ => CNaN
                end;
                color_get rgba 2; color_get rgba 1; color_get rgba 0 ] in
  concat (map hex_component abgr).

(** ** Values of coordinate arrays *)

(** What a slot of a JavaScript array of numbers can hold: nothing (a hole,
    read as [undefined]), NaN, or a finite number. *)
Inductive jsval : Type :=
| Undefined
| NaN
| Num (x : dec).

Module Float.

(** Longest prefix of decimal digits, as digit values. *)
Fixpoint take_digits (s : text) : list Z * text :=
  match s with
  | a :: s' =>
      if is_digit a then
        let '(ds, r) := take_digits s' in (Z.of_N (code a) - 48 :: ds, r)
      else ([], s)
  | [] => ([], [])
  end.

Definition digits_value (ds : list Z) : Z :=
  fold_left (fun acc d => acc * 10 + d) ds 0.

Fixpoint normalize_fuel (fuel : nat) (m e : Z) : dec :=
  match fuel with
  | O => Dec m e
  | S f => if m mod 10 =? 0 then normalize_fuel f (m / 10) (e + 1) else Dec m e
  end.

(** The representative of a number whose mantissa has no zero at its end. *)
Definition normalize (x : dec) : dec :=
  if mant x =? 0 then Dec 0 0
  else normalize_fuel (S (Z.to_nat (Z.log2 (Z.abs (mant x))))) (mant x) (expo x).

(** [parseFloat(s)]: the longest prefix of [s] that is a decimal literal
    (sign, digits, fraction, exponent).  The number is kept as the decimal
    of the literal: its rounding to the format of numbers, to an infinity
    for a literal beyond the range, is outside the model, as is the literal
    [Infinity]. *)
Definition parseFloat (s : text) : jsval :=
  let s1 := skip_space s in
  let '(sign, s2) :=
    match s1 with
    | a :: s' =>
        if is_char "-" a then (-1, s')
        else if is_char "+" a then (1, s')
        else (1, s1)
    | [] => (1, s1)
    end in
  let '(ids, r1) := take_digits s2 in
  let '(fds, r2) :=
    match r1 with
    | a :: r => if is_char "." a then take_digits r else ([], r1)
    | [] => ([], r1)
    end in
  match ids ++ fds with
  | [] => NaN
  | _ :: _ =>
      let ex :=
        match r2 with
        | a :: r =>
            if is_e a then
              let '(esign, r') :=
                match r with
                | b :: r0 =>
                    if is_char "-" b then (-1, r0)
                    else if is_char "+" b then (1, r0)
                    else (1, r)
                | [] => (1, r)
                end in
              esign * digits_value (fst (take_digits r'))
            else 0
        | [] => 0
        end in
      Num (normalize (Dec (sign * digits_value (ids ++ fds))
                          (ex - Z.of_nat (length fds))))
  end.

End Float.

Import Float.

(** ** Coordinates *)

(** [[+\-]?\d*\.?\d+(?:e[+\-]?\d+)?] under the [i] flag *)
Definition NUMBER_RE : regex :=
  seqs [Opt (Cls is_sign); Star is_digit; Opt (Cls (is_char ".")); Plus is_digit;
        Opt (seqs [Cls is_e; Opt (Cls is_sign); Plus is_digit])].

(** The pattern of [readFlatCoordinates]:
    [^\s*(num)\s*,\s*(num)(?:\s*,\s*(num))?\s*] *)
Definition COORDINATES_RE : regex :=
  seqs [Star is_space; Grp 1 NUMBER_RE; Star is_space; Cls (is_char ",");
        Star is_space; Grp 2 NUMBER_RE;
        Opt (seqs [Star is_space; Cls (is_char ","); Star is_space;
                   Grp 3 NUMBER_RE]);
        Star is_space].

(** [parseFloat(m[i])] for a group that took part in the match; a group
    that did not would be [undefined], which [parseFloat] turns into NaN. *)
Definition parseFloat_group (i : nat) (m : match_result) : jsval :=
  match group i m with
  | Some t => parseFloat t
  | None => NaN
  end.

(** The loop of [readFlatCoordinates]; [None] when the fuel runs out, else
    the array built and the text left. *)
Fixpoint readFlatCoordinates_loop (fuel : nat) (s : text)
    (flatCoordinates : list jsval) : option (list jsval * text) :=
  match fuel with
  | O => None
  | S fuel' =>
      match exec COORDINATES_RE s with
      | Some m =>
          let x := parseFloat_group 1 m in
          let y := parseFloat_group 2 m in
          let z := match group 3 m with
                   | Some ((_ :: _) as t) => parseFloat t
                   | _ => Num (of_Z 0)
                   end in
          readFlatCoordinates_loop fuel' (drop (length (m0 m)) s)
            (flatCoordinates ++ [x; y; z])
      | None => Some (flatCoordinates, s)
      end
  end.

(** [readFlatCoordinates], on the text content [s] of the node; [None] is
    [undefined].  Every match consumes a character, so the length of the
    text bounds the number of iterations. *)
Definition readFlatCoordinates (s : text) : option (list jsval) :=
  match readFlatCoordinates_loop (S (length s)) s [] with
  | Some (flatCoordinates, []) => Some flatCoordinates
  | Some (_, _ :: _) => None
  | None => None
  end.

(** ** XML nodes and the parser driver *)

#[local] Set Warnings "-register-all".

Module Xml.

(** An element has a namespace URI ([None] is [null]), a local name, its
    attributes and its child nodes in document order. *)
Inductive node : Type :=
| TextNode (nodeValue : string)
| Element (namespaceURI : option string) (localName : string)
          (attributes : list (string * string)) (childNodes : list node).

Definition namespaceURI_of (n : node) : option string :=
  match n with
  | TextNode _ => None
  | Element ns _ _ _ => ns
  end.

Definition localName_of (n : node) : string :=
  match n with
  | TextNode _ => EmptyString
  | Element _ name _ _ => name
  end.

Definition children_of (n : node) : list node :=
  match n with
  | TextNode _ => []
  | Element _ _ _ cs => cs
  end.

(** [node.getAttribute(name)]; [None] is [null]. *)
Definition getAttribute (n : node) (name : string) : option string :=
  match n with
  | TextNode _ => None
  | Element _ _ attrs _ =>
      snd <$> List.find (fun kv => String.eqb (fst kv) name) attrs
  end.

(** Modelled from the spec: [getAllTextContent(node, false)] of ol/xml.js,
    the "leaf text-content extraction" of the tree walker: the values of all
    text nodes below the node, in document order. *)
Fixpoint getAllTextContent (n : node) : string :=
  match n with
  | TextNode v => v
  | Element _ _ _ cs =>
      fold_right (fun c acc => String.append (getAllTextContent c) acc) EmptyString cs
  end.

Definition text_of (n : node) : text := of_string (getAllTextContent n).

(** [includes(namespaceURIs, uri)] *)
Definition includes (uris : list (option string)) (uri : option string) : bool :=
  bool_decide (uri ∈ uris).

(** What a call can throw: the [AssertionError] of [assert(false, code)],
    the [TypeError] of a property read on [undefined], and the [RangeError]
    of a recursion deeper than the stack allows. *)
Inductive error : Type :=
| AssertionError (code : nat)
| TypeError
| RangeError.

(** A reader either returns or throws. *)
Inductive outcome (A : Type) : Type :=
| Ok (a : A)
| Throw (e : error).
Arguments Ok {A} a.
Arguments Throw {A} e.

#[export] Instance outcome_ret : MRet outcome := fun A a => Ok a.
#[export] Instance outcome_bind : MBind outcome :=
  fun A B f m =>
    match m with
    | Ok a => f a
    | Throw e => Throw e
    end.
#[export] Instance outcome_fmap : FMap outcome :=
  fun A B f m =>
    match m with
    | Ok a => Ok (f a)
    | Throw e => Throw e
    end.

(** A parser works on the object on top of the object stack. *)
Definition parser (T : Type) := node -> T -> outcome T.

(** A structure maps local names to parsers; a namespaced structure does so
    for each namespace of a list. *)
Definition structure (T : Type) := list (string * parser T).

Definition parsersNS (T : Type) := option string -> string -> option (parser T).

Fixpoint structure_lookup {T} (name : string) (s : structure T)
  : option (parser T) :=
  match s with
  | [] => None
  | (k, p) :: s' => if String.eqb name k then Some p else structure_lookup name s'
  end.

Definition emptyNS {T} : parsersNS T := fun _ _ => None.

(** Modelled from the spec: [makeStructureNS(namespaceURIs, structure,
    opt_structureNS)] of ol/xml.js: the structure is installed for every
    namespace of the list, over what [opt_structureNS] had. *)
Definition makeStructureNS {T} (uris : list (option string))
    (s : structure T) (base : parsersNS T) : parsersNS T :=
  fun ns name => if includes uris ns then structure_lookup name s else base ns name.

(** Modelled from the spec: [parseNode(parsersNS, node, objectStack)] of
    ol/xml.js, the "generic driver" of the tree walker: every element child,
    in document order, whose namespace and local name have a parser is
    handed to it.  The dispatch is a function so that a reader can name
    itself in it. *)
Definition parseNodeBy {T}
    (dispatch : option string -> string -> node -> T -> outcome T)
    (n : node) (object : T) : outcome T :=
  match n with
  | TextNode _ => Ok object
  | Element _ _ _ childNodes =>
      fold_left
        (fun acc c =>
           match acc with
           | Ok obj =>
               match c with
               | Element ns name _ _ => dispatch ns name c obj
               | TextNode _ => Ok obj
               end
           | Throw e => Throw e
           end)
        childNodes (Ok object)
  end.

Definition dispatch_of {T} (p : parsersNS T)
  : option string -> string -> node -> T -> outcome T :=
  fun ns name c obj =>
    match p ns name with
    | Some parse => parse c obj
    | None => Ok obj
    end.

Definition parseNode {T} (p : parsersNS T) (n : node) (object : T) : outcome T :=
  parseNodeBy (dispatch_of p) n object.

(** Modelled from the spec: [pushParseAndPop(object, parsersNS, node,
    objectStack)] of ol/xml.js: the object is pushed, the children are
    parsed, and the top of the stack is popped and returned. *)
Definition pushParseAndPop {T} (object : T) (p : parsersNS T) (n : node)
  : outcome T :=
  parseNode p n object.

(** Modelled from the spec: [makeReplacer(valueReader)] of ol/xml.js, one
    of the helpers of the "generic driver": it replaces the top of the stack
    by the value read unless that is [undefined] ([None]), in which case the
    stack is left as it is, as the other helpers leave it. *)
Definition makeReplacer {A} (valueReader : node -> outcome (option A))
  : parser A :=
  fun n top =>
    v ← valueReader n;
    Ok (match v with
        | Some v => v
        | None => top
        end).

(** Modelled from the spec: [makeArrayPusher(valueReader)] of ol/xml.js
    appends the value read to the array on top of the stack unless it is
    [undefined]. *)
Definition makeArrayPusher {A} (valueReader : node -> outcome (option A))
  : parser (list A) :=
  fun n array =>
    v ← valueReader n;
    Ok (match v with
        | Some v => array ++ [v]
        | None => array
        end).

(** Modelled from the spec: [makeArrayExtender(valueReader)] of ol/xml.js
    appends all the values read unless the result is [undefined]. *)
Definition makeArrayExtender {A} (valueReader : node -> outcome (option (list A)))
  : parser (list A) :=
  fun n array =>
    v ← valueReader n;
    Ok (match v with
        | Some vs => array ++ vs
        | None => array
        end).

(** Modelled from the spec: [makeObjectPropertySetter(valueReader,
    opt_property)] of ol/xml.js sets the property (the local name of the
    node unless given) of the object on top of the stack to the value read,
    unless that is [undefined]. *)
Definition makeObjectPropertySetter {V} (valueReader : node -> outcome (option V))
    (opt_property : option string) : parser (gmap string V) :=
  fun n object =>
    v ← valueReader n;
    Ok (match v with
        | Some v => <[default (localName_of n) opt_property := v]> object
        | None => object
        end).

(** Modelled from the spec: [readString] of ol/format/xsd.js returns the
    text content of the node. *)
Definition readString (n : node) : string := getAllTextContent n.

End Xml.

Import Xml.

(** [GX_NAMESPACE_URIS] and [NAMESPACE_URIS] *)
Definition GX_NAMESPACE_URIS : list (option string) :=
  [Some "http://www.google.com/kml/ext/2.2"%string].

Definition NAMESPACE_URIS : list (option string) :=
  [None;
   Some "http://earth.google.com/kml/2.0"%string;
   Some "http://earth.google.com/kml/2.1"%string;
   Some "http://earth.google.com/kml/2.2"%string;
   Some "http://www.opengis.net/kml/2.2"%string].

(** ** Geometries *)

Inductive GeometryType : Type :=
| POINT | LINE_STRING | LINEAR_RING | POLYGON | MULTI_POINT
| MULTI_LINE_STRING | MULTI_POLYGON | GEOMETRY_COLLECTION | CIRCLE.

#[export] Instance GeometryType_eq_dec : EqDecision GeometryType.
Proof. solve_decision. Defined.

Inductive GeometryLayout : Type := XY | XYZ | XYM | XYZM.

(** Values of the properties of a geometry: the booleans and strings read
    from the document, and the per-member arrays of a multi-geometry, whose
    slots may be [undefined] ([None]). *)
Inductive gprop : Type :=
| PBool (b : bool)
| PString (s : string)
| PArray (members : list (option gprop)).

Abbreviation properties := (gmap string gprop).

(** The geometry objects the readers build.  A multi-line-string and a
    multi-polygon are kept as the members handed to [setLineStrings] and
    [setPolygons]. *)
Inductive geometry : Type :=
| Point (layout : GeometryLayout) (flatCoordinates : list jsval) (props : properties)
| LineString (layout : GeometryLayout) (flatCoordinates : list jsval) (props : properties)
| Polygon (layout : GeometryLayout) (flatCoordinates : list jsval)
          (ends : list nat) (props : properties)
| MultiPoint (layout : GeometryLayout) (flatCoordinates : list jsval) (props : properties)
| MultiLineString (lineStrings : list geometry) (props : properties)
| MultiPolygon (polygons : list geometry) (props : properties)
| GeometryCollection (geometries : list geometry).

Definition getType (g : geometry) : GeometryType :=
  match g with
  | Point _ _ _ => POINT
  | LineString _ _ _ => LINE_STRING
  | Polygon _ _ _ _ => POLYGON
  | MultiPoint _ _ _ => MULTI_POINT
  | MultiLineString _ _ => MULTI_LINE_STRING
  | MultiPolygon _ _ => MULTI_POLYGON
  | GeometryCollection _ => GEOMETRY_COLLECTION
  end.

Definition getProperties (g : geometry) : properties :=
  match g with
  | Point _ _ p | LineString _ _ p | Polygon _ _ _ p | MultiPoint _ _ p
  | MultiLineString _ p | MultiPolygon _ p => p
  | GeometryCollection _ => ∅
  end.

(** [geometry.get(key)]; [None] is [undefined]. *)
Definition get (g : geometry) (key : string) : option gprop := getProperties g !! key.

(** [geometry.set(key, value)] *)
Definition set (key : string) (v : gprop) (g : geometry) : geometry :=
  match g with
  | Point l f p => Point l f (<[key := v]> p)
  | LineString l f p => LineString l f (<[key := v]> p)
  | Polygon l f e p => Polygon l f e (<[key := v]> p)
  | MultiPoint l f p => MultiPoint l f (<[key := v]> p)
  | MultiLineString ls p => MultiLineString ls (<[key := v]> p)
  | MultiPolygon ps p => MultiPolygon ps (<[key := v]> p)
  | GeometryCollection gs => GeometryCollection gs
  end.

Definition getLayout (g : geometry) : GeometryLayout :=
  match g with
  | Point l _ _ | LineString l _ _ | Polygon l _ _ _ | MultiPoint l _ _ => l
  | _ => XY
  end.

Definition getFlatCoordinates (g : geometry) : list jsval :=
  match g with
  | Point _ f _ | LineString _ f _ | Polygon _ f _ _ | MultiPoint _ f _ => f
  | _ => []
  end.

(** Truth value of a property read with [get], as [||] and [if] take it. *)
Definition truthy (v : option gprop) : bool :=
  match v with
  | None => false
  | Some (PBool b) => b
  | Some (PString s) => negb (String.eqb s EmptyString)
  | Some (PArray _) => true
  end.

(** [setCommonGeometryProperties(multiGeometry, geometries)] *)
Definition setCommonGeometryProperties (multiGeometry : geometry)
    (geometries : list geometry) : geometry :=
  let extrudes := map (fun g => get g "extrude") geometries in
  let tessellates := map (fun g => get g "tessellate") geometries in
  let altitudeModes := map (fun g => get g "altitudeMode") geometries in
  let hasExtrude := existsb (fun v => bool_decide (v ≠ None)) extrudes in
  let hasTessellate := existsb (fun v => bool_decide (v ≠ None)) tessellates in
  let hasAltitudeMode := existsb truthy altitudeModes in
  let g1 := if hasExtrude then set "extrude" (PArray extrudes) multiGeometry
            else multiGeometry in
  let g2 := if hasTessellate then set "tessellate" (PArray tessellates) g1 else g1 in
  if hasAltitudeMode then set "altitudeMode" (PArray altitudeModes) g2 else g2.

(** The part of [readMultiGeometry] that follows the decoding of the
    children: [geometries] is the array the parsers have filled. *)
Definition multiGeometryOf (geometries : list geometry) : outcome geometry :=
  match geometries with
  | [] => Ok (GeometryCollection geometries)
  | first :: others =>
      let type := getType first in
      let homogeneous :=
        forallb (fun g => bool_decide (getType g = type)) others in
      if homogeneous then
        match type with
        | POINT =>
            let layout := getLayout first in
            let flatCoordinates :=
              fold_left (fun acc g => acc ++ getFlatCoordinates g) others
                        (getFlatCoordinates first) in
            Ok (setCommonGeometryProperties
                  (MultiPoint layout flatCoordinates ∅) geometries)
        | LINE_STRING =>
            Ok (setCommonGeometryProperties (MultiLineString geometries ∅) geometries)
        | POLYGON =>
            Ok (setCommonGeometryProperties (MultiPolygon geometries ∅) geometries)
        | GEOMETRY_COLLECTION => Ok (GeometryCollection geometries)
        | _ => Throw (AssertionError 37)
        end
      else Ok (GeometryCollection geometries)
  end.

(** ** Readers of geometries *)

Section GeometryReaders.

(** [readBoolean] of ol/format/xsd.js is not part of the sources: the
    readers take it as given; [None] is [undefined]. *)
Context (readBoolean : node -> option bool).

Definition EXTRUDE_AND_ALTITUDE_MODE_PARSERS : parsersNS properties :=
  makeStructureNS NAMESPACE_URIS
    [("extrude"%string,
       makeObjectPropertySetter (fun n => Ok (PBool <$> readBoolean n)) None);
     ("tessellate"%string,
       makeObjectPropertySetter (fun n => Ok (PBool <$> readBoolean n)) None);
     ("altitudeMode"%string,
       makeObjectPropertySetter (fun n => Ok (Some (PString (readString n)))) None)]
    emptyNS.

(** The object on top of the stack is [null] ([None]) or an array;
    [readFlatCoordinates] returns an array or [undefined]. *)
Definition GEOMETRY_FLAT_COORDINATES_PARSERS : parsersNS (option (list jsval)) :=
  makeStructureNS NAMESPACE_URIS
    [("coordinates"%string,
       makeReplacer (fun n => Ok (Some <$> readFlatCoordinates (text_of n))))]
    emptyNS.

Definition readFlatCoordinatesFromNode (n : node) : outcome (option (list jsval)) :=
  pushParseAndPop None GEOMETRY_FLAT_COORDINATES_PARSERS n.

Definition readPoint (n : node) : outcome (option geometry) :=
  props ← pushParseAndPop ∅ EXTRUDE_AND_ALTITUDE_MODE_PARSERS n;
  flatCoordinates ← readFlatCoordinatesFromNode n;
  Ok (match flatCoordinates with
      | Some f => Some (Point XYZ f props)
      | None => None
      end).

Definition readLineString (n : node) : outcome (option geometry) :=
  props ← pushParseAndPop ∅ EXTRUDE_AND_ALTITUDE_MODE_PARSERS n;
  flatCoordinates ← readFlatCoordinatesFromNode n;
  Ok (match flatCoordinates with
      | Some f => Some (LineString XYZ f props)
      | None => None
      end).

Definition readLinearRing (n : node) : outcome (option geometry) :=
  props ← pushParseAndPop ∅ EXTRUDE_AND_ALTITUDE_MODE_PARSERS n;
  flatCoordinates ← readFlatCoordinatesFromNode n;
  Ok (match flatCoordinates with
      | Some f => Some (Polygon XYZ f [length f] props)
      | None => None
      end).

Definition FLAT_LINEAR_RING_PARSERS : parsersNS (option (list jsval)) :=
  makeStructureNS NAMESPACE_URIS
    [("coordinates"%string,
       makeReplacer (fun n => Ok (Some <$> readFlatCoordinates (text_of n))))]
    emptyNS.

(** [readFlatLinearRing] returns [null] ([None]) or an array. *)
Definition readFlatLinearRing (n : node) : outcome (option (list jsval)) :=
  pushParseAndPop None FLAT_LINEAR_RING_PARSERS n.

(** The object on top of the stack is [undefined] at first, which is told
    apart from [null] by the replacer only: what [readFlatLinearRing]
    returns is never [undefined], so it always replaces the top. *)
Definition INNER_BOUNDARY_IS_PARSERS : parsersNS (option (list jsval)) :=
  makeStructureNS NAMESPACE_URIS
    [("LinearRing"%string,
       makeReplacer (fun n => r ← readFlatLinearRing n; Ok (Some r)))]
    emptyNS.

Definition OUTER_BOUNDARY_IS_PARSERS : parsersNS (option (list jsval)) :=
  makeStructureNS NAMESPACE_URIS
    [("LinearRing"%string,
       makeReplacer (fun n => r ← readFlatLinearRing n; Ok (Some r)))]
    emptyNS.

(** The object on top of the stack is the array of rings, whose slot 0 is
    [null] ([None]) until an outer boundary is read. *)
Definition innerBoundaryIsParser : parser (list (option (list jsval))) :=
  fun n flatLinearRings =>
    flatLinearRing ← pushParseAndPop None INNER_BOUNDARY_IS_PARSERS n;
    Ok (match flatLinearRing with
        | Some r => flatLinearRings ++ [Some r]
        | None => flatLinearRings
        end).

Definition outerBoundaryIsParser : parser (list (option (list jsval))) :=
  fun n flatLinearRings =>
    flatLinearRing ← pushParseAndPop None OUTER_BOUNDARY_IS_PARSERS n;
    Ok (match flatLinearRing with
        | Some r => <[0%nat := Some r]> flatLinearRings
        | None => flatLinearRings
        end).

Definition FLAT_LINEAR_RINGS_PARSERS : parsersNS (list (option (list jsval))) :=
  makeStructureNS NAMESPACE_URIS
    [("innerBoundaryIs"%string, innerBoundaryIsParser);
     ("outerBoundaryIs"%string, outerBoundaryIsParser)]
    emptyNS.

(** The loop of [readPolygon] over the rings after the first: the
    coordinates are appended and the running length is recorded. *)
Fixpoint extendRings (rings : list (option (list jsval)))
    (flatCoordinates : list jsval) (ends : list nat) : list jsval * list nat :=
  match rings with
  | [] => (flatCoordinates, ends)
  | r :: rings' =>
      let flatCoordinates' := flatCoordinates ++ default [] r in
      extendRings rings' flatCoordinates' (ends ++ [length flatCoordinates'])
  end.

Definition readPolygon (n : node) : outcome (option geometry) :=
  props ← pushParseAndPop ∅ EXTRUDE_AND_ALTITUDE_MODE_PARSERS n;
  flatLinearRings ← pushParseAndPop [None] FLAT_LINEAR_RINGS_PARSERS n;
  Ok (match flatLinearRings with
      | Some flatCoordinates :: inner =>
          let '(flat, ends) :=
            extendRings inner flatCoordinates [length flatCoordinates] in
          Some (Polygon XYZ flat ends props)
      | _ => None
      end).

(** [readMultiGeometry]: [MULTI_GEOMETRY_PARSERS] names the reader
    itself, so its dispatch is written out. *)
Fixpoint readMultiGeometry (n : node) : outcome (option geometry) :=
  geometries ←
    parseNodeBy
      (fun ns name c (array : list geometry) =>
         if includes NAMESPACE_URIS ns then
           if String.eqb name "LineString" then makeArrayPusher readLineString c array
           else if String.eqb name "LinearRing" then makeArrayPusher readLinearRing c array
           else if String.eqb name "MultiGeometry" then
             makeArrayPusher readMultiGeometry c array
           else if String.eqb name "Point" then makeArrayPusher readPoint c array
           else if String.eqb name "Polygon" then makeArrayPusher readPolygon c array
           else Ok array
         else Ok array)
      n [];
  Some <$> multiGeometryOf geometries.

End GeometryReaders.

(** ** Tracks *)

(** [a[i] = v] on an array: a position after the end extends the array,
    leaving holes in between. *)
Definition array_set (i : nat) (v : jsval) (a : list jsval) : list jsval :=
  if (i <? length a)%nat then <[i := v]> a
  else a ++ replicate (i - length a) Undefined ++ [v].

(** [a[i]] *)
Definition array_get (i : nat) (a : list jsval) : jsval := default Undefined (a !! i).

Module GxTrack.
Record GxTrackObject := {
  flatCoordinates : list jsval;
  whens : list jsval
}.
End GxTrack.

(** [[+\-]? \d+ (?: \. \d* )? (?: e [+\-]? \d* )?] under the [i] flag (the
    parts of the pattern are set apart by spaces here) *)
Definition GX_NUMBER_RE : regex :=
  seqs [Opt (Cls is_sign); Plus is_digit;
        Opt (seqs [Cls (is_char "."); Star is_digit]);
        Opt (seqs [Cls is_e; Opt (Cls is_sign); Star is_digit])].

(** The pattern of [gxCoordParser]: [^\s*(num)\s+(num)\s+(num)\s*$] *)
Definition GX_COORD_RE : regex :=
  seqs [Star is_space; Grp 1 GX_NUMBER_RE; Plus is_space; Grp 2 GX_NUMBER_RE;
        Plus is_space; Grp 3 GX_NUMBER_RE; Star is_space; Eos].

(** [isNaN(when) ? 0 : when] *)
Definition when_or_zero (when : option Z) : jsval :=
  match when with
  | None => Num (of_Z 0)
  | Some t => Num (of_Z t)
  end.

(** Following the spec's words: the timestamps and the positions "zipped by
    index (shorter sequence wins on length mismatch -- extra entries in the
    longer sequence are dropped)", four slots per vertex, the fourth being
    the timestamp. *)
Fixpoint zipTrack (positions : list (jsval * jsval * jsval)) (whens : list jsval)
  : list jsval :=
  match positions, whens with
  | (x, y, z) :: positions', w :: whens' => [x; y; z; w] ++ zipTrack positions' whens'
  | _, _ => []
  end.

Section TrackReaders.

(** [Date.parse] is the host's: milliseconds since the epoch, or NaN
    ([None]). *)
Context (Date_parse : string -> option Z).

Definition gxCoordParser : parser GxTrack.GxTrackObject :=
  fun n gxTrackObject =>
    let flatCoordinates := GxTrack.flatCoordinates gxTrackObject in
    let s := text_of n in
    Ok {| GxTrack.flatCoordinates :=
            match exec GX_COORD_RE s with
            | Some m =>
                let x := parseFloat_group 1 m in
                let y := parseFloat_group 2 m in
                let z := parseFloat_group 3 m in
                flatCoordinates ++ [x; y; z; Num (of_Z 0)]
            | None =>
                flatCoordinates ++ [Num (of_Z 0); Num (of_Z 0); Num (of_Z 0); Num (of_Z 0)]
            end;
          GxTrack.whens := GxTrack.whens gxTrackObject |}.

Definition whenParser : parser GxTrack.GxTrackObject :=
  fun n gxTrackObject =>
    let whens := GxTrack.whens gxTrackObject in
    let s := getAllTextContent n in
    let when := Date_parse s in
    Ok {| GxTrack.flatCoordinates := GxTrack.flatCoordinates gxTrackObject;
          GxTrack.whens := whens ++ [when_or_zero when] |}.

Definition GX_TRACK_PARSERS : parsersNS GxTrack.GxTrackObject :=
  makeStructureNS NAMESPACE_URIS [("when"%string, whenParser)]
    (makeStructureNS GX_NAMESPACE_URIS [("coord"%string, gxCoordParser)] emptyNS).

(** The loop of [readGxTrack]:
    [for (i = 0, ii = ...; i < ii; ++i) flatCoordinates[4 * i + 3] = whens[i]],
    run for the indices [i], [i + 1], ... of the list. *)
Definition setWhens (ii : nat) (whens flatCoordinates : list jsval) : list jsval :=
  fold_left (fun fc i => array_set (4 * i + 3) (array_get i whens) fc)
            (seq 0 ii) flatCoordinates.

Definition readGxTrack (n : node) : outcome (option geometry) :=
  gxTrackObject ←
    pushParseAndPop {| GxTrack.flatCoordinates := []; GxTrack.whens := [] |}
                    GX_TRACK_PARSERS n;
  let flatCoordinates := GxTrack.flatCoordinates gxTrackObject in
  let whens := GxTrack.whens gxTrackObject in
  let ii := Nat.min (length flatCoordinates) (length whens) in
  Ok (Some (LineString XYZM (setWhens ii whens flatCoordinates) ∅)).

Definition GX_MULTITRACK_GEOMETRY_PARSERS : parsersNS (list geometry) :=
  makeStructureNS GX_NAMESPACE_URIS
    [("Track"%string, makeArrayPusher readGxTrack)] emptyNS.

Definition readGxMultiTrack (n : node) : outcome (option geometry) :=
  lineStrings ← pushParseAndPop [] GX_MULTITRACK_GEOMETRY_PARSERS n;
  Ok (Some (MultiLineString lineStrings ∅)).

End TrackReaders.

(** ** Styles *)

(** Modelled from the spec: the style objects of ol/style, which are not
    part of the sources: "a composite of up to four independent sub-styles
    -- fill, stroke, image and text", any of which may be absent.  Only the
    attributes the format reads or writes are kept. *)
Record Fill := { fill_color : list dec }.

Record Stroke := { stroke_color : list dec; stroke_width : option dec }.

Record Image := {
  getImageSize : option (list dec);   (* [null] until the image is loaded *)
  image_getScale : dec
}.

Record Text := {
  getFont : option string;
  text_getScale : option dec;
  text_getFill : option Fill;
  text_getStroke : option Stroke;
  text_getText : option string;
  getOffsetX : dec;
  getOffsetY : dec;
  getTextAlign : option string
}.

Record Style := {
  getFill : option Fill;
  getImage : option Image;
  getStroke : option Stroke;
  getText : option Text;
  getZIndex : option Z
}.

(** The defaults set by [createStyleDefaults]. *)
Definition DEFAULT_COLOR : list dec := [of_Z 255; of_Z 255; of_Z 255; of_Z 1].

Definition DEFAULT_FILL_STYLE : Fill := {| fill_color := DEFAULT_COLOR |}.

Definition DEFAULT_IMAGE_STYLE_SIZE : list dec := [of_Z 64; of_Z 64].

Definition DEFAULT_IMAGE_SCALE_MULTIPLIER : dec := Dec 5 (-1).

Definition DEFAULT_IMAGE_STYLE : Image :=
  {| getImageSize := Some DEFAULT_IMAGE_STYLE_SIZE;
     image_getScale := DEFAULT_IMAGE_SCALE_MULTIPLIER |}.

Definition DEFAULT_STROKE_STYLE : Stroke :=
  {| stroke_color := DEFAULT_COLOR; stroke_width := Some (of_Z 1) |}.

Definition DEFAULT_TEXT_STROKE_STYLE : Stroke :=
  {| stroke_color := [of_Z 51; of_Z 51; of_Z 51; of_Z 1];
     stroke_width := Some (of_Z 2) |}.

Definition DEFAULT_TEXT_STYLE : Text :=
  {| getFont := Some "bold 16px Helvetica"%string;
     text_getScale := Some (Dec 8 (-1));
     text_getFill := Some DEFAULT_FILL_STYLE;
     text_getStroke := Some DEFAULT_TEXT_STROKE_STYLE;
     text_getText := None;
     getOffsetX := of_Z 0;
     getOffsetY := of_Z 0;
     getTextAlign := None |}.

Definition DEFAULT_STYLE : Style :=
  {| getFill := Some DEFAULT_FILL_STYLE;
     getImage := Some DEFAULT_IMAGE_STYLE;
     getStroke := Some DEFAULT_STROKE_STYLE;
     getText := Some DEFAULT_TEXT_STYLE;
     getZIndex := Some 0 |}.

Definition DEFAULT_STYLE_ARRAY : list Style := [DEFAULT_STYLE].

(** [x / 2] and [-x] on decimals. *)
Definition half (x : dec) : dec := Dec (mant x * 5) (expo x - 1).
Definition neg (x : dec) : dec := Dec (- mant x) (expo x).

(** [a || b] on an optional string, number or object. *)
Definition or_string (a : option string) (b : option string) : option string :=
  match a with
  | Some s => if String.eqb s EmptyString then b else a
  | None => b
  end.

Definition or_number (a : option dec) (b : option dec) : option dec :=
  match a with
  | Some x => if mant x =? 0 then b else a
  | None => b
  end.

Definition or_object {A} (a : option A) (b : option A) : option A :=
  match a with
  | Some _ => a
  | None => b
  end.

(** [createNameStyleFunction(foundStyle, name)] *)
Definition createNameStyleFunction (foundStyle : Style) (name : string) : Style :=
  let '(textOffset, textAlign) :=
    match getImage foundStyle with
    | Some image =>
        let imageSize := default DEFAULT_IMAGE_STYLE_SIZE (getImageSize image) in
        match imageSize with
        | [w; h] =>
            let imageScale := image_getScale image in
            ((half (mul imageScale w), half (mul (neg imageScale) h)), "left"%string)
        | _ => ((of_Z 0, of_Z 0), "start"%string)
        end
    | None => ((of_Z 0, of_Z 0), "start"%string)
    end in
  let textStyle :=
    match getText foundStyle with
    | Some foundText =>
        {| getFont := or_string (getFont foundText) (getFont DEFAULT_TEXT_STYLE);
           text_getScale :=
             or_number (text_getScale foundText) (text_getScale DEFAULT_TEXT_STYLE);
           text_getFill :=
             or_object (text_getFill foundText) (text_getFill DEFAULT_TEXT_STYLE);
           text_getStroke :=
             or_object (text_getStroke foundText) (Some DEFAULT_TEXT_STROKE_STYLE);
           text_getText := text_getText foundText;
           getOffsetX := getOffsetX foundText;
           getOffsetY := getOffsetY foundText;
           getTextAlign := getTextAlign foundText |}
    | None => DEFAULT_TEXT_STYLE
    end in
  let textStyle :=
    {| getFont := getFont textStyle;
       text_getScale := text_getScale textStyle;
       text_getFill := text_getFill textStyle;
       text_getStroke := text_getStroke textStyle;
       text_getText := Some name;
       getOffsetX := fst textOffset;
       getOffsetY := snd textOffset;
       getTextAlign := Some textAlign |} in
  {| getFill := None; getImage := None; getStroke := None;
     getText := Some textStyle; getZIndex := None |}.

(** ** The registry of shared styles *)

(** An entry of [sharedStyles_]: a style array, or the URL a style map
    points to. *)
Inductive styleValue : Type :=
| StyleArray (a : list Style)
| StyleUrl (u : string).

(** The registry holds the own properties of the object [sharedStyles_],
    which is created as [{}] and so inherits the properties of
    [Object.prototype]. *)
Abbreviation registry := (gmap string styleValue).

(** The names of the properties of [Object.prototype] (ECMAScript, with
    its annex B); their values are functions, and an object or [null] for
    [__proto__]: none is an array or a string. *)
Definition Object_prototype_names : list string :=
  ["constructor"; "hasOwnProperty"; "isPrototypeOf"; "propertyIsEnumerable";
   "toLocaleString"; "toString"; "valueOf"; "__proto__";
   "__defineGetter__"; "__defineSetter__"; "__lookupGetter__";
   "__lookupSetter__"]%string.

(** [k in sharedStyles]: true of the own properties and of the inherited
    ones. *)
Definition has_key (sharedStyles : registry) (k : string) : bool :=
  bool_decide (is_Some (sharedStyles !! k))
  || bool_decide (k ∈ Object_prototype_names).

(** [findStyle(styleValue, defaultStyle, sharedStyles)]; the fuel is the
    depth of recursion the stack allows.  [None] stands for every value
    that is neither an array nor a string: [undefined], which
    [sharedStyles[styleValue]] gives for a name that is no property, and
    the value of a property inherited from [Object.prototype]. *)
Fixpoint findStyle (fuel : nat) (v : option styleValue)
    (defaultStyle : list Style) (sharedStyles : registry) : outcome (list Style) :=
  match fuel with
  | O => Throw RangeError
  | S fuel' =>
      match v with
      | Some (StyleArray a) => Ok a
      | Some (StyleUrl u) =>
          let u' :=
            if negb (has_key sharedStyles u)
               && has_key sharedStyles (String.append "#" u)
            then String.append "#" u else u in
          findStyle fuel' (sharedStyles !! u') defaultStyle sharedStyles
      | None => Ok defaultStyle
      end
  end.

(** ** Features *)

(** Values of the properties of a placemark object and of a feature. *)
Inductive value : Type :=
| VUndefined
| VNull
| VBool (b : bool)
| VNumber (x : jsval)
| VString (s : string)
| VArray (l : list value)
| VGeometry (g : geometry)
| VStyle (a : list Style).

(** What [createFeatureStyleFunction] closes over, apart from the registry:
    the style function of a feature holds a reference to the registry of the
    format, and reads it when it is called. *)
Record FeatureStyle := {
  fs_style : option (list Style);
  fs_styleUrl : option string;
  fs_defaultStyle : list Style;
  fs_showPointNames : bool
}.

(** Modelled from the spec: a feature of ol/Feature.js, which is not part
    of the sources: "identifier (optional opaque string), one geometry
    (optional), a mapping of property name to value, and a style resolver
    function". *)
Record Feature := {
  getId : option string;
  getGeometry : option geometry;
  getProperties_ : gmap string value;
  getStyle : option FeatureStyle
}.

(** [feature.get('name')], which the source takes to be a string. *)
Definition feature_name (feature : Feature) : string :=
  match getProperties_ feature !! "name"%string with
  | Some (VString s) => s
  | _ => EmptyString
  end.

(** The value of [drawName] when the style is chosen. *)
Definition drawName (showPointNames : bool) (feature : Feature) : bool :=
  let drawName := showPointNames in
  let drawName :=
    if drawName then
      match getGeometry feature with
      | Some geometry => bool_decide (getType geometry = POINT)
      | None => drawName
      end
    else drawName in
  if drawName then negb (String.eqb (feature_name feature) EmptyString) else false.

(** [foundStyle.concat(createNameStyleFunction(foundStyle[0], name))] *)
Definition concatNameStyle (foundStyle : list Style) (name : string)
  : outcome (list Style) :=
  match foundStyle with
  | first :: _ => Ok (foundStyle ++ [createNameStyleFunction first name])
  | [] => Throw TypeError
  end.

(** The function returned by [createFeatureStyleFunction(style, styleUrl,
    defaultStyle, sharedStyles, showPointNames)], applied to a feature; the
    resolution is not used.  An array is true whatever its length; a string
    is true unless empty. *)
Definition createFeatureStyleFunction (style : option (list Style))
    (styleUrl : option string) (defaultStyle : list Style)
    (sharedStyles : registry) (showPointNames : bool)
    (fuel : nat) (feature : Feature) : outcome (list Style) :=
  let drawName := drawName showPointNames feature in
  let name := feature_name feature in
  match style with
  | Some style =>
      if drawName then concatNameStyle style name else Ok style
  | None =>
      match styleUrl with
      | Some (String _ _ as styleUrl) =>
          foundStyle ← findStyle fuel (Some (StyleUrl styleUrl)) defaultStyle sharedStyles;
          if drawName then concatNameStyle foundStyle name else Ok foundStyle
      | _ =>
          if drawName then concatNameStyle defaultStyle name else Ok defaultStyle
      end
  end.

(** ** Readers of placemarks and documents *)

(** [String.prototype.trim] *)
Definition trim (s : string) : string :=
  string_of_list_ascii
    (rev (skip_space (rev (skip_space (list_ascii_of_string s))))).

(** The state of a format object. *)
Record KML := {
  defaultStyle_ : list Style;
  extractStyles_ : bool;
  writeStyles_ : bool;
  sharedStyles_ : registry;
  showPointNames_ : bool
}.

(** The options of the constructor, each one optional. *)
Record Options := {
  opt_defaultStyle : option (list Style);
  opt_extractStyles : option bool;
  opt_showPointNames : option bool;
  opt_writeStyles : option bool
}.

(** The constructor [KML(opt_options)]. *)
Definition new_KML (options : Options) : KML :=
  {| defaultStyle_ := default DEFAULT_STYLE_ARRAY (opt_defaultStyle options);
     extractStyles_ := default true (opt_extractStyles options);
     writeStyles_ := default true (opt_writeStyles options);
     sharedStyles_ := ∅;
     showPointNames_ := default true (opt_showPointNames options) |}.

Definition set_sharedStyle (this : KML) (styleUri : string) (v : styleValue) : KML :=
  {| defaultStyle_ := defaultStyle_ this;
     extractStyles_ := extractStyles_ this;
     writeStyles_ := writeStyles_ this;
     sharedStyles_ := <[styleUri := v]> (sharedStyles_ this);
     showPointNames_ := showPointNames_ this |}.

(** The property key a value turns into when it is used as one.  Only
    strings and [undefined] are ever stored under [displayName]. *)
Definition property_key (v : value) : string :=
  match v with
  | VString s => s
  | VUndefined => "undefined"
  | VNull => "null"
  | VBool true => "true"
  | VBool false => "false"
  | _ => "[object Object]"
  end.

(** [parseFloat(v)] of a property that holds a number or is absent. *)
Definition parseFloat_value (v : option value) : value :=
  match v with
  | Some (VNumber x) => VNumber x
  | Some (VString s) => VNumber (parseFloat (of_string s))
  | _ => VNumber NaN
  end.

Section FormatReaders.

(** What the sources leave to other modules and to the host:
    [readBoolean] and [readDecimal] of ol/format/xsd.js, [Date.parse],
    [new URL(url, base).href] (which may throw), [node.baseURI],
    [window.location.href], and [transformWithOptions] with the read
    options of the call.  [readStyle], with the icon, label, line and
    polygon sub-styles it assembles, stands for the decoding of one
    [Style] element. *)
Context (readBoolean : node -> option bool)
        (readDecimal : node -> option dec)
        (Date_parse : string -> option Z)
        (URL_href : string -> string -> outcome string)
        (baseURI : node -> option string)
        (location_href : string)
        (transformWithOptions : geometry -> geometry)
        (readStyle : node -> outcome (option (list Style))).

(** The base against which the URLs of a node are resolved; [None] when
    there is none. *)
Definition base_of (n : node) : option string :=
  let baseURI :=
    match baseURI n with
    | Some b => if String.eqb b EmptyString || String.eqb b "about:blank"
                then location_href else b
    | None => location_href
    end in
  if String.eqb baseURI EmptyString then None else Some baseURI.

Definition readURI (n : node) : outcome string :=
  let s := trim (getAllTextContent n) in
  match base_of n with
  | Some baseURI => URL_href s baseURI
  | None => Ok s
  end.

Definition setter_of {A} (wrap : A -> value) (valueReader : node -> option A)
  : parser (gmap string value) :=
  makeObjectPropertySetter (fun n => Ok (wrap <$> valueReader n)) None.

Definition string_setter : parser (gmap string value) :=
  setter_of VString (fun n => Some (readString n)).

Definition boolean_setter : parser (gmap string value) :=
  setter_of VBool readBoolean.

Definition decimal_setter : parser (gmap string value) :=
  setter_of (fun x => VNumber (Num x)) readDecimal.

Definition uri_setter : parser (gmap string value) :=
  makeObjectPropertySetter (fun n => s ← readURI n; Ok (Some (VString s))) None.

Definition style_setter : parser (gmap string value) :=
  makeObjectPropertySetter
    (fun n => a ← readStyle n;
              Ok (Some (match a with Some a => VStyle a | None => VNull end)))
    None.

Definition geometry_setter (valueReader : node -> outcome (option geometry))
  : parser (gmap string value) :=
  makeObjectPropertySetter
    (fun n => g ← valueReader n; Ok (VGeometry <$> (g : option geometry)))
                           (Some "geometry"%string).

(** *** Style maps *)

Definition PAIR_PARSERS : parsersNS (gmap string value) :=
  makeStructureNS NAMESPACE_URIS
    [("Style"%string, style_setter);
     ("key"%string, string_setter);
     ("styleUrl"%string, uri_setter)]
    emptyNS.

(** The object on top of the stack is the value of the style map,
    [undefined] ([None]) at first. *)
Definition pairDataParser : parser (option styleValue) :=
  fun n top =>
    pairObject ← pushParseAndPop ∅ PAIR_PARSERS n;
    Ok (match pairObject !! "key"%string with
        | Some (VString "normal") =>
            let top1 :=
              match pairObject !! "styleUrl"%string with
              | Some (VString (String _ _ as styleUrl)) => Some (StyleUrl styleUrl)
              | _ => top
              end in
            match pairObject !! "Style"%string with
            | Some (VStyle a) => Some (StyleArray a)
            | _ => top1
            end
        | _ => top
        end).

Definition STYLE_MAP_PARSERS : parsersNS (option styleValue) :=
  makeStructureNS NAMESPACE_URIS [("Pair"%string, pairDataParser)] emptyNS.

Definition readStyleMapValue (n : node) : outcome (option styleValue) :=
  pushParseAndPop None STYLE_MAP_PARSERS n.

Definition placemarkStyleMapParser : parser (gmap string value) :=
  fun n placemarkObject =>
    styleMapValue ← readStyleMapValue n;
    Ok (match styleMapValue with
        | Some (StyleArray a) => <["Style"%string := VStyle a]> placemarkObject
        | Some (StyleUrl (String _ _ as u)) =>
            <["styleUrl"%string := VString u]> placemarkObject
        | _ => placemarkObject
        end).

(** *** Extended data *)

Definition DATA_PARSERS : parsersNS (gmap string value) :=
  makeStructureNS NAMESPACE_URIS
    [("displayName"%string, string_setter);
     ("value"%string, string_setter)]
    emptyNS.

(** [featureObject.p] of a property that may be absent. *)
Definition prop (featureObject : gmap string value) (p : string) : value :=
  default VUndefined (featureObject !! p).

Definition dataParser : parser (gmap string value) :=
  fun n featureObject =>
    let name := getAttribute n "name" in
    featureObject ← parseNode DATA_PARSERS n featureObject;
    let featureObject :=
      match name with
      | Some name => <[name := prop featureObject "value"]> featureObject
      | None =>
          match prop featureObject "displayName" with
          | VNull => featureObject
          | displayName =>
              <[property_key displayName := prop featureObject "value"]> featureObject
          end
      end in
    Ok (delete "value"%string featureObject).

Definition simpleDataParser : parser (gmap string value) :=
  fun n featureObject =>
    Ok (match getAttribute n "name" with
        | Some name => <[name := VString (readString n)]> featureObject
        | None => featureObject
        end).

Definition SCHEMA_DATA_PARSERS : parsersNS (gmap string value) :=
  makeStructureNS NAMESPACE_URIS [("SimpleData"%string, simpleDataParser)] emptyNS.

Definition schemaDataParser : parser (gmap string value) :=
  fun n featureObject => parseNode SCHEMA_DATA_PARSERS n featureObject.

Definition EXTENDED_DATA_PARSERS : parsersNS (gmap string value) :=
  makeStructureNS NAMESPACE_URIS
    [("Data"%string, dataParser); ("SchemaData"%string, schemaDataParser)]
    emptyNS.

Definition extendedDataParser : parser (gmap string value) :=
  fun n featureObject => parseNode EXTENDED_DATA_PARSERS n featureObject.

(** *** Regions *)

Definition LAT_LON_ALT_BOX_PARSERS : parsersNS (gmap string value) :=
  makeStructureNS NAMESPACE_URIS
    [("altitudeMode"%string, string_setter);
     ("minAltitude"%string, decimal_setter);
     ("maxAltitude"%string, decimal_setter);
     ("north"%string, decimal_setter);
     ("south"%string, decimal_setter);
     ("east"%string, decimal_setter);
     ("west"%string, decimal_setter)]
    emptyNS.

Definition latLonAltBoxParser : parser (gmap string value) :=
  fun n regionObject =>
    object ← pushParseAndPop ∅ LAT_LON_ALT_BOX_PARSERS n;
    let extent :=
      VArray [parseFloat_value (object !! "west"%string);
              parseFloat_value (object !! "south"%string);
              parseFloat_value (object !! "east"%string);
              parseFloat_value (object !! "north"%string)] in
    Ok (<["maxAltitude"%string := parseFloat_value (object !! "maxAltitude"%string)]>
        (<["minAltitude"%string := parseFloat_value (object !! "minAltitude"%string)]>
         (<["altitudeMode"%string := prop object "altitudeMode"]>
          (<["extent"%string := extent]> regionObject)))).

Definition LOD_PARSERS : parsersNS (gmap string value) :=
  makeStructureNS NAMESPACE_URIS
    [("minLodPixels"%string, decimal_setter);
     ("maxLodPixels"%string, decimal_setter);
     ("minFadeExtent"%string, decimal_setter);
     ("maxFadeExtent"%string, decimal_setter)]
    emptyNS.

Definition lodParser : parser (gmap string value) :=
  fun n lodObject =>
    object ← pushParseAndPop ∅ LOD_PARSERS n;
    Ok (<["maxFadeExtent"%string := parseFloat_value (object !! "maxFadeExtent"%string)]>
        (<["minFadeExtent"%string := parseFloat_value (object !! "minFadeExtent"%string)]>
         (<["maxLodPixels"%string := parseFloat_value (object !! "maxLodPixels"%string)]>
          (<["minLodPixels"%string := parseFloat_value (object !! "minLodPixels"%string)]>
           lodObject)))).

Definition REGION_PARSERS : parsersNS (gmap string value) :=
  makeStructureNS NAMESPACE_URIS
    [("LatLonAltBox"%string, latLonAltBoxParser); ("Lod"%string, lodParser)]
    emptyNS.

Definition regionParser : parser (gmap string value) :=
  fun n object => parseNode REGION_PARSERS n object.

(** *** Placemarks *)

Definition PLACEMARK_PARSERS : parsersNS (gmap string value) :=
  makeStructureNS NAMESPACE_URIS
    [("ExtendedData"%string, extendedDataParser);
     ("Region"%string, regionParser);
     ("MultiGeometry"%string, geometry_setter (readMultiGeometry readBoolean));
     ("LineString"%string, geometry_setter (readLineString readBoolean));
     ("LinearRing"%string, geometry_setter (readLinearRing readBoolean));
     ("Point"%string, geometry_setter (readPoint readBoolean));
     ("Polygon"%string, geometry_setter (readPolygon readBoolean));
     ("Style"%string, style_setter);
     ("StyleMap"%string, placemarkStyleMapParser);
     ("address"%string, string_setter);
     ("description"%string, string_setter);
     ("name"%string, string_setter);
     ("open"%string, boolean_setter);
     ("phoneNumber"%string, string_setter);
     ("styleUrl"%string, uri_setter);
     ("visibility"%string, boolean_setter)]
    (makeStructureNS GX_NAMESPACE_URIS
       [("MultiTrack"%string, geometry_setter (readGxMultiTrack Date_parse));
        ("Track"%string, geometry_setter (readGxTrack Date_parse))]
       emptyNS).

(** [KML.prototype.readPlacemark_].  The properties [geometry], [Style]
    and [styleUrl] of the placemark object are read as a geometry, a style
    array and a string; an extended-data entry of one of these names that
    stores a value of another kind there is outside the model. *)
Definition readPlacemark_ (this : KML) (n : node) : outcome (option Feature) :=
  object ← pushParseAndPop {[ "geometry"%string := VNull ]} PLACEMARK_PARSERS n;
  let id := getAttribute n "id" in
  let geometry :=
    match object !! "geometry"%string with
    | Some (VGeometry g) => Some (transformWithOptions g)
    | _ => None
    end in
  let object := delete "geometry"%string object in
  let styleFunction :=
    if extractStyles_ this then
      let style :=
        match object !! "Style"%string with
        | Some (VStyle a) => Some a
        | _ => None
        end in
      let styleUrl :=
        match object !! "styleUrl"%string with
        | Some (VString u) => Some u
        | _ => None
        end in
      Some {| fs_style := style; fs_styleUrl := styleUrl;
              fs_defaultStyle := defaultStyle_ this;
              fs_showPointNames := showPointNames_ this |}
    else None in
  let object := delete "Style"%string object in
  Ok (Some {| getId := id; getGeometry := geometry;
              getProperties_ := object; getStyle := styleFunction |}).

(** The key under which a shared style with identifier [id] is stored. *)
Definition styleUri_of (n : node) (id : string) : outcome string :=
  match base_of n with
  | Some baseURI => URL_href (String.append "#" id) baseURI
  | None => Ok (String.append "#" id)
  end.

(** [KML.prototype.readSharedStyle_] *)
Definition readSharedStyle_ (this : KML) (n : node) : outcome KML :=
  match getAttribute n "id" with
  | Some id =>
      style ← readStyle n;
      match style with
      | Some style =>
          styleUri ← styleUri_of n id;
          Ok (set_sharedStyle this styleUri (StyleArray style))
      | None => Ok this
      end
  | None => Ok this
  end.

(** [KML.prototype.readSharedStyleMap_] *)
Definition readSharedStyleMap_ (this : KML) (n : node) : outcome KML :=
  match getAttribute n "id" with
  | None => Ok this
  | Some id =>
      styleMapValue ← readStyleMapValue n;
      match styleMapValue with
      | None | Some (StyleUrl EmptyString) => Ok this
      | Some v =>
          styleUri ← styleUri_of n id;
          Ok (set_sharedStyle this styleUri v)
      end
  end.

(** [KML.prototype.readDocumentOrFolder_]: the object on top of the stack
    is the array of features; the format object goes along with it, for
    the shared styles registered on the way.  The parsers name the reader
    itself, so their dispatch is written out. *)
Fixpoint readDocumentOrFolder_ (this : KML) (n : node)
  : outcome (option (list Feature) * KML) :=
  r ← parseNodeBy
        (fun ns name c (top : list Feature * KML) =>
           let '(features, this) := top in
           if includes NAMESPACE_URIS ns then
             if String.eqb name "Document" || String.eqb name "Folder" then
               r ← readDocumentOrFolder_ this c;
               Ok (match fst r with
                   | Some fs => features ++ fs
                   | None => features
                   end, snd r)
             else if String.eqb name "Placemark" then
               f ← readPlacemark_ this c;
               Ok (match f with
                   | Some f => features ++ [f]
                   | None => features
                   end, this)
             else if String.eqb name "Style" then
               this' ← readSharedStyle_ this c;
               Ok (features, this')
             else if String.eqb name "StyleMap" then
               this' ← readSharedStyleMap_ this c;
               Ok (features, this')
             else Ok top
           else Ok top)
        n ([], this);
  Ok (Some (fst r), snd r).

(** [KML.prototype.readFeatureFromNode]; [None] is [null]. *)
Definition readFeatureFromNode (this : KML) (n : node)
  : outcome (option Feature * KML) :=
  if negb (includes NAMESPACE_URIS (namespaceURI_of n)) then Ok (None, this)
  else
    feature ← readPlacemark_ this n;
    Ok (feature, this).

(** [KML.prototype.readFeaturesFromNode] *)
Fixpoint readFeaturesFromNode (this : KML) (n : node)
  : outcome (list Feature * KML) :=
  match n with
  | TextNode _ => Ok ([], this)
  | Element namespaceURI localName _ childNodes =>
      if negb (includes NAMESPACE_URIS namespaceURI) then Ok ([], this)
      else if String.eqb localName "Document" || String.eqb localName "Folder" then
        r ← readDocumentOrFolder_ this n;
        Ok (default [] (fst r), snd r)
      else if String.eqb localName "Placemark" then
        feature ← readPlacemark_ this n;
        Ok (match feature with
            | Some f => [f]
            | None => []
            end, this)
      else if String.eqb localName "kml" then
        fold_left
          (fun acc c =>
             match acc with
             | Ok (features, this) =>
                 match c with
                 | Element _ _ _ _ =>
                     r ← readFeaturesFromNode this c;
                     Ok (features ++ fst r, snd r)
                 | TextNode _ => Ok (features, this)
                 end
             | Throw e => Throw e
             end)
          childNodes (Ok ([], this))
      else Ok ([], this)
  end.

End FormatReaders.

(** ** Vocabulary of the properties *)

(** A multi-point, multi-line-string or multi-polygon, on which [set]
    stores a property. *)
Definition is_multi (g : geometry) : Prop :=
  match g with
  | MultiPoint _ _ _ | MultiLineString _ _ | MultiPolygon _ _ => True
  | _ => False
  end.

(** The per-member arrays of a multi-geometry [mg] built from [gs]: the
    array of a key is there exactly when [present] holds of the value of
    one member, and it lists the values of all members in order. *)
Definition member_array (present : option gprop -> Prop) (key : string)
    (mg : geometry) (gs : list geometry) : Prop :=
  (is_Some (get mg key) <-> exists g, g ∈ gs /\ present (get g key)) /\
  (is_Some (get mg key) ->
   get mg key = Some (PArray (map (fun g => get g key) gs))).

(** The multi-geometry type that members of one type are collected into. *)
Definition multi_type (t : GeometryType) : GeometryType :=
  match t with
  | POINT => MULTI_POINT
  | LINE_STRING => MULTI_LINE_STRING
  | POLYGON => MULTI_POLYGON
  | t => t
  end.

(** The key [findStyle] reads for the URL [u]: the URL with a leading [#]
    when the registry has no property of that name, neither an entry of its
    own nor a property every object inherits, and has an entry for the URL
    with the [#]. *)
Definition registry_key (sharedStyles : registry) (u : string) : string :=
  if decide (sharedStyles !! u = None /\ (u ∉ Object_prototype_names)
             /\ is_Some (sharedStyles !! String.append "#" u))
  then String.append "#" u else u.

(** Following the spec's words: a style value resolves to itself when it is
    a style array, through the registry when it is a URL ("recursively
    following string-valued indirections"), and to the default style when
    the reference leads nowhere. *)
Inductive resolves (sharedStyles : registry) (defaultStyle : list Style)
  : option styleValue -> list Style -> Prop :=
| resolves_array (a : list Style) :
    resolves sharedStyles defaultStyle (Some (StyleArray a)) a
| resolves_default :
    resolves sharedStyles defaultStyle None defaultStyle
| resolves_url (u : string) (r : list Style) :
    resolves sharedStyles defaultStyle
             (sharedStyles !! registry_key sharedStyles u) r ->
    resolves sharedStyles defaultStyle (Some (StyleUrl u)) r.

(** The style array a placemark without inline style resolves to: what
    its style URL resolves to, and the default style when it has no style
    URL or an empty one. *)
Definition url_resolves (sharedStyles : registry) (defaultStyle : list Style)
    (styleUrl : option string) (found : list Style) : Prop :=
  match styleUrl with
  | Some (String _ _ as u) => resolves sharedStyles defaultStyle (Some (StyleUrl u)) found
  | _ => found = defaultStyle
  end.



(** The text of the last child element of [d], among those in a KML
    namespace, with the local name [name]. *)
Definition last_child_text (name : string) (d : node) : option string :=
  fold_left
    (fun acc c =>
       match c with
       | Element ns name' _ _ =>
           if includes NAMESPACE_URIS ns && String.eqb name' name
           then Some (getAllTextContent c) else acc
       | TextNode _ => acc
       end)
    (children_of d) None.

(** Following the spec's words: an extended-data entry is "keyed by
    attribute name (or the display-name child when no name attribute
    exists)"; its value is the text of its value child. *)
Definition entry_key (d : node) : option string :=
  match getAttribute d "name" with
  | Some k => Some k
  | None => last_child_text "displayName" d
  end.

Definition entry_value (d : node) : option string := last_child_text "value" d.

(** The scalar metadata fields of a placemark. *)
Definition scalar_fields : list string :=
  ["address"; "description"; "name"; "open"; "phoneNumber"; "styleUrl";
   "visibility"]%string.

(** What it means for a pattern to match the text [w] when [w] is followed
    by [s'], with the captures [c] (the latest first). *)
Inductive matches : regex -> text -> text -> captures -> Prop :=
| matches_eps s' : matches Eps [] s' []
| matches_cls (p : ascii -> bool) a s' : p a = true -> matches (Cls p) [a] s' []
| matches_seq r1 r2 w1 w2 s' c1 c2 :
    matches r1 w1 (w2 ++ s') c1 -> matches r2 w2 s' c2 ->
    matches (Seq r1 r2) (w1 ++ w2) s' (c2 ++ c1)
| matches_star (p : ascii -> bool) w s' :
    Forall (fun a => p a = true) w -> matches (Star p) w s' []
| matches_opt_some r w s' c : matches r w s' c -> matches (Opt r) w s' c
| matches_opt_none r s' : matches (Opt r) [] s' []
| matches_grp i r w s' c : matches r w s' c -> matches (Grp i r) w s' ((i, w) :: c)
| matches_eos : matches Eos [] [] [].

(** The least number of characters a pattern consumes. *)
Fixpoint min_len (r : regex) : nat :=
  match r with
  | Eps | Star _ | Opt _ | Eos => 0
  | Cls _ => 1
  | Seq r1 r2 => min_len r1 + min_len r2
  | Grp _ r' => min_len r'
  end.

(** The numbers of one matched tuple: x, y, and z, which is 0 when the
    third number is not there. *)
Definition tuple_of (m : match_result) : list jsval :=
  [parseFloat_group 1 m; parseFloat_group 2 m;
   match group 3 m with
   | Some ((_ :: _) as t) => parseFloat t
   | _ => Num (of_Z 0)
   end].

(** Following the spec's words: the text is scanned by matching the tuple
    pattern repeatedly, "anchored at the current scan position, advancing
    past each match"; [scans s fc r] holds when this gives the numbers [fc]
    and ends, no tuple matching any more, with the text [r] left. *)
Inductive scans : text -> list jsval -> text -> Prop :=
| scans_end (s : text) : exec COORDINATES_RE s = None -> scans s [] s
| scans_tuple (s : text) (m : match_result) (fc : list jsval) (r : text) :
    exec COORDINATES_RE s = Some m -> scans (rest m) fc r ->
    scans s (tuple_of m ++ fc) r.

(** The value of a hexadecimal digit, and of a byte written as two. *)
Definition hex_value (a : ascii) : Z :=
  match a with
  | "0" => 0 | "1" => 1 | "2" => 2 | "3" => 3 | "4" => 4
  | "5" => 5 | "6" => 6 | "7" => 7 | "8" => 8 | "9" => 9
  | "a" | "A" => 10 | "b" | "B" => 11 | "c" | "C" => 12
  | "d" | "D" => 13 | "e" | "E" => 14 | "f" | "F" => 15
  | _ => 0
  end%char.

Definition byte_of (hi lo : ascii) : Z := 16 * hex_value hi + hex_value lo.

Definition all_space (w : text) : Prop := Forall (fun a => is_space a = true) w.
Definition all_hex (w : text) : Prop := Forall (fun a => is_hex a = true) w.

(** The texts the color pattern matches. *)
Definition color_text (s : text) (w1 hash w2 h w3 : text) : Prop :=
  s = w1 ++ hash ++ w2 ++ h ++ w3
  /\ all_space w1 /\ (hash = [] \/ hash = ["#"%char]) /\ all_space w2
  /\ length h = 8%nat /\ all_hex h /\ all_space w3.

(** Order of decimals, by their mantissas at the smaller exponent. *)
Definition scaled (x : dec) (e : Z) : Z := mant x * 10 ^ (expo x - e).

Definition leb (x y : dec) : bool :=
  let e := Z.min (expo x) (expo y) in scaled x e <=? scaled y e.

Definition ltb (x y : dec) : bool :=
  let e := Z.min (expo x) (expo y) in scaled x e <? scaled y e.

(** [x] is 0 or lies between 0.000001 and 256 (excluded): the numbers whose
    decimal notation has no exponent and whose integer part is a byte. *)
Definition byte_range (x : dec) : Prop :=
  mant x = 0 \/ (leb (Dec 1 (-6)) x = true /\ ltb x (of_Z 256) = true).

(** Two lower-case hexadecimal digits. *)
Definition hex2 (n : Z) : text := [digit_char (n / 16); digit_char (n mod 16)].

(** Following the spec's words: "each value rounded, clamped to an integer
    0-255, hex-encoded as exactly two digits", in the order alpha * 255,
    blue, green, red. *)
Definition round (x : dec) : Z := (floor (mul x (of_Z 2)) + 1) / 2.

Definition clamp (n : Z) : Z := Z.max 0 (Z.min 255 n).

Definition writeColor_rounded (r g b a : dec) : text :=
  hex2 (clamp (round (mul a (of_Z 255)))) ++ hex2 (clamp (round b))
    ++ hex2 (clamp (round g)) ++ hex2 (clamp (round r)).

(** Sequences of decimal digits. *)
Definition decimal (ds : list Z) : Prop := Forall (fun d => 0 <= d < 10) ds.

(** The position of the decimal point: [x = 0.d1d2... * 10 ^ point x]. *)
Definition point (x : dec) : Z :=
  Z.of_nat (length (digits 10 (mant x))) + expo x.

(** The flat coordinates [gxCoordParser] builds for a sequence of
    positions: each position with 0 in its fourth slot. *)
Definition track_positions (ps : list (jsval * jsval * jsval)) : list jsval :=
  concat (map (fun '(x, y, z) => [x; y; z; Num (of_Z 0)]) ps).

(** The position a [gx:coord] element stands for: its three numbers, or
    three zeros when its text is not three numbers. *)
Definition coord_of (c : node) : jsval * jsval * jsval :=
  match exec GX_COORD_RE (text_of c) with
  | Some m => (parseFloat_group 1 m, parseFloat_group 2 m, parseFloat_group 3 m)
  | None => (Num (of_Z 0), Num (of_Z 0), Num (of_Z 0))
  end.

(** The positions of a track, in document order: one for each child
    [coord] in the extension namespace. *)
Definition track_coords (n : node) : list (jsval * jsval * jsval) :=
  omap (fun c =>
          match c with
          | Element ns name _ _ =>
              if includes GX_NAMESPACE_URIS ns && String.eqb name "coord"
              then Some (coord_of c) else None
          | TextNode _ => None
          end)
       (children_of n).

(** The timestamps of a track, in document order: one for each child
    [when] in a KML namespace, in milliseconds, 0 when its text is no date. *)
Definition track_whens (Date_parse : string -> option Z) (n : node) : list jsval :=
  omap (fun c =>
          match c with
          | Element ns name _ _ =>
              if includes NAMESPACE_URIS ns && String.eqb name "when"
              then Some (when_or_zero (Date_parse (getAllTextContent c))) else None
          | TextNode _ => None
          end)
       (children_of n).

(** ** Sample documents and configurations *)

Module Sample.

(** Stand-ins for the readers of other modules and for the host. *)
Definition no_boolean (n : node) : option bool := None.
Definition no_decimal (n : node) : option dec := None.
Definition no_date (s : string) : option Z := None.
Definition same_url (s base : string) : outcome string := Ok s.
Definition no_base (n : node) : option string := None.
Definition epoch_2018 (s : string) : option Z :=
  if String.eqb s "2018-01-01T00:00:00Z" then Some 1514764800000
  else if String.eqb s "2018-01-01T00:00:10Z" then Some 1514764810000
  else None.
Definition default_style (n : node) : outcome (option (list Style)) :=
  Ok (Some DEFAULT_STYLE_ARRAY).

Definition KML_NS : option string := Some "http://www.opengis.net/kml/2.2"%string.
Definition GX_NS : option string := Some "http://www.google.com/kml/ext/2.2"%string.
Definition ATOM_NS : option string := Some "http://www.w3.org/2005/Atom"%string.

(** An element with one text node below it. *)
Definition leaf (ns : option string) (name content : string) : node :=
  Element ns name [] [TextNode content].

Definition format : KML := new_KML (Build_Options None None None None).

(** A placemark in a namespace that is not a KML one. *)
Definition foreign_placemark : node :=
  Element ATOM_NS "Placemark" [] [leaf None "name" "Depot"].

(** A track with one position and two timestamps, and one with two
    positions and one timestamp. *)
Definition track_1_coord_2_whens : node :=
  Element GX_NS "Track" []
    [leaf KML_NS "when" "2018-01-01T00:00:00Z";
     leaf GX_NS "coord" "1 2 3";
     leaf KML_NS "when" "2018-01-01T00:00:10Z"].

Definition track_2_coords_1_when : node :=
  Element GX_NS "Track" []
    [leaf KML_NS "when" "2018-01-01T00:00:00Z";
     leaf GX_NS "coord" "1 2 3";
     leaf GX_NS "coord" "4 5 6"].

Definition one : jsval := Num (of_Z 1).
Definition two : jsval := Num (of_Z 2).
Definition three : jsval := Num (of_Z 3).
Definition four : jsval := Num (of_Z 4).
Definition five : jsval := Num (of_Z 5).
Definition six : jsval := Num (of_Z 6).
Definition zero : jsval := Num (of_Z 0).

(** Points as [readPoint] builds them. *)
Definition point (x y : Z) (props : properties) : geometry :=
  Point XYZ [Num (of_Z x); Num (of_Z y); zero] props.

Definition three_points : list geometry :=
  [point 1 2 ∅; point 3 4 ∅; point 5 6 ∅].

Definition point_and_line : list geometry :=
  [point 1 2 ∅; LineString XYZ [one; two; zero; three; four; zero] ∅].

(** Two points, the first read from a [Point] element with an empty
    [altitudeMode] child. *)
Definition points_with_empty_altitudeMode : list geometry :=
  [point 1 2 {[ "altitudeMode"%string := PString EmptyString ]}; point 3 4 ∅].

(** A point placemark named Depot, as [readPlacemark_] returns it. *)
Definition depot : Feature :=
  {| getId := None;
     getGeometry := Some (point 1 2 ∅);
     getProperties_ := {[ "name"%string := VString "Depot" ]};
     getStyle := None |}.

(** A style that draws a red line only. *)
Definition red_line : Style :=
  {| getFill := None; getImage := None;
     getStroke := Some {| stroke_color := [of_Z 255; of_Z 0; of_Z 0; of_Z 1];
                          stroke_width := Some (of_Z 2) |};
     getText := None; getZIndex := None |}.

(** A registry with the shared style [#pin] and the style map [#map]
    pointing to it. *)
Definition pin_registry : registry :=
  {[ "#pin"%string := StyleArray [red_line]; "#map"%string := StyleUrl "#pin" ]}.

(** A placemark with a description, a point, and extended data with an
    entry named description, between two other entries. *)
Definition description_entry : node :=
  Element KML_NS "Data" [("name", "description")]%string
    [leaf KML_NS "displayName" "About"; leaf KML_NS "value" "from the entry"].

Definition entries_before : list node :=
  [Element KML_NS "Data" [("name", "owner")]%string [leaf KML_NS "value" "ACME"]].

Definition entries_after : list node :=
  [Element KML_NS "Data" [("name", "since")]%string [leaf KML_NS "value" "2018"]].

Definition children_before : list node :=
  [leaf KML_NS "name" "Depot"; leaf KML_NS "description" "from the field"].

Definition children_after : list node :=
  [Element KML_NS "Point" [] [leaf KML_NS "coordinates" "1,2"]].

Definition placemark_with_entry : node :=
  Element KML_NS "Placemark" []
    (children_before
       ++ Element KML_NS "ExtendedData" []
            (entries_before ++ description_entry :: entries_after)
       :: children_after).

(** The same placemark with the description after the extended data. *)
Definition placemark_with_late_description : node :=
  Element KML_NS "Placemark" []
    [leaf KML_NS "name" "Depot";
     Element KML_NS "ExtendedData" [] [description_entry];
     leaf KML_NS "description" "from the field"].

(** Coordinates with irregular white space, and coordinates followed by
    text that is no tuple. *)
Definition two_tuples : text := of_string "1.0,  2.0 , 3.0  4,5,6".
Definition tuple_and_garbage : text := of_string "1,2 north".

(** Colors handed to the writer: half-transparent, almost opaque, with a
    red channel above 255, and with an opacity of one billionth. *)
Definition half_transparent : list dec := [of_Z 16; of_Z 0; of_Z 255; Dec 5 (-1)].
Definition almost_opaque : list dec := [of_Z 0; of_Z 0; of_Z 0; Dec 999 (-3)].
Definition too_red : list dec := [of_Z 300; of_Z 0; of_Z 0; of_Z 1].
Definition faint : list dec := [of_Z 0; of_Z 0; of_Z 0; Dec 1 (-9)].

End Sample.

(** ** Decimal literals *)

Definition all_digit (w : text) : Prop := Forall (fun a => is_digit a = true) w.

(** The value of a digit character. *)
Definition dval (a : ascii) : Z := Z.of_N (code a) - 48.

(** An optional sign, and the factor it stands for. *)
Definition sign_text (sg : text) : Prop :=
  sg = [] \/ sg = ["-"%char] \/ sg = ["+"%char].

Definition sgn (sg : text) : Z :=
  match sg with
  | a :: _ => if is_char "-" a then -1 else 1
  | [] => 1
  end.

(** A slot that holds the number of a literal.  The decimal is kept as it
    is written; the code rounds it to the format of numbers, to an infinity
    beyond its range. *)
Definition a_number (v : jsval) : Prop := exists x, v = Num x.

(** The decimal literals that have a digit before the point, a digit after
    it when there is one, and a digit in the exponent when there is one. *)
Definition literal (N : text) : Prop :=
  exists sg w1 fr w2 ex esg w3 e,
    N = sg ++ w1 ++ fr ++ ex
    /\ sign_text sg /\ all_digit w1 /\ w1 <> [] /\ all_digit w2 /\ all_digit w3
    /\ sign_text esg
    /\ (fr = [] /\ w2 = [] \/ fr = "."%char :: w2 /\ w2 <> [])
    /\ (ex = [] /\ esg = [] /\ w3 = []
        \/ ex = e :: esg ++ w3 /\ is_e e = true /\ w3 <> []).

(** A text that is empty or starts with a character that cannot go on a
    decimal literal. *)
Definition sep_head (s : text) : Prop :=
  match s with
  | a :: _ => is_digit a = false /\ is_char "." a = false /\ is_e a = false
  | [] => True
  end.

Definition head_not (p : ascii -> bool) (s : text) : Prop :=
  match s with
  | a :: _ => p a = false
  | [] => True
  end.

(** What follows a tuple in a text of tuples: nothing, or one space and
    another tuple. *)
Definition tuple_end (rest : text) : Prop :=
  rest = [] \/ exists r, rest = " "%char :: r /\ head_not is_space r.

(** ** Writing coordinates *)

(** [String(v)] of a slot of an array of numbers, as [text += v] appends
    it. *)
Definition jsval_to_string (v : jsval) : text :=
  match v with
  | Undefined => of_string "undefined"
  | NaN => of_string "NaN"
  | Num x => to_string x
  end.

(** [coordinates[i]], followed by [',' + coordinates[i + d]] for [d] from
    1 below [dimension]. *)
Definition tuple_text (dimension i : nat) (coordinates : list jsval) : text :=
  jsval_to_string (array_get i coordinates)
    ++ concat (map (fun d => ","%char :: jsval_to_string (array_get (i + d) coordinates))
                   (seq 1 (dimension - 1))).

(** The second loop of [writeCoordinatesTextNode],
    [for (let i = stride; i < ii; i += stride)]; [None] when the fuel runs
    out. *)
Fixpoint writeTuples (fuel dimension stride i : nat) (coordinates : list jsval)
    (acc : text) : option text :=
  match fuel with
  | O => None
  | S fuel' =>
      if (i <? length coordinates)%nat then
        writeTuples fuel' dimension stride (i + stride) coordinates
          (acc ++ " "%char :: tuple_text dimension i coordinates)
      else Some acc
  end.

(** [writeCoordinatesTextNode]: the text handed to [writeStringTextNode],
    for the layout and the stride of the context; a layout that is none of
    the four (here [None]) fails assertion 34.  With a stride of 0 the loop
    does not end: the result is [None] then, and only then, the length of
    the array being fuel enough for any other stride. *)
Definition writeCoordinatesTextNode (layout : option GeometryLayout) (stride : nat)
    (coordinates : list jsval) : outcome (option text) :=
  match layout with
  | None => Throw (AssertionError 34)
  | Some layout =>
      let dimension :=
        match layout with
        | XY | XYM => 2%nat
        | XYZ | XYZM => 3%nat
        end in
      let ii := length coordinates in
      Ok (if (0 <? ii)%nat then
            writeTuples (S ii) dimension stride stride coordinates
              (tuple_text dimension 0 coordinates)
          else Some [])
  end.

(** The flat coordinates of vertices with three coordinates, and of
    vertices with two. *)
Definition vertices3 (vs : list (dec * dec * dec)) : list jsval :=
  concat (map (fun '(x, y, z) => [Num x; Num y; Num z]) vs).

Definition vertices2 (vs : list (dec * dec)) : list jsval :=
  concat (map (fun '(x, y) => [Num x; Num y]) vs).

(** A slot that holds a number of the value of [w]. *)
Definition same_number (v w : jsval) : Prop :=
  match v, w with
  | Num y, Num x => (to_Q y == to_Q x)%Q
  | _, _ => False
  end.

(** The text of a vertex, and of the vertices after the first. *)
Definition vertex_text (t : dec * dec * dec) : text :=
  let '(x, y, z) := t in
  to_string x ++ ","%char :: to_string y ++ ","%char :: to_string z.

Definition more_vertices_text (ts : list (dec * dec * dec)) : text :=
  concat (map (fun t => " "%char :: vertex_text t) ts).

Definition normalize3 (t : dec * dec * dec) : dec * dec * dec :=
  let '(x, y, z) := t in (normalize x, normalize y, normalize z).

(** The number of coordinates written for a vertex. *)
Definition dimension_of (layout : GeometryLayout) : nat :=
  match layout with
  | XY | XYM => 2
  | XYZ | XYZM => 3
  end.

(** [parts.join(sep)] *)
Definition joined (sep : ascii) (parts : list text) : text :=
  match parts with
  | [] => []
  | p :: ps => p ++ concat (map (fun q => sep :: q) ps)
  end.

(** The text of a vertex of two coordinates, and of the vertices after the
    first. *)
Definition vertex2_text (t : dec * dec) : text :=
  let '(x, y) := t in to_string x ++ ","%char :: to_string y.

Definition more_vertices2_text (ts : list (dec * dec)) : text :=
  concat (map (fun t => " "%char :: vertex2_text t) ts).

(** The vertices of two coordinates as they are read: in normal form, with
    0 as the third coordinate. *)
Definition read_vertices2 (vs : list (dec * dec)) : list jsval :=
  concat (map (fun '(x, y) => [Num (normalize x); Num (normalize y); Num (of_Z 0)]) vs).

(** The slots of vertices of two coordinates against the slots read: a 0
    after every two numbers. *)
Inductive same_xy : list jsval -> list jsval -> Prop :=
| same_xy_nil : same_xy [] []
| same_xy_cons x y x' y' l l' :
    same_number x' x -> same_number y' y -> same_xy l l' ->
    same_xy (x :: y :: l) (x' :: y' :: Num (of_Z 0) :: l').

(** ** Tracks *)

(** The vertices an array gets from timestamps written after its end: no
    coordinates, and the timestamp in the fourth slot. *)
Definition hole_vertices (ws : list jsval) : list jsval :=
  concat (map (fun w => [Undefined; Undefined; Undefined; w]) ws).

(** The child elements [Track] of the extension namespace. *)
Definition is_track (c : node) : bool :=
  match c with
  | Element ns name _ _ => includes GX_NAMESPACE_URIS ns && String.eqb name "Track"
  | TextNode _ => false
  end.

(** ** Children of an element *)

(** The child elements with the local name [name] in a KML namespace. *)
Definition is_kml_child (name : string) (c : node) : bool :=
  match c with
  | Element ns name' _ _ => includes NAMESPACE_URIS ns && String.eqb name' name
  | TextNode _ => false
  end.

(** The last of them. *)
Definition last_child (name : string) (n : node) : option node :=
  last (filter (fun c => is_kml_child name c = true) (children_of n)).

(** ** Rings of a polygon *)

(** The flat coordinates of an element with [coordinates] children: what
    the last of them that reads as a text of tuples reads as. *)
Definition ring_coordinates (r : node) : option (list jsval) :=
  last (omap (fun c => if is_kml_child "coordinates" c
                       then readFlatCoordinates (text_of c) else None)
             (children_of r)).

(** The ring of a boundary element: that of its last [LinearRing] child. *)
Definition boundary_ring (b : node) : option (list jsval) :=
  match last_child "LinearRing" b with
  | Some r => ring_coordinates r
  | None => None
  end.

(** The rings of the [innerBoundaryIs] children of a polygon element that
    have one, in document order, and the ring of the last
    [outerBoundaryIs] child that has one. *)
Definition inner_rings (n : node) : list (list jsval) :=
  omap (fun c => if is_kml_child "innerBoundaryIs" c then boundary_ring c else None)
       (children_of n).

Definition outer_ring (n : node) : option (list jsval) :=
  last (omap (fun c => if is_kml_child "outerBoundaryIs" c then boundary_ring c else None)
             (children_of n)).

(** The ends of rings laid one after the other from the position [start]. *)
Fixpoint ring_ends (start : nat) (rings : list (list jsval)) : list nat :=
  match rings with
  | [] => []
  | r :: rings' => (start + length r)%nat :: ring_ends (start + length r) rings'
  end.

(** Coordinates with three numbers for each vertex: no slot is empty and
    none is NaN. *)
Definition whole_vertices (f : list jsval) : Prop :=
  (exists k, length f = (3 * k)%nat)
  /\ Forall (fun v => v <> NaN /\ v <> Undefined) f.

(** Ends that do not decrease. *)
Fixpoint nondecreasing (l : list nat) : Prop :=
  match l with
  | a :: l' =>
      match l' with
      | b :: _ => (a <= b)%nat /\ nondecreasing l'
      | [] => True
      end
  | [] => True
  end.

(** ** More sample documents *)

Module Sample2.

(** A polygon element with an outer boundary of two vertices. *)
Definition square : node :=
  Element Sample.KML_NS "Polygon" []
    [Element Sample.KML_NS "outerBoundaryIs" []
       [Element Sample.KML_NS "LinearRing" []
          [Sample.leaf Sample.KML_NS "coordinates" "0,0 9,9"]]].

End Sample2.

(** ** Style maps *)

(** The [Pair] children of a style map whose key is [normal], the key of a
    pair being the text of its last [key] child; and the last of them. *)
Definition is_normal_pair (c : node) : bool :=
  is_kml_child "Pair" c
  && bool_decide (last_child_text "key" c = Some "normal"%string).

Definition normal_pair (n : node) : option node :=
  last (filter (fun c => is_normal_pair c = true) (children_of n)).

Module Sample3.

Import Sample.

(** A style map with a pair for the normal and one for the highlighted
    state, and one with the latter only. *)
Definition normal_pin : node :=
  Element KML_NS "Pair" [] [leaf KML_NS "key" "normal"; leaf KML_NS "styleUrl" "#pin"].

Definition highlight_pin : node :=
  Element KML_NS "Pair" []
    [leaf KML_NS "key" "highlight"; leaf KML_NS "styleUrl" "#bright"].

Definition pin_map : node :=
  Element KML_NS "StyleMap" [("id", "map")]%string [normal_pin; highlight_pin].

Definition highlight_map : node :=
  Element KML_NS "StyleMap" [("id", "map")]%string [highlight_pin].

End Sample3.

(** ** Placemarks of a document *)

(** The [Placemark] elements [readDocumentOrFolder_] reads below a
    document or folder, in the order it reads them: those among the
    children and, in their place, those of the documents and folders among
    the children. *)
Fixpoint folder_placemarks (n : node) : list node :=
  match n with
  | TextNode _ => []
  | Element _ _ _ childNodes =>
      flat_map
        (fun c =>
           match c with
           | Element ns name _ _ =>
               if includes NAMESPACE_URIS ns then
                 if String.eqb name "Document" || String.eqb name "Folder"
                 then folder_placemarks c
                 else if String.eqb name "Placemark" then [c] else []
               else []
           | TextNode _ => []
           end)
        childNodes
  end.

(** The [Placemark] elements [readFeaturesFromNode] reads from a node. *)
Fixpoint placemarks (n : node) : list node :=
  match n with
  | TextNode _ => []
  | Element namespaceURI localName _ childNodes =>
      if negb (includes NAMESPACE_URIS namespaceURI) then []
      else if String.eqb localName "Document" || String.eqb localName "Folder"
      then folder_placemarks n
      else if String.eqb localName "Placemark" then [n]
      else if String.eqb localName "kml" then flat_map placemarks childNodes
      else []
  end.

(** A format object after reading: its options are as before, and its
    registry has an entry for every key it had one for. *)
Definition grown (this this' : KML) : Prop :=
  defaultStyle_ this' = defaultStyle_ this
  /\ extractStyles_ this' = extractStyles_ this
  /\ writeStyles_ this' = writeStyles_ this
  /\ showPointNames_ this' = showPointNames_ this
  /\ forall k, is_Some (sharedStyles_ this !! k) -> is_Some (sharedStyles_ this' !! k).

Module Sample4.

Import Sample.

(** A document with a shared style, a placemark, and a folder with a
    second placemark and a style of its own. *)
Definition depot_placemark : node :=
  Element KML_NS "Placemark" [("id", "depot")]%string
    [leaf KML_NS "name" "Depot"; leaf KML_NS "styleUrl" "#pin";
     Element KML_NS "Point" [] [leaf KML_NS "coordinates" "1,2"]].

Definition yard_placemark : node :=
  Element KML_NS "Placemark" [("id", "yard")]%string
    [leaf KML_NS "name" "Yard";
     Element KML_NS "Point" [] [leaf KML_NS "coordinates" "3,4"]].

Definition document : node :=
  Element KML_NS "kml" []
    [Element KML_NS "Document" []
       [Element KML_NS "Style" [("id", "pin")]%string [];
        depot_placemark;
        Element KML_NS "Folder" []
          [Element KML_NS "Style" [("id", "flag")]%string []; yard_placemark]]].

End Sample4.

(** ** The name of a document *)

(** The child elements in a KML namespace whose local name is one of
    [names]. *)
Definition is_kml_element (names : list string) (c : node) : bool :=
  match c with
  | Element ns localName _ _ =>
      includes NAMESPACE_URIS ns && existsb (String.eqb localName) names
  | TextNode _ => false
  end.

(** [KML.prototype.readNameFromNode]; [None] is [undefined].  A name that
    is the empty string is false for the caller. *)
Fixpoint readNameFromNode (n : node) : option string :=
  match n with
  | TextNode _ => None
  | Element _ _ _ childNodes =>
      match List.find (is_kml_child "name") childNodes with
      | Some c => Some (readString c)
      | None =>
          (fix nested (cs : list node) : option string :=
             match cs with
             | [] => None
             | c :: cs' =>
                 if is_kml_element ["Document"; "Folder"; "Placemark"; "kml"]%string c
                 then
                   match readNameFromNode c with
                   | Some (String _ _ as name) => Some name
                   | _ => nested cs'
                   end
                 else nested cs'
             end) childNodes
      end
  end.

(** [d] is [n] or lies below it, with documents, folders, placemarks and
    [kml] elements of a KML namespace all the way down from [n]. *)
Inductive below (n : node) : node -> Prop :=
| below_here : below n n
| below_child (c d : node) :
    c ∈ children_of n ->
    is_kml_element ["Document"; "Folder"; "Placemark"; "kml"]%string c = true ->
    below c d -> below n d.

(** ** Regions *)

Section RegionReaders.

Context (readDecimal : node -> option dec).

(** [KML.prototype.readRegionFromNode] *)
Fixpoint readRegionFromNode (n : node) : outcome (list (gmap string value)) :=
  match n with
  | TextNode _ => Ok []
  | Element _ _ _ childNodes =>
      regions ←
        fold_left
          (fun acc c =>
             regions ← acc;
             if is_kml_child "Region" c then
               obj ← pushParseAndPop ∅ (REGION_PARSERS readDecimal) c;
               Ok (regions ++ [obj])
             else Ok regions)
          childNodes (Ok []);
      fold_left
        (fun acc c =>
           regions ← acc;
           if is_kml_element ["Document"; "Folder"; "kml"]%string c then
             nested ← readRegionFromNode c;
             Ok (regions ++ nested)
           else Ok regions)
        childNodes (Ok regions)
  end.

(** The number a box gives for one of its sides: what the last child of
    that name that reads as a decimal reads as, [NaN] when there is none. *)
Definition side (name : string) (b : node) : jsval :=
  match last (omap (fun c => if is_kml_child name c then readDecimal c else None)
                (children_of b)) with
  | Some x => Num x
  | None => NaN
  end.

End RegionReaders.

(** The [Region] elements [readRegionFromNode] reads, in the order it
    reads them: those among the children, and after them those of the
    documents, folders and [kml] elements among the children. *)
Fixpoint region_nodes (n : node) : list node :=
  match n with
  | TextNode _ => []
  | Element _ _ _ childNodes =>
      filter (fun c => is_kml_child "Region" c = true) childNodes
        ++ flat_map
             (fun c =>
                if is_kml_element ["Document"; "Folder"; "kml"]%string c
                then region_nodes c else [])
             childNodes
  end.

Module Sample5.

Import Sample.

(** A stand-in for [readDecimal]: the number the text starts with. *)
Definition decimal (n : node) : option dec :=
  match parseFloat (text_of n) with
  | Num x => Some x
  | _ => None
  end.

(** A document whose folder stands before its own region. *)
Definition box (west : string) : node :=
  Element KML_NS "Region" []
    [Element KML_NS "LatLonAltBox" [] [leaf KML_NS "west" west]].

Definition regions_document : node :=
  Element KML_NS "kml" []
    [Element KML_NS "Folder" [] [box "1"]; box "2"].

(** A document with an empty name, and a folder with a name. *)
Definition unnamed_document : node :=
  Element KML_NS "Document" []
    [leaf KML_NS "name" EmptyString;
     Element KML_NS "Folder" [] [leaf KML_NS "name" "Depots"]].

Definition named_folder : node :=
  Element KML_NS "kml" []
    [Element KML_NS "Document" []
       [Element KML_NS "Folder" [] [leaf KML_NS "name" "Depots"]]].

End Sample5.
(** * Properties *)

(** ** Nodes outside the KML namespaces *)

Section ForeignNodes.

Context (readBoolean : node -> option bool)
        (readDecimal : node -> option dec)
        (Date_parse : string -> option Z)
        (URL_href : string -> string -> outcome string)
        (baseURI : node -> option string)
        (location_href : string)
        (transformWithOptions : geometry -> geometry)
        (readStyle : node -> outcome (option (list Style))).

Local Abbreviation readFeatures :=
  (readFeaturesFromNode readBoolean readDecimal Date_parse URL_href baseURI
     location_href transformWithOptions readStyle).
Local Abbreviation readFeature :=
  (readFeatureFromNode readBoolean readDecimal Date_parse URL_href baseURI
     location_href transformWithOptions readStyle).

(** C10: for a node whose namespace URI is not one of [NAMESPACE_URIS],
    [readFeaturesFromNode] returns the empty array and
    [readFeatureFromNode] returns [null]; neither throws, and the format
    object, the registry of shared styles included, is the one before the
    call. *)
Theorem foreign_node_reads_nothing (this : KML) (n : node) :
  includes NAMESPACE_URIS (namespaceURI_of n) = false ->
  readFeatures this n = Ok ([], this) /\ readFeature this n = Ok (None, this).
Proof.
  intros Hns. split.
  - destruct n as [v | ns name attrs cs]; [reflexivity |].
    simpl in Hns. simpl. rewrite Hns. reflexivity.
  - unfold readFeatureFromNode. rewrite Hns. reflexivity.
Qed.

End ForeignNodes.

Lemma foreign_node_reads_nothing_witness :
  includes NAMESPACE_URIS (namespaceURI_of Sample.foreign_placemark) = false /\
  readFeaturesFromNode Sample.no_boolean Sample.no_decimal Sample.no_date
    Sample.same_url Sample.no_base EmptyString id Sample.default_style
    Sample.format Sample.foreign_placemark = Ok ([], Sample.format) /\
  readFeatureFromNode Sample.no_boolean Sample.no_decimal Sample.no_date
    Sample.same_url Sample.no_base EmptyString id Sample.default_style
    Sample.format Sample.foreign_placemark = Ok (None, Sample.format).
Proof.
  split; [reflexivity |].
  apply (foreign_node_reads_nothing Sample.no_boolean Sample.no_decimal
           Sample.no_date Sample.same_url Sample.no_base EmptyString id
           Sample.default_style Sample.format Sample.foreign_placemark).
  reflexivity.
Defined.

(** ** Tracks with more timestamps than positions *)

Section Tracks.

Context (Date_parse : string -> option Z).

(** With one position and two timestamps the bound of the loop of
    [readGxTrack] is the minimum of the flat length 4 and of 2, so the
    second timestamp is written at index 7, after the end of the array: the
    line string has two vertices, the second one with holes for
    coordinates. *)
Example readGxTrack_extra_timestamp :
  let t0 := when_or_zero (Date_parse "2018-01-01T00:00:00Z") in
  let t1 := when_or_zero (Date_parse "2018-01-01T00:00:10Z") in
  readGxTrack Date_parse Sample.track_1_coord_2_whens =
    Ok (Some (LineString XYZM
                [Sample.one; Sample.two; Sample.three; t0;
                 Undefined; Undefined; Undefined; t1] ∅)).
Proof. reflexivity. Qed.

End Tracks.

(** ** Multi-geometries *)

Lemma fold_left_extend {A B} (f : B -> list A) (l : list B) (init : list A) :
  fold_left (fun acc g => acc ++ f g) l init = init ++ concat (map f l).
Proof.
  revert init. induction l as [| g l IH]; intros init; simpl.
  - by rewrite app_nil_r.
  - by rewrite IH, app_assoc.
Qed.

Lemma forallb_same_type (t : GeometryType) (l : list geometry) :
  forallb (fun g => bool_decide (getType g = t)) l = true <->
  Forall (fun g => getType g = t) l.
Proof.
  rewrite forallb_forall, Forall_forall. split; intros H g Hg.
  - apply list_elem_of_In in Hg. apply H in Hg. by apply bool_decide_eq_true in Hg.
  - apply bool_decide_eq_true. apply H. by apply list_elem_of_In.
Qed.

Lemma existsb_defined (l : list (option gprop)) :
  existsb (fun v => bool_decide (v ≠ None)) l = true <-> exists v, v ∈ l /\ is_Some v.
Proof.
  rewrite existsb_exists. split.
  - intros (v & Hin & Hv). exists v. split; [by apply list_elem_of_In |].
    apply bool_decide_eq_true in Hv. destruct v; [eauto | done].
  - intros (v & Hin & Hv). exists v. split; [by apply list_elem_of_In |].
    apply bool_decide_eq_true. destruct Hv; congruence.
Qed.

Lemma existsb_truthy (l : list (option gprop)) :
  existsb truthy l = true <-> exists v, v ∈ l /\ truthy v = true.
Proof.
  rewrite existsb_exists. split; intros (v & Hin & Hv); exists v;
    (split; [by apply list_elem_of_In | done]).
Qed.

Lemma get_set (k k' : string) (v : gprop) (g : geometry) :
  is_multi g -> get (set k v g) k' = if decide (k = k') then Some v else get g k'.
Proof.
  intros Hm. destruct g; try done; unfold get; simpl;
    (destruct (decide (k = k')) as [-> | Hne];
     [by rewrite lookup_insert_eq | by rewrite lookup_insert_ne]).
Qed.

Lemma is_multi_set (k : string) (v : gprop) (g : geometry) :
  is_multi g -> is_multi (set k v g).
Proof. by destruct g. Qed.

Lemma getType_set (k : string) (v : gprop) (g : geometry) :
  getType (set k v g) = getType g.
Proof. by destruct g. Qed.

Lemma setCommonGeometryProperties_arrays (mg : geometry) (gs : list geometry) :
  is_multi mg -> getProperties mg = ∅ ->
  let mg' := setCommonGeometryProperties mg gs in
  getType mg' = getType mg /\
  member_array is_Some "extrude" mg' gs /\
  member_array is_Some "tessellate" mg' gs /\
  member_array (fun v => truthy v = true) "altitudeMode" mg' gs.
Proof.
  intros Hm Hempty mg'. subst mg'. unfold setCommonGeometryProperties.
  set (ex := existsb _ (map (fun g => get g "extrude") gs)).
  set (te := existsb _ (map (fun g => get g "tessellate") gs)).
  set (al := existsb truthy (map (fun g => get g "altitudeMode") gs)).
  assert (Hget : forall k, get mg k = None).
  { intros k. unfold get. by rewrite Hempty, lookup_empty. }
  assert (Hex : ex = true <-> exists g, g ∈ gs /\ is_Some (get g "extrude")).
  { unfold ex. rewrite existsb_defined. split.
    - intros (v & Hin & Hv). apply list_elem_of_fmap in Hin as (g & -> & Hg). eauto.
    - intros (g & Hg & Hv). exists (get g "extrude"). split; [| done].
      apply list_elem_of_fmap. eauto. }
  assert (Hte : te = true <-> exists g, g ∈ gs /\ is_Some (get g "tessellate")).
  { unfold te. rewrite existsb_defined. split.
    - intros (v & Hin & Hv). apply list_elem_of_fmap in Hin as (g & -> & Hg). eauto.
    - intros (g & Hg & Hv). exists (get g "tessellate"). split; [| done].
      apply list_elem_of_fmap. eauto. }
  assert (Hal : al = true <-> exists g, g ∈ gs /\ truthy (get g "altitudeMode") = true).
  { unfold al. rewrite existsb_truthy. split.
    - intros (v & Hin & Hv). apply list_elem_of_fmap in Hin as (g & -> & Hg). eauto.
    - intros (g & Hg & Hv). exists (get g "altitudeMode"). split; [| done].
      apply list_elem_of_fmap. eauto. }
  clearbody ex te al.
  assert (Hres : forall k,
    get (if al then set "altitudeMode" (PArray (map (fun g => get g "altitudeMode") gs))
                  (if te then set "tessellate" (PArray (map (fun g => get g "tessellate") gs))
                            (if ex then set "extrude" (PArray (map (fun g => get g "extrude") gs)) mg
                             else mg)
                   else (if ex then set "extrude" (PArray (map (fun g => get g "extrude") gs)) mg
                         else mg))
         else (if te then set "tessellate" (PArray (map (fun g => get g "tessellate") gs))
                            (if ex then set "extrude" (PArray (map (fun g => get g "extrude") gs)) mg
                             else mg)
               else (if ex then set "extrude" (PArray (map (fun g => get g "extrude") gs)) mg
                     else mg))) k =
    if al && bool_decide (k = "altitudeMode"%string)
    then Some (PArray (map (fun g => get g "altitudeMode") gs))
    else if te && bool_decide (k = "tessellate"%string)
    then Some (PArray (map (fun g => get g "tessellate") gs))
    else if ex && bool_decide (k = "extrude"%string)
    then Some (PArray (map (fun g => get g "extrude") gs))
    else None).
  { intros k. destruct al, te, ex; simpl;
      repeat (rewrite get_set by (repeat apply is_multi_set; done));
      rewrite ?Hget; repeat case_decide; repeat case_bool_decide; congruence. }
  split; [| split; [| split]].
  - destruct al, te, ex; by rewrite ?getType_set.
  - unfold member_array. rewrite Hres, <- Hex.
    repeat case_bool_decide; try discriminate; try (exfalso; congruence).
    rewrite ?andb_false_r, ?andb_true_r.
    destruct ex; split; try split; try done; try (intros [? ?]; done).
  - unfold member_array. rewrite Hres, <- Hte.
    repeat case_bool_decide; try discriminate; try (exfalso; congruence).
    rewrite ?andb_false_r, ?andb_true_r.
    destruct te; split; try split; try done; try (intros [? ?]; done).
  - unfold member_array. rewrite Hres, <- Hal.
    repeat case_bool_decide; try discriminate; try (exfalso; congruence).
    rewrite ?andb_false_r, ?andb_true_r.
    destruct al; split; try split; try done; try (intros [? ?]; done).
Qed.

Lemma multiGeometryOf_mixed (gs : list geometry) :
  (exists g g', g ∈ gs /\ g' ∈ gs /\ getType g <> getType g') ->
  multiGeometryOf gs = Ok (GeometryCollection gs).
Proof.
  intros (g & g' & Hg & Hg' & Hne).
  destruct gs as [| first others]; [by apply not_elem_of_nil in Hg |].
  unfold multiGeometryOf.
  destruct (forallb _ others) eqn:Hall; [| reflexivity].
  exfalso. apply forallb_same_type in Hall.
  assert (Hsame : forall x, x ∈ first :: others -> getType x = getType first).
  { intros x Hx. apply elem_of_cons in Hx as [-> | Hx]; [done |].
    rewrite Forall_forall in Hall. by apply Hall. }
  apply Hne. by rewrite (Hsame g), (Hsame g').
Qed.

Lemma multiGeometryOf_same_type (t : GeometryType) (gs : list geometry) :
  t ∈ [POINT; LINE_STRING; POLYGON] -> gs <> [] ->
  Forall (fun g => getType g = t) gs ->
  exists mg, multiGeometryOf gs = Ok mg /\ getType mg = multi_type t /\
    getFlatCoordinates mg =
      (if decide (t = POINT) then concat (map getFlatCoordinates gs) else []) /\
    getLayout mg =
      (if decide (t = POINT) then from_option getLayout XY (head gs) else XY) /\
    member_array is_Some "extrude" mg gs /\
    member_array is_Some "tessellate" mg gs /\
    member_array (fun v => truthy v = true) "altitudeMode" mg gs.
Proof.
  intros Ht Hne Hall. destruct gs as [| first others]; [done |].
  pose proof Hall as Hall'. apply Forall_cons in Hall' as [Hfirst Hothers].
  unfold multiGeometryOf. rewrite Hfirst.
  apply forallb_same_type in Hothers. rewrite Hothers.
  assert (Hcases : t = POINT \/ t = LINE_STRING \/ t = POLYGON).
  { repeat (apply elem_of_cons in Ht as [-> | Ht]; [by auto |]).
    by apply not_elem_of_nil in Ht. }
  destruct Hcases as [-> | [-> | ->]]; simpl.
  - set (mg := MultiPoint _ _ _).
    destruct (setCommonGeometryProperties_arrays mg (first :: others))
      as (Hty & He & Hte & Ha); [done | done |].
    eexists. split; [reflexivity |]. split; [by rewrite Hty |].
    split; [| split; [| by auto]].
    + unfold setCommonGeometryProperties.
      repeat match goal with |- context [if ?b then _ else _] => destruct b end;
        simpl; by rewrite fold_left_extend.
    + unfold setCommonGeometryProperties.
      by repeat match goal with |- context [if ?b then _ else _] => destruct b end.
  - set (mg := MultiLineString _ _).
    destruct (setCommonGeometryProperties_arrays mg (first :: others))
      as (Hty & He & Hte & Ha); [done | done |].
    eexists. split; [reflexivity |]. split; [by rewrite Hty |].
    split; [| split; [| by auto]]; unfold setCommonGeometryProperties;
      by repeat match goal with |- context [if ?b then _ else _] => destruct b end.
  - set (mg := MultiPolygon _ _).
    destruct (setCommonGeometryProperties_arrays mg (first :: others))
      as (Hty & He & Hte & Ha); [done | done |].
    eexists. split; [reflexivity |]. split; [by rewrite Hty |].
    split; [| split; [| by auto]]; unfold setCommonGeometryProperties;
      by repeat match goal with |- context [if ?b then _ else _] => destruct b end.
Qed.

(** C1, as amended: an empty list of children gives an empty geometry
    collection; children that are all points give one multi-point with the
    layout of the first and the flat coordinates of all of them in order;
    children of different types give the geometry collection of these
    children in order; and the multi-geometry of points, of line strings or
    of polygons carries the per-member array of [extrude] and of
    [tessellate] exactly when one member has a value for it, and that of
    [altitudeMode] exactly when one member has a non-empty (true) value
    for it. *)
Theorem multiGeometryOf_homogenization (gs : list geometry) :
  (gs = [] -> multiGeometryOf gs = Ok (GeometryCollection []))
  /\ (gs <> [] -> Forall (fun g => getType g = POINT) gs ->
      exists props,
        multiGeometryOf gs =
          Ok (MultiPoint (from_option getLayout XY (head gs))
                         (concat (map getFlatCoordinates gs)) props))
  /\ ((exists g g', g ∈ gs /\ g' ∈ gs /\ getType g <> getType g') ->
      multiGeometryOf gs = Ok (GeometryCollection gs))
  /\ (forall t, t ∈ [POINT; LINE_STRING; POLYGON] -> gs <> [] ->
      Forall (fun g => getType g = t) gs ->
      exists mg, multiGeometryOf gs = Ok mg /\ getType mg = multi_type t /\
        member_array is_Some "extrude" mg gs /\
        member_array is_Some "tessellate" mg gs /\
        member_array (fun v => truthy v = true) "altitudeMode" mg gs).
Proof.
  split; [by intros -> | split; [| split; [apply multiGeometryOf_mixed |]]].
  - intros Hne Hall.
    destruct (multiGeometryOf_same_type POINT gs) as (mg & Hmg & Hty & Hfc & Hl & _);
      [set_solver | done | done |].
    rewrite Hmg. destruct mg; try discriminate. simpl in Hfc, Hl.
    rewrite Hfc, Hl. eauto.
  - intros t Ht Hne Hall.
    destruct (multiGeometryOf_same_type t gs) as (mg & Hmg & Hty & _ & _ & H);
      [done | done | done |]. eauto.
Qed.

Lemma multiGeometryOf_homogenization_witness :
  Sample.three_points <> [] /\
  Forall (fun g => getType g = POINT) Sample.three_points /\
  exists props,
    multiGeometryOf Sample.three_points =
      Ok (MultiPoint XYZ
            [Sample.one; Sample.two; Sample.zero;
             Sample.three; Sample.four; Sample.zero;
             Sample.five; Sample.six; Sample.zero] props).
Proof.
  split; [discriminate |]. split; [repeat constructor |].
  destruct (multiGeometryOf_homogenization Sample.three_points) as (_ & H & _).
  apply H; [discriminate | repeat constructor].
Defined.

(** C1 as stated fails where a member has an empty [altitudeMode]: the
    value is defined, and no array is attached. *)
Lemma multiGeometryOf_empty_altitudeMode :
  (exists g, g ∈ Sample.points_with_empty_altitudeMode /\
             is_Some (get g "altitudeMode")) /\
  exists mg, multiGeometryOf Sample.points_with_empty_altitudeMode = Ok mg /\
             get mg "altitudeMode" = None.
Proof.
  split.
  - eexists. split; [apply list_elem_of_here |]. by eexists.
  - eexists. split; reflexivity.
Qed.

Example three_points_make_a_multi_point :
  multiGeometryOf Sample.three_points =
    Ok (MultiPoint XYZ
          [Sample.one; Sample.two; Sample.zero;
           Sample.three; Sample.four; Sample.zero;
           Sample.five; Sample.six; Sample.zero] ∅).
Proof. reflexivity. Qed.

Example point_and_line_make_a_collection :
  multiGeometryOf Sample.point_and_line = Ok (GeometryCollection Sample.point_and_line).
Proof. reflexivity. Qed.

(** ** Style resolution *)

Lemma has_key_spec (sharedStyles : registry) (k : string) :
  has_key sharedStyles k = true
  <-> is_Some (sharedStyles !! k) \/ k ∈ Object_prototype_names.
Proof.
  unfold has_key. rewrite orb_true_iff, !bool_decide_eq_true. reflexivity.
Qed.

(** No property of [Object.prototype] has a name that starts with [#]. *)
Lemma hash_not_inherited (u : string) :
  String.append "#" u ∉ Object_prototype_names.
Proof.
  change (String.append "#" u) with (String "#" u). unfold Object_prototype_names.
  intros H.
  repeat (apply elem_of_cons in H as [H | H]; [discriminate H |]).
  by apply not_elem_of_nil in H.
Qed.

Lemma findStyle_key (sharedStyles : registry) (u : string) :
  (if negb (has_key sharedStyles u) && has_key sharedStyles (String.append "#" u)
   then String.append "#" u else u) = registry_key sharedStyles u.
Proof.
  unfold registry_key.
  destruct (has_key sharedStyles u) eqn:Hu;
    destruct (has_key sharedStyles (String.append "#" u)) eqn:Hs; simpl;
    case_decide as Hd; try reflexivity; exfalso.
  - destruct Hd as (Hnone & Hown & _).
    apply has_key_spec in Hu as [[? Hu] | Hu]; [congruence | done].
  - destruct Hd as (Hnone & Hown & _).
    apply has_key_spec in Hu as [[? Hu] | Hu]; [congruence | done].
  - apply Hd. split; [| split].
    + destruct (sharedStyles !! u) eqn:E; [| done].
      assert (has_key sharedStyles u = true) by (apply has_key_spec; left; eauto).
      congruence.
    + intros Hin.
      assert (has_key sharedStyles u = true) by (apply has_key_spec; by right).
      congruence.
    + apply has_key_spec in Hs as [Hs | Hs]; [done |].
      by apply hash_not_inherited in Hs.
  - destruct Hd as (_ & _ & Hsome).
    assert (has_key sharedStyles (String.append "#" u) = true)
      by (apply has_key_spec; by left).
    congruence.
Qed.

Lemma findStyle_step (fuel : nat) (v : option styleValue)
    (defaultStyle : list Style) (sharedStyles : registry) :
  findStyle (S fuel) v defaultStyle sharedStyles =
    match v with
    | Some (StyleArray a) => Ok a
    | Some (StyleUrl u) =>
        findStyle fuel (sharedStyles !! registry_key sharedStyles u)
                  defaultStyle sharedStyles
    | None => Ok defaultStyle
    end.
Proof. destruct v as [[a | u] |]; simpl; [done | | done]. by rewrite findStyle_key. Qed.

(** An entry of its own is read as it is. *)
Lemma registry_key_own (sharedStyles : registry) (u : string) :
  is_Some (sharedStyles !! u) -> registry_key sharedStyles u = u.
Proof.
  intros [v Hv]. unfold registry_key. rewrite decide_False; [done |].
  intros (Hnone & _). congruence.
Qed.

(** A result of [findStyle] is a resolution in the sense of the spec... *)
Lemma findStyle_sound (fuel : nat) (v : option styleValue)
    (defaultStyle : list Style) (sharedStyles : registry) (r : list Style) :
  findStyle fuel v defaultStyle sharedStyles = Ok r ->
  resolves sharedStyles defaultStyle v r.
Proof.
  revert v. induction fuel as [| fuel IH]; intros v; [discriminate |].
  rewrite findStyle_step. destruct v as [[a | u] |]; intros H.
  - injection H as ->. constructor.
  - constructor. by apply IH.
  - injection H as <-. constructor.
Qed.

(** ... and every resolution is found with a stack that is deep enough. *)
Lemma findStyle_complete (v : option styleValue)
    (defaultStyle : list Style) (sharedStyles : registry) (r : list Style) :
  resolves sharedStyles defaultStyle v r ->
  exists n, forall fuel, (n <= fuel)%nat ->
    findStyle fuel v defaultStyle sharedStyles = Ok r.
Proof.
  induction 1 as [a | | u r Hres [n IH]].
  - exists 1%nat. intros [| fuel] Hle; [lia | done].
  - exists 1%nat. intros [| fuel] Hle; [lia | done].
  - exists (S n). intros [| fuel] Hle; [lia |].
    rewrite findStyle_step. apply IH. lia.
Qed.





Lemma styleFunction_url (u : string) (defaultStyle : list Style)
    (sharedStyles : registry) (showPointNames : bool) (fuel : nat)
    (feature : Feature) :
  u <> EmptyString ->
  createFeatureStyleFunction None (Some u) defaultStyle sharedStyles
    showPointNames fuel feature =
  foundStyle ← findStyle fuel (Some (StyleUrl u)) defaultStyle sharedStyles;
  if drawName showPointNames feature
  then concatNameStyle foundStyle (feature_name feature)
  else Ok foundStyle.
Proof. intros Hu. unfold createFeatureStyleFunction. by destruct u. Qed.



(** The Depot placemark, a named point, with names shown: the style found
    for the URL [pin] is followed by the name style. *)
Example depot_pin_style :
  createFeatureStyleFunction None (Some "pin"%string) DEFAULT_STYLE_ARRAY
    Sample.pin_registry true 3 Sample.depot
  = Ok [Sample.red_line; createNameStyleFunction Sample.red_line "Depot"].
Proof. reflexivity. Qed.


Example style_map_is_followed :
  createFeatureStyleFunction None (Some "map"%string) DEFAULT_STYLE_ARRAY
    Sample.pin_registry false 3 Sample.depot = Ok [Sample.red_line].
Proof. reflexivity. Qed.

(** The name of a property every object inherits is not retried with a
    leading [#]: the style registered as [#constructor] is not found for
    the URL [constructor], which gives the default style. *)
Example inherited_name_is_not_retried :
  createFeatureStyleFunction None (Some "constructor"%string) DEFAULT_STYLE_ARRAY
    {[ "#constructor"%string := StyleArray [Sample.red_line] ]} false 3 Sample.depot
  = Ok DEFAULT_STYLE_ARRAY.
Proof. reflexivity. Qed.

(** A style map that points to itself never resolves: the recursion ends
    with the stack, however deep. *)
Example cyclic_style_map (fuel : nat) :
  findStyle fuel (Some (StyleUrl "#loop")) DEFAULT_STYLE_ARRAY
    {[ "#loop"%string := StyleUrl "#loop" ]} = Throw RangeError.
Proof.
  induction fuel as [| fuel IH]; [reflexivity |].
  rewrite findStyle_step.
  rewrite registry_key_own by (by rewrite lookup_singleton_eq).
  rewrite lookup_singleton_eq. exact IH.
Qed.

(** ** Names of points *)

Lemma drawName_point (feature : Feature) (g : geometry) (s : string) :
  getGeometry feature = Some g -> getType g = POINT ->
  getProperties_ feature !! "name"%string = Some (VString s) -> s <> EmptyString ->
  drawName true feature = true /\ feature_name feature = s.
Proof.
  intros Hg Ht Hn Hs. unfold drawName, feature_name. rewrite Hg, Hn.
  rewrite bool_decide_eq_true_2 by done. split; [| done].
  apply negb_true_iff. by apply String.eqb_neq.
Qed.

Lemma createNameStyleFunction_text_only (foundStyle : Style) (name : string) :
  exists textStyle,
    createNameStyleFunction foundStyle name =
      {| getFill := None; getImage := None; getStroke := None;
         getText := Some textStyle; getZIndex := None |}
    /\ text_getText textStyle = Some name.
Proof.
  unfold createNameStyleFunction.
  destruct (getImage foundStyle) as [image |];
    [destruct (default DEFAULT_IMAGE_STYLE_SIZE (getImageSize image))
       as [| w [| h [| ? ?]]] |];
    eexists; split; reflexivity.
Qed.

(** The resolution of the style URL of a placemark, by the style
    function. *)
Lemma styleFunction_resolved (styleUrl : option string) (defaultStyle : list Style)
    (sharedStyles : registry) (found : list Style) :
  url_resolves sharedStyles defaultStyle styleUrl found ->
  exists n, forall fuel showPointNames feature, (n <= fuel)%nat ->
    createFeatureStyleFunction None styleUrl defaultStyle sharedStyles
      showPointNames fuel feature =
    if drawName showPointNames feature
    then concatNameStyle found (feature_name feature)
    else Ok found.
Proof.
  intros Hres. destruct styleUrl as [[| c u] |]; simpl in Hres.
  - subst found. by exists 0%nat.
  - destruct (findStyle_complete _ _ _ _ Hres) as [n Hn].
    exists n. intros fuel showPointNames feature Hle.
    rewrite styleFunction_url by done. by rewrite Hn.
  - subst found. by exists 0%nat.
Qed.

(** C8, as amended: for a feature with a point geometry and a non-empty
    name, without inline style, whose style URL resolves through the
    registry to the style array [found] (the default style without style
    URL): with [showPointNames] disabled the style function returns
    [found] as it is; with it enabled, and [found] not empty, it returns
    [found] followed by one more style, which has no image, no stroke and
    no fill, and whose text sub-style has the name of the feature as its
    text. *)
Theorem point_name_style (feature : Feature) (g : geometry) (s : string)
    (styleUrl : option string) (defaultStyle : list Style)
    (sharedStyles : registry) (found : list Style) :
  getGeometry feature = Some g -> getType g = POINT ->
  getProperties_ feature !! "name"%string = Some (VString s) -> s <> EmptyString ->
  url_resolves sharedStyles defaultStyle styleUrl found ->
  exists n, forall fuel, (n <= fuel)%nat ->
    createFeatureStyleFunction None styleUrl defaultStyle sharedStyles false
      fuel feature = Ok found
    /\ (found <> [] ->
        exists nameStyle textStyle,
          createFeatureStyleFunction None styleUrl defaultStyle sharedStyles true
            fuel feature = Ok (found ++ [nameStyle])
          /\ getImage nameStyle = None /\ getStroke nameStyle = None
          /\ getFill nameStyle = None
          /\ getText nameStyle = Some textStyle
          /\ text_getText textStyle = Some s).
Proof.
  intros Hg Ht Hn Hs Hres.
  destruct (styleFunction_resolved _ _ _ _ Hres) as [n Hfound].
  exists n. intros fuel Hle. rewrite !Hfound by done.
  split; [reflexivity |]. intros Hne.
  destruct (drawName_point feature g s Hg Ht Hn Hs) as [-> ->].
  destruct found as [| first others]; [done |].
  simpl. destruct (createNameStyleFunction_text_only first s) as (t & -> & Ht').
  eexists _, _. repeat split. exact Ht'.
Qed.

Lemma point_name_style_witness :
  getGeometry Sample.depot = Some (Sample.point 1 2 ∅) /\
  getType (Sample.point 1 2 ∅) = POINT /\
  getProperties_ Sample.depot !! "name"%string = Some (VString "Depot") /\
  "Depot"%string <> EmptyString /\
  url_resolves Sample.pin_registry DEFAULT_STYLE_ARRAY (Some "pin"%string)
    [Sample.red_line] /\
  exists n, forall fuel, (n <= fuel)%nat ->
    createFeatureStyleFunction None (Some "pin"%string) DEFAULT_STYLE_ARRAY
      Sample.pin_registry false fuel Sample.depot = Ok [Sample.red_line]
    /\ ([Sample.red_line] <> [] ->
        exists nameStyle textStyle,
          createFeatureStyleFunction None (Some "pin"%string) DEFAULT_STYLE_ARRAY
            Sample.pin_registry true fuel Sample.depot
            = Ok ([Sample.red_line] ++ [nameStyle])
          /\ getImage nameStyle = None /\ getStroke nameStyle = None
          /\ getFill nameStyle = None
          /\ getText nameStyle = Some textStyle
          /\ text_getText textStyle = Some "Depot"%string).
Proof.
  assert (Hres : url_resolves Sample.pin_registry DEFAULT_STYLE_ARRAY
                   (Some "pin"%string) [Sample.red_line]).
  { apply (findStyle_sound 3). reflexivity. }
  repeat (split; [first [reflexivity | discriminate | exact Hres] |]).
  exact (point_name_style Sample.depot (Sample.point 1 2 ∅) "Depot"
           (Some "pin"%string) DEFAULT_STYLE_ARRAY Sample.pin_registry
           [Sample.red_line] eq_refl eq_refl eq_refl ltac:(discriminate) Hres).
Defined.

(** C8 as stated fails where the placemark has no style array to start
    from: with an empty default style the name style cannot be made, and
    with a style map that points to itself nothing is ever resolved; the
    Depot placemark, a named point, gets no style array in either case. *)
Lemma point_name_style_needs_a_style :
  createFeatureStyleFunction None None [] ∅ true 0 Sample.depot = Throw TypeError
  /\ forall fuel,
       createFeatureStyleFunction None (Some "#loop"%string) DEFAULT_STYLE_ARRAY
         {[ "#loop"%string := StyleUrl "#loop" ]} true fuel Sample.depot
       = Throw RangeError.
Proof.
  split; [reflexivity |]. intros fuel.
  rewrite styleFunction_url by discriminate. by rewrite cyclic_style_map.
Qed.

(** The name style of the Depot placemark under the default style: the
    label sits to the right of the default icon. *)
Example depot_default_name_style :
  createFeatureStyleFunction None None DEFAULT_STYLE_ARRAY ∅ true 0 Sample.depot =
    Ok [DEFAULT_STYLE;
        {| getFill := None; getImage := None; getStroke := None;
           getText := Some {| getFont := Some "bold 16px Helvetica"%string;
                              text_getScale := Some (Dec 8 (-1));
                              text_getFill := Some DEFAULT_FILL_STYLE;
                              text_getStroke := Some DEFAULT_TEXT_STROKE_STYLE;
                              text_getText := Some "Depot"%string;
                              getOffsetX := Dec 1600 (-2);
                              getOffsetY := Dec (-1600) (-2);
                              getTextAlign := Some "left"%string |};
           getZIndex := None |}].
Proof. reflexivity. Qed.

(** ** The parser driver *)

Lemma bind_Ok {A B} (a : A) (f : A -> outcome B) : Ok a ≫= f = f a.
Proof. reflexivity. Qed.

Lemma parseNodeBy_nil {T} (d : option string -> string -> node -> T -> outcome T)
    ns name attrs (o : T) :
  parseNodeBy d (Element ns name attrs []) o = Ok o.
Proof. reflexivity. Qed.

Lemma parseNodeBy_throw {T} (d : option string -> string -> node -> T -> outcome T)
    (cs : list node) (e : error) :
  fold_left
    (fun acc c =>
       match acc with
       | Ok obj =>
           match c with
           | Element ns name _ _ => d ns name c obj
           | TextNode _ => Ok obj
           end
       | Throw e => Throw e
       end) cs (Throw e) = Throw e.
Proof. induction cs as [| c cs IH]; [reflexivity | exact IH]. Qed.

Lemma parseNodeBy_app {T} (d : option string -> string -> node -> T -> outcome T)
    ns name attrs (cs1 cs2 : list node) (o : T) :
  parseNodeBy d (Element ns name attrs (cs1 ++ cs2)) o =
  parseNodeBy d (Element ns name attrs cs1) o
    ≫= parseNodeBy d (Element ns name attrs cs2).
Proof.
  unfold parseNodeBy. rewrite fold_left_app.
  destruct (fold_left _ cs1 (Ok o)) as [o1 | e]; simpl; [reflexivity |].
  apply parseNodeBy_throw.
Qed.

Lemma parseNodeBy_cons {T} (d : option string -> string -> node -> T -> outcome T)
    ns name attrs (c : node) (cs : list node) (o : T) :
  parseNodeBy d (Element ns name attrs (c :: cs)) o =
  match c with
  | Element cns cname _ _ => d cns cname c o
  | TextNode _ => Ok o
  end ≫= parseNodeBy d (Element ns name attrs cs).
Proof.
  change (c :: cs) with ([c] ++ cs). rewrite parseNodeBy_app.
  unfold parseNodeBy at 1. simpl. by destruct c.
Qed.

#[local] Arguments dataParser : simpl never.
#[local] Arguments schemaDataParser : simpl never.
#[local] Arguments simpleDataParser : simpl never.
#[local] Arguments extendedDataParser : simpl never.
#[local] Arguments parseNodeBy : simpl never.
#[local] Arguments parseNode : simpl never.

Lemma parseNode_app {T} (p : parsersNS T) ns name attrs (cs1 cs2 : list node) (o : T) :
  parseNode p (Element ns name attrs (cs1 ++ cs2)) o =
  parseNode p (Element ns name attrs cs1) o ≫= parseNode p (Element ns name attrs cs2).
Proof. apply parseNodeBy_app. Qed.

Lemma parseNode_cons {T} (p : parsersNS T) ns name attrs (c : node)
    (cs : list node) (o : T) :
  parseNode p (Element ns name attrs (c :: cs)) o =
  match c with
  | Element cns cname _ _ => dispatch_of p cns cname c o
  | TextNode _ => Ok o
  end ≫= parseNode p (Element ns name attrs cs).
Proof. apply parseNodeBy_cons. Qed.

Lemma parseNode_singleton {T} (p : parsersNS T) ns name attrs (c : node) (o : T) :
  parseNode p (Element ns name attrs [c]) o =
  match c with
  | Element cns cname _ _ => dispatch_of p cns cname c o
  | TextNode _ => Ok o
  end.
Proof. by destruct c. Qed.

Lemma parseNode_nil {T} (p : parsersNS T) ns name attrs (o : T) :
  parseNode p (Element ns name attrs []) o = Ok o.
Proof. reflexivity. Qed.

(** ** Extended data *)

Lemma last_child_text_snoc (name : string) ns dname attrs (kids : list node) (c : node) :
  last_child_text name (Element ns dname attrs (kids ++ [c])) =
  match c with
  | Element cns cname _ _ =>
      if includes NAMESPACE_URIS cns && String.eqb cname name
      then Some (getAllTextContent c)
      else last_child_text name (Element ns dname attrs kids)
  | TextNode _ => last_child_text name (Element ns dname attrs kids)
  end.
Proof. unfold last_child_text. simpl. rewrite fold_left_app. simpl. by destruct c. Qed.

(** The children of a [Data] element store the last display name and the
    last value in the feature object and leave the rest of it alone. *)
Lemma parse_data_children ns dname attrs (kids : list node) (o : gmap string value) :
  let d := Element ns dname attrs kids in
  exists o',
    parseNode DATA_PARSERS d o = Ok o'
    /\ o' !! "value"%string =
         match last_child_text "value" d with
         | Some t => Some (VString t)
         | None => o !! "value"%string
         end
    /\ o' !! "displayName"%string =
         match last_child_text "displayName" d with
         | Some t => Some (VString t)
         | None => o !! "displayName"%string
         end
    /\ forall key, key <> "value"%string -> key <> "displayName"%string ->
         o' !! key = o !! key.
Proof.
  induction kids as [| c kids IH] using rev_ind; intros d; subst d.
  - exists o. by repeat split.
  - destruct IH as (o1 & Hparse & Hvalue & Hdisplay & Hother).
    rewrite parseNode_app, Hparse. simpl.
    rewrite !last_child_text_snoc.
    destruct c as [t | cns cname cattrs ckids].
    { exists o1. by repeat split. }
    unfold parseNode, parseNodeBy, dispatch_of, DATA_PARSERS, makeStructureNS. simpl.
    destruct (includes NAMESPACE_URIS cns); simpl; [| by exists o1; repeat split].
    destruct (String.eqb cname "displayName") eqn:Hd.
    { apply String.eqb_eq in Hd as ->. simpl.
      eexists. split; [reflexivity |].
      cbv [fmap option_fmap option_map default localName_of]. repeat split.
      - by rewrite lookup_insert_ne.
      - by rewrite lookup_insert_eq.
      - intros key H1 H2. rewrite lookup_insert_ne by congruence. by apply Hother. }
    destruct (String.eqb cname "value") eqn:Hv.
    { apply String.eqb_eq in Hv as ->. simpl.
      eexists. split; [reflexivity |].
      cbv [fmap option_fmap option_map default localName_of]. repeat split.
      - by rewrite lookup_insert_eq.
      - by rewrite lookup_insert_ne.
      - intros key H1 H2. rewrite lookup_insert_ne by congruence. by apply Hother. }
    exists o1. by repeat split.
Qed.

(** A [Data] element with a key and a value stores the value under the
    key; it never throws. *)
Lemma dataParser_entry (d : node) (k v : string) (o : gmap string value) :
  entry_key d = Some k -> entry_value d = Some v -> k <> "value"%string ->
  exists o', dataParser d o = Ok o' /\ o' !! k = Some (VString v).
Proof.
  intros Hk Hv Hne. destruct d as [t | ns dname attrs kids]; [discriminate |].
  destruct (parse_data_children ns dname attrs kids o)
    as (o1 & Hparse & Hvalue & Hdisplay & _).
  unfold entry_value in Hv. rewrite Hv in Hvalue.
  unfold dataParser. rewrite Hparse. simpl.
  unfold entry_key in Hk. simpl in Hk.
  unfold prop. rewrite Hvalue. simpl.
  destruct (snd <$> List.find _ attrs) as [k' |] eqn:Hattr.
  - injection Hk as ->. eexists. split; [reflexivity |].
    rewrite lookup_delete_ne by done. by rewrite lookup_insert_eq.
  - rewrite Hk in Hdisplay. rewrite Hdisplay. simpl.
    eexists. split; [reflexivity |].
    rewrite lookup_delete_ne by done. by rewrite lookup_insert_eq.
Qed.

Lemma simple_data_total ns name attrs (cs : list node) (o : gmap string value) :
  exists o', parseNode SCHEMA_DATA_PARSERS (Element ns name attrs cs) o = Ok o'.
Proof.
  revert o. induction cs as [| c cs IH]; intros o; [by exists o |].
  rewrite parseNode_cons.
  destruct c as [t | cns cname cattrs ckids]; simpl; [apply IH |].
  unfold dispatch_of, SCHEMA_DATA_PARSERS, makeStructureNS. simpl.
  destruct (includes NAMESPACE_URIS cns); simpl; [| apply IH].
  destruct (String.eqb cname "SimpleData"); simpl; [| apply IH].
  unfold simpleDataParser. simpl. apply IH.
Qed.

(** The parsers of extended data never throw. *)
Lemma extended_data_total ns name attrs (cs : list node) (o : gmap string value) :
  exists o', parseNode EXTENDED_DATA_PARSERS (Element ns name attrs cs) o = Ok o'.
Proof.
  revert o. induction cs as [| c cs IH]; intros o; [by exists o |].
  rewrite parseNode_cons.
  destruct c as [t | cns cname cattrs ckids]; simpl; [apply IH |].
  unfold dispatch_of, EXTENDED_DATA_PARSERS, makeStructureNS. simpl.
  destruct (includes NAMESPACE_URIS cns); simpl; [| apply IH].
  destruct (String.eqb cname "Data"); simpl.
  - unfold dataParser.
    destruct (parse_data_children cns cname cattrs ckids o) as (o1 & -> & _).
    simpl. apply IH.
  - destruct (String.eqb cname "SchemaData"); simpl; [| apply IH].
    unfold schemaDataParser.
    destruct (simple_data_total cns cname cattrs ckids o) as [o1 ->].
    simpl. apply IH.
Qed.

Lemma dispatch_Data (ns : option string) (c : node) (o : gmap string value) :
  includes NAMESPACE_URIS ns = true ->
  dispatch_of EXTENDED_DATA_PARSERS ns "Data" c o = dataParser c o.
Proof.
  intros Hns. unfold dispatch_of, EXTENDED_DATA_PARSERS, makeStructureNS.
  by rewrite Hns.
Qed.

(** An entry of an [ExtendedData] element is the value of its key after
    the element, unless a later entry writes the key again. *)
Lemma extendedDataParser_entry ens ename eattrs (dbefore dafter : list node)
    (data : node) (k v : string) (o : gmap string value) :
  includes NAMESPACE_URIS (namespaceURI_of data) = true ->
  localName_of data = "Data"%string ->
  entry_key data = Some k -> entry_value data = Some v -> k <> "value"%string ->
  (forall o1, exists o2,
     parseNode EXTENDED_DATA_PARSERS (Element ens ename eattrs dafter) o1 = Ok o2
     /\ o2 !! k = o1 !! k) ->
  exists o',
    extendedDataParser (Element ens ename eattrs (dbefore ++ data :: dafter)) o
      = Ok o'
    /\ o' !! k = Some (VString v).
Proof.
  intros Hns Hname Hk Hv Hne Hafter.
  unfold extendedDataParser.
  rewrite parseNode_app.
  destruct (extended_data_total ens ename eattrs dbefore o) as [o1 ->]. simpl.
  destruct (dataParser_entry data k v o1 Hk Hv Hne) as (o2 & Hdata & Hlookup).
  destruct data as [t | dns dname dattrs dkids]; [discriminate |].
  simpl in Hns, Hname. subst dname.
  rewrite parseNode_cons, (dispatch_Data _ _ _ Hns), Hdata, bind_Ok.
  destruct (Hafter o2) as (o3 & Ho3 & Hsame).
  exists o3. split; [exact Ho3 | congruence].
Qed.

Section Placemarks.

Context (readBoolean : node -> option bool)
        (readDecimal : node -> option dec)
        (Date_parse : string -> option Z)
        (URL_href : string -> string -> outcome string)
        (baseURI : node -> option string)
        (location_href : string)
        (transformWithOptions : geometry -> geometry)
        (readStyle : node -> outcome (option (list Style))).

Local Abbreviation PLACEMARK :=
  (PLACEMARK_PARSERS readBoolean readDecimal Date_parse URL_href baseURI
     location_href readStyle).
Local Abbreviation readPlacemark :=
  (readPlacemark_ readBoolean readDecimal Date_parse URL_href baseURI
     location_href transformWithOptions readStyle).

Lemma dispatch_ExtendedData (ns : option string) (c : node) (o : gmap string value) :
  includes NAMESPACE_URIS ns = true ->
  dispatch_of PLACEMARK ns "ExtendedData" c o = extendedDataParser c o.
Proof.
  intros Hns. unfold dispatch_of, PLACEMARK_PARSERS, makeStructureNS.
  by rewrite Hns.
Qed.

(** C9: a placemark has, among its children, an [ExtendedData] element
    with an entry whose key (its name attribute, or its display-name child
    when it has no name attribute) is the name [k] of a scalar metadata
    field, and whose value is [v].  When the children before it are read
    without exception, and what is read after the entry (the later entries
    and the later children of the placemark) leaves the property [k] as it
    is, the feature is returned and its property [k] is [v]: whatever a
    scalar field [k] read earlier had stored is overwritten. *)
Theorem extended_data_overwrites (this : KML) pns pname pattrs ens eattrs
    (before after dbefore dafter : list node) (data : node) (k v : string)
    (o0 : gmap string value) :
  k ∈ scalar_fields ->
  includes NAMESPACE_URIS ens = true ->
  includes NAMESPACE_URIS (namespaceURI_of data) = true ->
  localName_of data = "Data"%string ->
  entry_key data = Some k -> entry_value data = Some v ->
  parseNode PLACEMARK (Element pns pname pattrs before)
            {[ "geometry"%string := VNull ]} = Ok o0 ->
  (forall o1, exists o2,
     parseNode EXTENDED_DATA_PARSERS (Element ens "ExtendedData" eattrs dafter) o1
       = Ok o2 /\ o2 !! k = o1 !! k) ->
  (forall o1, exists o2,
     parseNode PLACEMARK (Element pns pname pattrs after) o1 = Ok o2
     /\ o2 !! k = o1 !! k) ->
  exists feature,
    readPlacemark this
      (Element pns pname pattrs
         (before
            ++ Element ens "ExtendedData" eattrs (dbefore ++ data :: dafter)
            :: after))
      = Ok (Some feature)
    /\ getProperties_ feature !! k = Some (VString v).
Proof.
  intros Hk Hens Hdns Hdname Hkey Hvalue Hbefore Hdafter Hafter.
  assert (Hne : k <> "value"%string /\ k <> "geometry"%string /\ k <> "Style"%string).
  { unfold scalar_fields in Hk.
    repeat (apply elem_of_cons in Hk as [-> | Hk]; [by repeat split |]).
    by apply not_elem_of_nil in Hk. }
  destruct Hne as (Hnv & Hng & Hns).
  unfold readPlacemark_, pushParseAndPop.
  rewrite parseNode_app, Hbefore, bind_Ok.
  rewrite parseNode_cons, (dispatch_ExtendedData _ _ _ Hens).
  destruct (extendedDataParser_entry ens "ExtendedData" eattrs dbefore dafter data
              k v o0 Hdns Hdname Hkey Hvalue Hnv Hdafter) as (o1 & -> & Ho1).
  rewrite bind_Ok. destruct (Hafter o1) as (o2 & -> & Ho2). rewrite bind_Ok.
  eexists. split; [reflexivity |]. simpl.
  rewrite !lookup_delete_ne by done. congruence.
Qed.

End Placemarks.

Lemma extended_data_overwrites_witness :
  entry_key Sample.description_entry = Some "description"%string /\
  entry_value Sample.description_entry = Some "from the entry"%string /\
  exists feature,
    readPlacemark_ Sample.no_boolean Sample.no_decimal Sample.no_date
      Sample.same_url Sample.no_base EmptyString id Sample.default_style
      Sample.format Sample.placemark_with_entry = Ok (Some feature)
    /\ getProperties_ feature !! "description"%string
         = Some (VString "from the entry").
Proof.
  split; [reflexivity |]. split; [reflexivity |].
  apply (extended_data_overwrites Sample.no_boolean Sample.no_decimal
           Sample.no_date Sample.same_url Sample.no_base EmptyString id
           Sample.default_style Sample.format Sample.KML_NS "Placemark" []
           Sample.KML_NS [] Sample.children_before Sample.children_after
           Sample.entries_before Sample.entries_after Sample.description_entry
           "description"%string "from the entry"%string
           (<[ "description"%string := VString "from the field" ]>
              (<[ "name"%string := VString "Depot" ]>
                 {[ "geometry"%string := VNull ]}))).
  - apply list_elem_of_further, list_elem_of_here.
  - reflexivity.
  - reflexivity.
  - reflexivity.
  - reflexivity.
  - reflexivity.
  - reflexivity.
  - intros o1. eexists. split; [reflexivity |]. cbn -[insert delete lookup].
    rewrite lookup_delete_ne by discriminate.
    rewrite lookup_insert_ne by discriminate.
    rewrite lookup_insert_ne by discriminate. reflexivity.
  - intros o1. eexists. split; [reflexivity |]. cbn -[insert delete lookup].
    replace (readFlatCoordinates (list_ascii_of_string ("1,2" +:+ EmptyString)))
      with (Some [Sample.one; Sample.two; Sample.zero]) by (vm_compute; reflexivity).
    cbn -[insert delete lookup].
    rewrite lookup_insert_ne by discriminate. reflexivity.
Defined.

(** The order of the document decides: a description field after the
    extended data overwrites the entry. *)
Example late_description_wins :
  exists feature,
    readPlacemark_ Sample.no_boolean Sample.no_decimal Sample.no_date
      Sample.same_url Sample.no_base EmptyString id Sample.default_style
      Sample.format Sample.placemark_with_late_description = Ok (Some feature)
    /\ getProperties_ feature !! "description"%string
         = Some (VString "from the field").
Proof. eexists. split; reflexivity. Qed.

(** ** The matcher *)

Section MatcherFacts.

Context {A : Type}.
Implicit Types (k : text -> captures -> option A).

Lemma take_consumed (w s' : text) : take (length (w ++ s') - length s') (w ++ s') = w.
Proof.
  rewrite length_app. replace (length w + length s' - length s')%nat with (length w) by lia.
  by rewrite take_app_length.
Qed.

Lemma star_k_sound (p : ascii -> bool) s c0 k x :
  star_k p s c0 k = Some x ->
  exists w s', s = w ++ s' /\ Forall (fun a => p a = true) w /\ k s' c0 = Some x.
Proof.
  induction s as [| a s IH]; simpl.
  - intros H. exists [], []. by repeat split.
  - destruct (p a) eqn:Hp.
    + destruct (star_k p s c0 k) as [y |] eqn:Hs.
      * intros [= ->]. destruct (IH eq_refl) as (w & s' & -> & Hw & Hk).
        exists (a :: w), s'. repeat split; [by constructor | done].
      * intros H. exists [], (a :: s). by repeat split.
    + intros H. exists [], (a :: s). by repeat split.
Qed.

(** Every result of the matcher comes from a match of the pattern. *)
Lemma rmatch_sound (r : regex) s c0 k x :
  rmatch r s c0 k = Some x ->
  exists w s' c, s = w ++ s' /\ matches r w s' c /\ k s' (c ++ c0) = Some x.
Proof.
  revert s c0 k x.
  induction r as [| p | r1 IH1 r2 IH2 | p | r IH | i r IH |]; intros s c0 k x; simpl.
  - intros H. exists [], s, []. repeat split; [constructor | done].
  - destruct s as [| a s]; [done |]. destruct (p a) eqn:Hp; [| done].
    intros H. exists [a], s, []. repeat split; [by constructor | done].
  - intros H. apply IH1 in H as (w1 & s1 & c1 & -> & Hm1 & H).
    apply IH2 in H as (w2 & s2 & c2 & -> & Hm2 & H).
    exists (w1 ++ w2), s2, (c2 ++ c1). rewrite <- !app_assoc.
    repeat split; [by constructor | done].
  - intros H. apply star_k_sound in H as (w & s' & -> & Hw & H).
    exists w, s', []. repeat split; [by constructor | done].
  - destruct (rmatch r s c0 k) as [y |] eqn:Hr.
    + intros [= ->]. apply IH in Hr as (w & s' & c & -> & Hm & H).
      exists w, s', c. repeat split; [by apply matches_opt_some | done].
    + intros H. exists [], s, []. repeat split; [apply matches_opt_none | done].
  - intros H. apply IH in H as (w & s' & c & -> & Hm & H).
    rewrite take_consumed in H.
    exists w, s', ((i, w) :: c). repeat split; [by constructor | done].
  - destruct s; [| done]. intros H. exists [], [], []. repeat split; [constructor | done].
Qed.

Lemma star_k_complete (p : ascii -> bool) w s' c0 k x :
  Forall (fun a => p a = true) w -> k s' c0 = Some x ->
  is_Some (star_k p (w ++ s') c0 k).
Proof.
  intros Hw Hk. induction Hw as [| a w Ha Hw IH]; simpl.
  - destruct s' as [| a s']; simpl; [by rewrite Hk |].
    destruct (p a); [| by rewrite Hk].
    destruct (star_k p s' c0 k); [done | by rewrite Hk].
  - rewrite Ha. destruct IH as [y ->]. done.
Qed.

(** Where the pattern has a match after which the continuation succeeds,
    the matcher returns a result (of the first such match it finds). *)
Lemma rmatch_complete (r : regex) w s' c c0 k x :
  matches r w s' c -> k s' (c ++ c0) = Some x ->
  is_Some (rmatch r (w ++ s') c0 k).
Proof.
  intros Hm. revert c0 k x.
  induction Hm as [s' | p a s' Hp | r1 r2 w1 w2 s' c1 c2 Hm1 IH1 Hm2 IH2
                  | p w s' Hw | r w s' c Hm IH | r s' | i r w s' c Hm IH |];
    intros c0 k x Hk; simpl in Hk |- *.
  - by rewrite Hk.
  - by rewrite Hp, Hk.
  - rewrite <- app_assoc in Hk. destruct (IH2 _ _ _ Hk) as [y Hy].
    rewrite <- app_assoc. by apply (IH1 _ _ y).
  - by apply (star_k_complete _ _ _ _ _ x).
  - destruct (IH _ _ _ Hk) as [y ->]. done.
  - destruct (rmatch r s' c0 k); [done | by rewrite Hk].
  - apply (IH _ _ x). by rewrite take_consumed.
  - by rewrite Hk.
Qed.

End MatcherFacts.

Lemma matches_min_len (r : regex) w s' c : matches r w s' c -> (min_len r <= length w)%nat.
Proof.
  induction 1; simpl; try lia. rewrite length_app. lia.
Qed.

(** [re.exec(s)] returns a match of the pattern at the start of [s]. *)
Lemma exec_sound (r : regex) (s : text) (m : match_result) :
  exec r s = Some m ->
  s = m0 m ++ rest m /\ matches r (m0 m) (rest m) (groups m).
Proof.
  unfold exec. intros H. apply rmatch_sound in H as (w & s' & c & -> & Hm & H).
  rewrite take_consumed, app_nil_r in H. injection H as <-. by split.
Qed.

Lemma exec_complete (r : regex) (w s' : text) (c : captures) :
  matches r w s' c -> is_Some (exec r (w ++ s')).
Proof. intros Hm. unfold exec. by eapply rmatch_complete. Qed.

(** ** Coordinates *)

(** A match of the tuple pattern consumes at least three characters, and
    what [substr] leaves is the text after the match. *)
Lemma coordinates_match_advances (s : text) (m : match_result) :
  exec COORDINATES_RE s = Some m ->
  drop (length (m0 m)) s = rest m /\ (length (rest m) < length s)%nat.
Proof.
  intros H. apply exec_sound in H as [Hs Hm].
  apply matches_min_len in Hm. change (min_len COORDINATES_RE) with 3%nat in Hm.
  split.
  - rewrite Hs at 1. by rewrite drop_app_length.
  - rewrite Hs at 1. rewrite length_app. lia.
Qed.

(** The scan of a text always ends. *)
Lemma scans_total (s : text) : exists fc r, scans s fc r.
Proof.
  remember (length s) as n eqn:Hn. revert s Hn.
  induction n as [n IH] using lt_wf_ind. intros s ->.
  destruct (exec COORDINATES_RE s) as [m |] eqn:Hexec.
  - destruct (coordinates_match_advances s m Hexec) as [_ Hlt].
    destruct (IH _ Hlt (rest m) eq_refl) as (fc & r & Hscan).
    exists (tuple_of m ++ fc), r. by econstructor.
  - exists [], s. by constructor.
Qed.

Lemma scans_residue (s : text) (fc : list jsval) (r : text) :
  scans s fc r -> exec COORDINATES_RE r = None.
Proof. induction 1; auto. Qed.

(** The loop of [readFlatCoordinates] computes the scan, with fuel to
    spare. *)
Lemma readFlatCoordinates_loop_scans (s : text) (fc : list jsval) (r : text) :
  scans s fc r ->
  forall fuel acc, (length s < fuel)%nat ->
    readFlatCoordinates_loop fuel s acc = Some (acc ++ fc, r).
Proof.
  induction 1 as [s Hnone | s m fc r Hexec Hscan IH]; intros fuel acc Hfuel.
  - destruct fuel as [| fuel]; [lia |]. simpl. by rewrite Hnone, app_nil_r.
  - destruct fuel as [| fuel]; [lia |]. simpl. rewrite Hexec.
    destruct (coordinates_match_advances s m Hexec) as [-> Hlt].
    rewrite IH by lia. by rewrite <- app_assoc.
Qed.

Lemma readFlatCoordinates_scans (s : text) (fc : list jsval) (r : text) :
  scans s fc r ->
  readFlatCoordinates s = match r with [] => Some fc | _ :: _ => None end.
Proof.
  intros Hscan. unfold readFlatCoordinates.
  rewrite (readFlatCoordinates_loop_scans s fc r Hscan) by lia.
  by destruct r.
Qed.

(** C6: [readFlatCoordinates] scans its text by matching the tuple pattern
    (x, y and an optional z, 0 when absent, with white space allowed around
    the commas) again and again at the start of what is left; the scan of
    every text ends; the result is the array of the numbers scanned when
    nothing is left, and absent ([None]) otherwise, so in particular
    whenever something other than white space is left; and the text
    ["1.0,  2.0 , 3.0  4,5,6"] gives [[1,2,3,4,5,6]]. *)
Theorem readFlatCoordinates_residue :
  (forall s, exists fc r, scans s fc r)
  /\ (forall s fc r, scans s fc r ->
        readFlatCoordinates s = match r with [] => Some fc | _ :: _ => None end)
  /\ (forall s fc r a, scans s fc r -> a ∈ r -> is_space a = false ->
        readFlatCoordinates s = None)
  /\ readFlatCoordinates Sample.two_tuples =
       Some [Sample.one; Sample.two; Sample.three;
             Sample.four; Sample.five; Sample.six].
Proof.
  split; [exact scans_total |]. split; [exact readFlatCoordinates_scans |].
  split; [| by vm_compute].
  intros s fc r a Hscan Ha _. rewrite (readFlatCoordinates_scans s fc r Hscan).
  destruct r; [by apply not_elem_of_nil in Ha | done].
Qed.

Lemma readFlatCoordinates_residue_witness :
  scans Sample.tuple_and_garbage [Sample.one; Sample.two; Sample.zero]
        (of_string "north")
  /\ readFlatCoordinates Sample.tuple_and_garbage = None.
Proof.
  assert (Hscan : scans Sample.tuple_and_garbage [Sample.one; Sample.two; Sample.zero]
                        (of_string "north")).
  { change (scans Sample.tuple_and_garbage
                   (tuple_of (MatchResult (of_string "1,2 ")
                                [(2%nat, of_string "2"); (1%nat, of_string "1")]
                                (of_string "north")) ++ [])
                   (of_string "north")).
    apply scans_tuple; [vm_compute; reflexivity |].
    apply scans_end. vm_compute. reflexivity. }
  split; [exact Hscan |].
  destruct readFlatCoordinates_residue as (_ & _ & H & _).
  apply (H _ _ _ "n"%char Hscan); [apply list_elem_of_here | reflexivity].
Defined.

(** ** Reading a color *)

Lemma hex_char_facts (a : ascii) :
  is_hex a = true ->
  is_space a = false /\ is_char "#" a = false /\ is_char "-" a = false
  /\ is_char "+" a = false /\ is_char "x" a = false /\ is_char "X" a = false
  /\ digit_value a = Some (hex_value a) /\ 0 <= hex_value a < 16.
Proof.
  destruct a as [[|] [|] [|] [|] [|] [|] [|] [|]]; vm_compute;
    first [discriminate | intros _; repeat split; congruence].
Qed.

Lemma space_not_hex (a : ascii) : is_space a = true -> is_hex a = false.
Proof.
  intros Hs. destruct (is_hex a) eqn:Hh; [| done].
  apply hex_char_facts in Hh as [Hh _]. congruence.
Qed.

Lemma parseInt_hex_pair (a b : ascii) :
  is_hex a = true -> is_hex b = true -> parseInt [a; b] 16 = Some (byte_of a b).
Proof.
  intros Ha Hb.
  apply hex_char_facts in Ha as (Hsa & _ & Hma & Hpa & _ & _ & Hda & Hra).
  apply hex_char_facts in Hb as (_ & _ & _ & _ & Hxb & HXb & Hdb & Hrb).
  unfold parseInt, is_radix_digit. simpl. rewrite Hsa, Hma, Hpa, Hxb, HXb.
  rewrite andb_false_r. simpl. rewrite Hda, Hdb.
  destruct (Z.ltb_spec (hex_value a) 16); [| lia].
  destruct (Z.ltb_spec (hex_value b) 16); [| lia].
  simpl. unfold byte_of. f_equal. lia.
Qed.

Ltac invert_matches :=
  repeat match goal with
         | H : matches (Seq _ _) _ _ _ |- _ => inversion H; subst; clear H
         | H : matches (Star _) _ _ _ |- _ => inversion H; subst; clear H
         | H : matches (Opt _) _ _ _ |- _ => inversion H; subst; clear H
         | H : matches (Grp _ _) _ _ _ |- _ => inversion H; subst; clear H
         | H : matches (Cls _) _ _ _ |- _ => inversion H; subst; clear H
         | H : matches Eps _ _ _ |- _ => inversion H; subst; clear H
         | H : matches Eos _ _ _ |- _ => inversion H; subst; clear H
         end.

Lemma is_char_eq (c a : ascii) : is_char c a = true -> a = c.
Proof.
  unfold is_char, code. intros H. apply N.eqb_eq in H.
  rewrite <- (ascii_N_embedding a), <- (ascii_N_embedding c). by rewrite H.
Qed.

Lemma color_re_inv (w s' : text) (c : captures) :
  matches COLOR_RE w s' c ->
  exists w1 hash w2 h w3,
    color_text w w1 hash w2 h w3 /\ s' = [] /\ capture 1 c = Some h.
Proof.
  unfold COLOR_RE. simpl. intros H. invert_matches.
  - match goal with H : is_char "#" ?a = true |- _ => apply is_char_eq in H as -> end.
    exists w1, ["#"%char], w2, [a6; a5; a4; a3; a2; a1; a0; a], w4.
    split; [| split; reflexivity].
    unfold color_text, all_space, all_hex. rewrite !app_nil_r.
    repeat split; try done; [by right | by repeat constructor].
  - exists w1, [], w2, [a6; a5; a4; a3; a2; a1; a0; a], w4.
    split; [| split; reflexivity].
    unfold color_text, all_space, all_hex. rewrite !app_nil_r.
    repeat split; try done; [by left | by repeat constructor].
Qed.

Lemma matches_rep (n : nat) (p : ascii -> bool) (h s' : text) :
  length h = n -> Forall (fun a => p a = true) h -> matches (Rep n p) h s' [].
Proof.
  revert n. induction h as [| a h IH]; intros n <- Hh; simpl.
  - constructor.
  - apply Forall_cons in Hh as [Ha Hh].
    apply (matches_seq (Cls p) (Rep (length h) p) [a] h s' [] []).
    + by constructor.
    + by apply IH.
Qed.

Lemma color_re_matches (s w1 hash w2 h w3 : text) :
  color_text s w1 hash w2 h w3 -> exists c, matches COLOR_RE s [] c.
Proof.
  intros (-> & H1 & Hhash & H2 & Hlen & Hh & H3).
  eexists. unfold COLOR_RE. simpl.
  eapply (matches_seq _ _ w1); [by apply matches_star |].
  eapply (matches_seq _ _ hash).
  { destruct Hhash as [-> | ->]; [apply matches_opt_none |].
    apply matches_opt_some. by constructor. }
  eapply (matches_seq _ _ w2); [by apply matches_star |].
  eapply (matches_seq _ _ h w3).
  { apply matches_grp. exact (matches_rep 8 is_hex h _ Hlen Hh). }
  rewrite <- (app_nil_r w3) at 1.
  eapply (matches_seq _ _ w3 []); [by apply matches_star | apply matches_eos].
Qed.

Lemma first_hex_split (l l' m m' : text) :
  Forall (fun a => is_hex a = false) l -> Forall (fun a => is_hex a = false) l' ->
  (exists a t, m = a :: t /\ is_hex a = true) ->
  (exists a t, m' = a :: t /\ is_hex a = true) ->
  l ++ m = l' ++ m' -> m = m'.
Proof.
  intros Hl. revert l'. induction Hl as [| a l Ha Hl IH]; intros l' Hl' Hm Hm' Heq.
  - destruct Hl' as [| b l' Hb Hl']; [done |].
    destruct Hm as (a & t & -> & Ha). simpl in Heq. injection Heq as -> _. congruence.
  - destruct Hl' as [| b l' Hb Hl'].
    + destruct Hm' as (b & t & -> & Hb). simpl in Heq. injection Heq as -> _. congruence.
    + simpl in Heq. injection Heq as -> Heq. by apply (IH l').
Qed.

Lemma color_text_unique (s w1 hash w2 h w3 w1' hash' w2' h' w3' : text) :
  color_text s w1 hash w2 h w3 -> color_text s w1' hash' w2' h' w3' -> h = h'.
Proof.
  intros (Hs & H1 & Hhash & H2 & Hlen & Hh & H3)
         (Hs' & H1' & Hhash' & H2' & Hlen' & Hh' & H3').
  assert (Hprefix : forall v1 x v2, all_space v1 -> (x = [] \/ x = ["#"%char]) ->
            all_space v2 -> Forall (fun a => is_hex a = false) (v1 ++ x ++ v2)).
  { intros v1 x v2 Hv1 Hx Hv2. rewrite !Forall_app. repeat split.
    - eapply Forall_impl; [exact Hv1 | apply space_not_hex].
    - destruct Hx as [-> | ->]; by repeat constructor.
    - eapply Forall_impl; [exact Hv2 | apply space_not_hex]. }
  assert (Hstart : forall x v, length x = 8%nat -> all_hex x ->
            exists a t, x ++ v = a :: t /\ is_hex a = true).
  { intros x v Hx Hhex. destruct x as [| a x]; [discriminate |].
    apply Forall_cons in Hhex as [Ha _]. by exists a, (x ++ v). }
  assert (Heq : h ++ w3 = h' ++ w3').
  { apply (first_hex_split (w1 ++ hash ++ w2) (w1' ++ hash' ++ w2')); auto.
    rewrite <- !app_assoc. congruence. }
  apply app_inj_1 in Heq as [-> _]; [done | congruence].
Qed.

Lemma readColor_of_match (s : text) (m : match_result)
    (a1 a2 b1 b2 g1 g2 r1 r2 : ascii) :
  exec COLOR_RE s = Some m ->
  group 1 m = Some [a1; a2; b1; b2; g1; g2; r1; r2] ->
  all_hex [a1; a2; b1; b2; g1; g2; r1; r2] ->
  readColor s =
    Some (Color (byte_of r1 r2) (byte_of g1 g2) (byte_of b1 b2) (byte_of a1 a2 # 255)).
Proof.
  intros Hexec Hgroup Hhex. unfold readColor. rewrite Hexec, Hgroup.
  unfold substr. simpl.
  repeat match goal with H : all_hex (_ :: _) |- _ => apply Forall_cons in H as [? H] end.
  unfold all_hex in Hhex.
  repeat match goal with H : Forall _ (_ :: _) |- _ => apply Forall_cons in H as [? H] end.
  by rewrite !parseInt_hex_pair.
Qed.

(** C5: [readColor] returns a color exactly for the texts made of eight
    hexadecimal digits, with an optional [#] before them and optional
    white space around them (and between the [#] and the digits); the
    digits are read as the bytes alpha, blue, green, red, and the color is
    [[red, green, blue, alpha / 255]]; every other text gives absent
    ([None]): the function is total and throws nothing. *)
Theorem readColor_spec (s : text) (c : color) :
  readColor s = Some c <->
  exists w1 hash w2 a1 a2 b1 b2 g1 g2 r1 r2 w3,
    color_text s w1 hash w2 [a1; a2; b1; b2; g1; g2; r1; r2] w3
    /\ c = Color (byte_of r1 r2) (byte_of g1 g2) (byte_of b1 b2)
                 (byte_of a1 a2 # 255).
Proof.
  split.
  - intros Hread.
    destruct (exec COLOR_RE s) as [m |] eqn:Hexec;
      [| unfold readColor in Hread; rewrite Hexec in Hread; discriminate].
    destruct (exec_sound _ _ _ Hexec) as [Hs Hm].
    apply color_re_inv in Hm as (w1 & hash & w2 & h & w3 & Htext & Hrest & Hgroup).
    rewrite Hrest, app_nil_r in Hs. rewrite <- Hs in Htext.
    pose proof Htext as (_ & _ & _ & _ & Hlen & Hhex & _).
    do 8 (destruct h as [| ? h]; [discriminate |]). destruct h; [| discriminate].
    rewrite (readColor_of_match s m _ _ _ _ _ _ _ _ Hexec Hgroup Hhex) in Hread.
    injection Hread as <-.
    eexists w1, hash, w2, _, _, _, _, _, _, _, _, w3. by split; [exact Htext |].
  - intros (w1 & hash & w2 & a1 & a2 & b1 & b2 & g1 & g2 & r1 & r2 & w3 & Htext & ->).
    destruct (color_re_matches _ _ _ _ _ _ Htext) as [c0 Hm0].
    destruct (exec_complete _ _ _ _ Hm0) as [m Hexec]. rewrite app_nil_r in Hexec.
    destruct (exec_sound _ _ _ Hexec) as [Hs Hm].
    apply color_re_inv in Hm as (w1' & hash' & w2' & h' & w3' & Htext' & Hrest & Hgroup).
    rewrite Hrest, app_nil_r in Hs. rewrite <- Hs in Htext'.
    rewrite <- (color_text_unique _ _ _ _ _ _ _ _ _ _ _ Htext Htext') in Hgroup.
    apply (readColor_of_match s m); [done | done |].
    by destruct Htext as (_ & _ & _ & _ & _ & Hhex & _).
Qed.

Example readColor_abgr :
  readColor (of_string " #7fFF0010 ") = Some (Color 16 0 255 (127 # 255)).
Proof. reflexivity. Qed.

Example readColor_not_a_color : readColor (of_string "not-a-color") = None.
Proof. reflexivity. Qed.

(** ** Decimal digits *)

Lemma digits_value_acc (ds : list Z) (acc : Z) :
  fold_left (fun acc d => acc * 10 + d) ds acc =
  acc * 10 ^ Z.of_nat (length ds) + digits_value ds.
Proof.
  unfold digits_value. revert acc. induction ds as [| d ds IH]; intros acc.
  - simpl. lia.
  - cbn [fold_left length]. rewrite IH, (IH (0 * 10 + d)).
    rewrite Nat2Z.inj_succ, Z.pow_succ_r by lia. lia.
Qed.

Lemma digits_value_app (ds es : list Z) :
  digits_value (ds ++ es) =
  digits_value ds * 10 ^ Z.of_nat (length es) + digits_value es.
Proof.
  unfold digits_value at 1. rewrite fold_left_app.
  fold (digits_value ds). apply digits_value_acc.
Qed.

Lemma digits_value_cons (d : Z) (ds : list Z) :
  digits_value (d :: ds) = d * 10 ^ Z.of_nat (length ds) + digits_value ds.
Proof. change (d :: ds) with ([d] ++ ds). rewrite digits_value_app. unfold digits_value at 1. simpl. lia. Qed.

Lemma digits_value_bound (ds : list Z) :
  decimal ds -> 0 <= digits_value ds < 10 ^ Z.of_nat (length ds).
Proof.
  induction 1 as [| d ds Hd Hds IH].
  - unfold digits_value. simpl. lia.
  - rewrite digits_value_cons. cbn [length].
    rewrite Nat2Z.inj_succ, Z.pow_succ_r by lia. nia.
Qed.

Lemma digits_value_zeros (j : nat) : digits_value (replicate j 0) = 0.
Proof.
  induction j as [| j IH]; [reflexivity |].
  cbn [replicate]. rewrite digits_value_cons, IH. lia.
Qed.

Lemma digits_value_lower (d : Z) (ds : list Z) :
  decimal (d :: ds) -> d <> 0 -> 10 ^ Z.of_nat (length ds) <= digits_value (d :: ds).
Proof.
  intros Hdec Hd. apply Forall_cons in Hdec as [Hd' Hds].
  rewrite digits_value_cons. pose proof (digits_value_bound ds Hds).
  assert (0 < 10 ^ Z.of_nat (length ds)) by (apply Z.pow_pos_nonneg; lia). nia.
Qed.

(** The digits of a positive number, least significant first. *)
Lemma digits_le_spec (fuel : nat) (n : Z) :
  0 < n < 2 ^ Z.of_nat fuel ->
  let l := digits_le fuel 10 n in
  decimal l /\ digits_value (rev l) = n /\ exists d, last l = Some d /\ d <> 0.
Proof.
  revert n. induction fuel as [| fuel IH]; intros n Hn; [simpl in Hn; lia |].
  cbn [digits_le]. destruct (Z.leb_spec n 0) as [| _]; [lia |].
  rewrite Nat2Z.inj_succ, Z.pow_succ_r in Hn by lia.
  assert (Hmod : 0 <= n mod 10 < 10) by (apply Z.mod_pos_bound; lia).
  assert (Hdiv : n = 10 * (n / 10) + n mod 10) by (apply Z.div_mod; lia).
  destruct (Z.eq_dec (n / 10) 0) as [Hz | Hnz].
  - rewrite Hz. replace (digits_le fuel 10 0) with (@nil Z) by (by destruct fuel).
    simpl. split; [| split].
    + constructor; [lia | constructor].
    + unfold digits_value. simpl. lia.
    + exists (n mod 10). split; [done | lia].
  - assert (Hpos : 0 < n / 10 < 2 ^ Z.of_nat fuel).
    { assert (0 <= n / 10) by (apply Z.div_pos; lia). split; [lia |].
      apply Z.div_lt_upper_bound; lia. }
    destruct (IH _ Hpos) as (Hdec & Hval & d & Hlast & Hd).
    simpl. split; [| split].
    + by constructor.
    + cbn [rev]. rewrite digits_value_app, Hval. unfold digits_value at 1. simpl. lia.
    + exists d. split; [| done].
      destruct (digits_le fuel 10 (n / 10)); [discriminate | by rewrite last_cons, Hlast].
Qed.

(** The decimal digits of a positive number: they are digits, they have
    its value, and the first is not 0. *)
Lemma digits_spec (n : Z) :
  0 < n ->
  decimal (digits 10 n) /\ digits_value (digits 10 n) = n
  /\ exists d t, digits 10 n = d :: t /\ d <> 0.
Proof.
  intros Hn. unfold digits.
  destruct (digits_le_spec (S (Z.to_nat (Z.log2 n))) n) as (Hdec & Hval & d & Hlast & Hd).
  { split; [lia |]. rewrite Nat2Z.inj_succ, Z2Nat.id by apply Z.log2_nonneg.
    by apply Z.log2_spec. }
  split; [| split].
  - by apply Forall_rev.
  - exact Hval.
  - apply last_Some in Hlast as [l' ->]. rewrite rev_app_distr. simpl. eauto.
Qed.

Lemma drop_zeros_spec (l : list Z) :
  exists j, l = replicate j 0 ++ drop_zeros l
            /\ match drop_zeros l with d :: _ => d <> 0 | [] => True end.
Proof.
  induction l as [| d l (j & Hl & Hhead)]; [by exists 0%nat |].
  simpl. destruct (Z.eqb_spec d 0) as [-> | Hd].
  - exists (S j). split; [simpl; congruence | done].
  - exists 0%nat. by split.
Qed.

(** The significant digits: the digits without the zeros at the end. *)
Lemma strip_zeros_spec (d : Z) (t : list Z) :
  d <> 0 ->
  exists j t', d :: t = strip_zeros (d :: t) ++ replicate j 0
               /\ strip_zeros (d :: t) = d :: t'.
Proof.
  intros Hd. unfold strip_zeros.
  destruct (drop_zeros_spec (rev (d :: t))) as (j & Hl & Hhead).
  assert (Hrev : d :: t = rev (drop_zeros (rev (d :: t))) ++ replicate j 0).
  { rewrite <- (rev_involutive (d :: t)) at 1. rewrite Hl at 1.
    rewrite rev_app_distr. f_equal.
    clear. induction j as [| j IH]; [done |]. simpl. rewrite IH.
    clear. induction j as [| j IH]; [done |]. simpl. by rewrite <- IH. }
  exists j. destruct (rev (drop_zeros (rev (d :: t)))) as [| d' t'] eqn:Hs.
  - exfalso. simpl in Hrev. destruct j; [discriminate |]. simpl in Hrev. congruence.
  - exists t'. split; [done |]. simpl in Hrev. congruence.
Qed.

(** ** Digit characters *)

Lemma digit_char_facts (d : Z) :
  0 <= d < 10 ->
  digit_value (digit_char d) = Some d /\ is_space (digit_char d) = false
  /\ is_char "-" (digit_char d) = false /\ is_char "+" (digit_char d) = false.
Proof.
  intros Hd.
  assert (H : d = 0 \/ d = 1 \/ d = 2 \/ d = 3 \/ d = 4 \/ d = 5 \/ d = 6
              \/ d = 7 \/ d = 8 \/ d = 9) by lia.
  repeat destruct H as [-> | H]; try subst d; by vm_compute.
Qed.

(** Reading back a sequence of digit characters that ends the text or is
    followed by a character that is no digit. *)
Lemma read_digits_chars (ds : list Z) (rest : text) (acc : Z) :
  decimal ds ->
  match rest with a :: _ => digit_value a = None | [] => True end ->
  read_digits 10 acc (digit_chars ds ++ rest) =
    (acc * 10 ^ Z.of_nat (length ds) + digits_value ds, rest).
Proof.
  intros Hds Hrest. revert acc. induction Hds as [| d ds Hd Hds IH]; intros acc.
  - unfold digits_value. simpl. rewrite Z.mul_1_r, Z.add_0_r.
    destruct rest as [| a rest]; [done |]. simpl. by rewrite Hrest.
  - destruct (digit_char_facts d Hd) as (Hv & _).
    cbn [digit_chars map app read_digits]. rewrite Hv.
    destruct (Z.ltb_spec d 10); [| lia].
    unfold digit_chars in IH. rewrite IH, digits_value_cons. cbn [length].
    rewrite Nat2Z.inj_succ, Z.pow_succ_r by lia. f_equal. lia.
Qed.

Lemma parseInt_digit_chars (d : Z) (ds : list Z) (rest : text) :
  decimal (d :: ds) ->
  match rest with a :: _ => digit_value a = None | [] => True end ->
  parseInt (digit_chars (d :: ds) ++ rest) 10 = Some (digits_value (d :: ds)).
Proof.
  intros Hdec Hrest. pose proof Hdec as Hdec'. apply Forall_cons in Hdec' as [Hd _].
  destruct (digit_char_facts d Hd) as (Hv & Hs & Hm & Hp).
  unfold parseInt. cbn [digit_chars map app skip_space]. rewrite Hs, Hm, Hp.
  replace (match ds with _ => _ end) with (digit_char d :: map digit_char ds ++ rest).
  2:{ destruct (map digit_char ds ++ rest); reflexivity. }
  unfold is_radix_digit. rewrite Hv. destruct (Z.ltb_spec d 10); [| lia].
  change (digit_char d :: map digit_char ds ++ rest)
    with (digit_chars (d :: ds) ++ rest).
  rewrite read_digits_chars by done. simpl. f_equal. lia.
Qed.

Lemma parseInt_digits (ds : list Z) (rest : text) :
  decimal ds -> ds <> [] ->
  match rest with a :: _ => digit_value a = None | [] => True end ->
  parseInt (digit_chars ds ++ rest) 10 = Some (digits_value ds).
Proof. destruct ds; [done |]. intros. by apply parseInt_digit_chars. Qed.

(** ** The decimal notation of a number and its integer part *)

Lemma pow10_pos (n : Z) : 0 <= n -> 0 < 10 ^ n.
Proof. intros. apply Z.pow_pos_nonneg; lia. Qed.

Lemma pow10_split (a b : Z) : 0 <= a -> 0 <= b -> 10 ^ (a + b) = 10 ^ a * 10 ^ b.
Proof. intros. by apply Z.pow_add_r. Qed.

Lemma length_zeros (n : Z) : 0 <= n -> Z.of_nat (length (zeros n)) = n.
Proof. intros. unfold zeros. rewrite length_replicate. lia. Qed.

(** [parseInt] of the decimal notation of a positive number below 10^21
    and not below 0.000001 is its integer part. *)
Lemma parseInt_to_string (x : dec) :
  0 < mant x -> -6 < point x <= 21 ->
  parseInt (to_string x) 10 = Some (floor x).
Proof.
  intros Hm Hpoint. unfold to_string.
  destruct (Z.eqb_spec (mant x) 0); [lia |].
  destruct (Z.ltb_spec (mant x) 0); [lia |].
  unfold pos_to_string, point in *.
  destruct (digits_spec (mant x) Hm) as (Hdec & Hval & d & t & Hds0 & Hd).
  set (ds0 := digits 10 (mant x)) in *.
  destruct (strip_zeros_spec d t Hd) as (j & t' & Hsplit & Hds).
  rewrite <- Hds0 in Hsplit, Hds.
  set (ds := strip_zeros ds0) in *.
  set (e := expo x) in *.
  assert (Hlen : Z.of_nat (length ds0) = Z.of_nat (length ds) + Z.of_nat j).
  { rewrite Hsplit at 1. rewrite length_app, length_replicate. lia. }
  assert (Hdec_ds : decimal ds).
  { rewrite Hsplit in Hdec. by apply Forall_app in Hdec as [? _]. }
  assert (Hmant : mant x = digits_value ds * 10 ^ Z.of_nat j).
  { rewrite <- Hval, Hsplit at 1.
    rewrite digits_value_app, digits_value_zeros, length_replicate. lia. }
  pose proof (digits_value_bound ds Hdec_ds) as Hbound.
  pose proof (pow10_pos (Z.of_nat j) ltac:(lia)) as Hj.
  destruct (Z.leb_spec (Z.of_nat (length ds)) (Z.of_nat (length ds0) + e)) as [Hk | Hk];
    [destruct (Z.leb_spec (Z.of_nat (length ds0) + e) 21); [| lia] |]; cbn [andb].
  - (* the digits, then zeros *)
    rewrite <- (app_nil_r (digit_chars _)).
    rewrite parseInt_digits; [| | by rewrite Hds | done].
    2:{ apply Forall_app. split; [done |]. apply Forall_replicate. lia. }
    f_equal.
    rewrite digits_value_app, length_zeros by lia.
    unfold zeros. rewrite digits_value_zeros.
    unfold floor. fold e. rewrite Hmant.
    destruct (Z.leb_spec 0 e).
    + replace (Z.of_nat (length ds0) + e - Z.of_nat (length ds)) with (Z.of_nat j + e) by lia.
      rewrite pow10_split by lia. lia.
    + replace (Z.of_nat j) with ((Z.of_nat (length ds0) + e - Z.of_nat (length ds)) + - e) by lia.
      rewrite pow10_split by lia. rewrite Z.mul_assoc, Z.div_mul; [lia |].
      pose proof (pow10_pos (- e)). lia.
  - (* the digits with a point among them, or after "0." *)
    assert (He : e < 0) by lia.
    assert (Hfloor : floor x = mant x / 10 ^ (- e)).
    { unfold floor. fold e. destruct (Z.leb_spec 0 e); [lia | done]. }
    destruct (Z.ltb_spec 0 (Z.of_nat (length ds0) + e)) as [Hn | Hn];
      [destruct (Z.leb_spec (Z.of_nat (length ds0) + e) 21); [| lia] |]; cbn [andb].
    + set (np := Z.to_nat (Z.of_nat (length ds0) + e)).
      assert (Hn' : (0 < np < length ds)%nat) by lia.
      assert (Htake : take np ds <> []).
      { intros Htake. apply (f_equal length) in Htake.
        rewrite length_take in Htake. simpl in Htake. lia. }
      rewrite parseInt_digits; [| by apply Forall_take | done | reflexivity].
      f_equal. rewrite Hfloor.
      assert (Hdrop : decimal (drop np ds)) by (by apply Forall_drop).
      pose proof (digits_value_bound _ Hdrop) as Hb.
      rewrite length_drop in Hb.
      rewrite Hmant. rewrite <- (take_drop np ds) at 2.
      rewrite digits_value_app, length_drop.
      set (hi := digits_value (take np ds)) in *.
      set (lo := digits_value (drop np ds)) in *.
      replace (- e) with (Z.of_nat (length ds - np) + Z.of_nat j) by lia.
      rewrite pow10_split by lia.
      pose proof (pow10_pos (Z.of_nat (length ds - np)) ltac:(lia)) as Hp.
      apply Z.div_unique with (r := lo * 10 ^ Z.of_nat j); [| ring].
      left. split; nia.
    + destruct (Z.ltb_spec (-6) (Z.of_nat (length ds0) + e)); [| lia].
      destruct (Z.leb_spec (Z.of_nat (length ds0) + e) 0); [| lia]. cbn [andb].
      change ("0"%char :: "."%char :: ?r) with (digit_chars [0] ++ "."%char :: r).
      rewrite parseInt_digits; [| constructor; [lia | constructor] | done | reflexivity].
      f_equal. rewrite Hfloor. unfold digits_value. simpl.
      symmetry. apply Z.div_small. split; [lia |].
      rewrite <- Hval. pose proof (digits_value_bound _ Hdec) as Hb.
      assert (10 ^ Z.of_nat (length ds0) <= 10 ^ (- e)) by (apply Z.pow_le_mono_r; lia).
      fold ds0. lia.
Qed.

(** ** Writing a color *)

Lemma mant_digits_bounds (x : dec) :
  0 < mant x ->
  10 ^ (Z.of_nat (length (digits 10 (mant x))) - 1) <= mant x
    < 10 ^ Z.of_nat (length (digits 10 (mant x)))
  /\ 0 < Z.of_nat (length (digits 10 (mant x))).
Proof.
  intros Hm. destruct (digits_spec (mant x) Hm) as (Hdec & Hval & d & t & Hds & Hd).
  pose proof (digits_value_bound _ Hdec) as Hb. rewrite Hval in Hb.
  rewrite Hds in Hdec. pose proof (digits_value_lower d t Hdec Hd) as Hl.
  rewrite <- Hds, Hval in Hl. rewrite Hds in *. cbn [length] in *.
  replace (Z.of_nat (S (length t)) - 1) with (Z.of_nat (length t)) by lia. lia.
Qed.

Lemma byte_range_positive (x : dec) :
  leb (Dec 1 (-6)) x = true -> 0 < mant x.
Proof.
  unfold leb, scaled. cbn [mant expo]. intros H. apply Z.leb_le in H.
  set (e0 := Z.min (-6) (expo x)) in *.
  pose proof (pow10_pos (-6 - e0) ltac:(lia)).
  pose proof (pow10_pos (expo x - e0) ltac:(lia)). nia.
Qed.

Lemma byte_range_point (x : dec) :
  leb (Dec 1 (-6)) x = true -> ltb x (of_Z 256) = true -> -6 < point x <= 21.
Proof.
  intros Hle Hlt. pose proof (byte_range_positive x Hle) as Hm.
  destruct (mant_digits_bounds x Hm) as [[Hlow Hup] HL].
  unfold point. set (L := Z.of_nat (length (digits 10 (mant x)))) in *.
  set (e := expo x) in *. split.
  - destruct (Z.lt_ge_cases (-6) (L + e)) as [| Hbad]; [done | exfalso].
    unfold leb, scaled in Hle. cbn [mant expo] in Hle. fold e in Hle.
    apply Z.leb_le in Hle. rewrite Z.min_r in Hle by lia.
    rewrite Z.sub_diag, Z.mul_1_l in Hle. simpl in Hle.
    assert (10 ^ L <= 10 ^ (-6 - e)) by (apply Z.pow_le_mono_r; lia). lia.
  - destruct (Z.le_gt_cases (L + e) 21) as [| Hbad]; [done | exfalso].
    unfold ltb, scaled in Hlt. cbn [mant expo of_Z] in Hlt. fold e in Hlt.
    apply Z.ltb_lt in Hlt.
    destruct (Z.le_gt_cases 0 e) as [He | He].
    + rewrite Z.min_r in Hlt by lia. rewrite Z.sub_0_r in Hlt. simpl in Hlt.
      assert (10 ^ 3 <= 10 ^ (L - 1 + e)) by (apply Z.pow_le_mono_r; lia).
      rewrite pow10_split in * by lia. nia.
    + rewrite Z.min_l in Hlt by lia. rewrite Z.sub_diag in Hlt. simpl in Hlt.
      rewrite Z.sub_0_l in Hlt.
      assert (10 ^ 3 <= 10 ^ (L - 1 + e)) by (apply Z.pow_le_mono_r; lia).
      replace (L - 1) with ((L - 1 + e) + - e) in Hlow by lia.
      rewrite pow10_split in Hlow by lia.
      pose proof (pow10_pos (- e) ltac:(lia)). nia.
Qed.

Lemma byte_range_floor (x : dec) :
  byte_range x -> 0 <= floor x < 256.
Proof.
  intros [Hz | [Hle Hlt]]; unfold floor.
  - rewrite Hz. destruct (0 <=? expo x); rewrite ?Z.mul_0_l, ?Zdiv_0_l; lia.
  - pose proof (byte_range_positive x Hle) as Hm.
    unfold ltb, scaled in Hlt. cbn [mant expo of_Z] in Hlt. apply Z.ltb_lt in Hlt.
    destruct (Z.leb_spec 0 (expo x)) as [He | He].
    + rewrite Z.min_r in Hlt by lia. rewrite Z.sub_0_r in Hlt. simpl in Hlt.
      pose proof (pow10_pos (expo x) He). nia.
    + rewrite Z.min_l in Hlt by lia. rewrite Z.sub_diag in Hlt. simpl in Hlt.
      rewrite Z.sub_0_l in Hlt. pose proof (pow10_pos (- expo x) ltac:(lia)).
      split; [apply Z.div_pos; lia |]. apply Z.div_lt_upper_bound; lia.
Qed.

(** A byte in hexadecimal, padded to two characters. *)
Lemma int_to_string_byte (n : Z) :
  0 <= n < 256 ->
  (let hex := int_to_string 16 n in
   if Nat.eqb (length hex) 1 then "0"%char :: hex else hex) = hex2 n.
Proof.
  intros Hn.
  assert (Hall : forallb
            (fun k => bool_decide
               ((let hex := int_to_string 16 (Z.of_nat k) in
                 if Nat.eqb (length hex) 1 then "0"%char :: hex else hex)
                = hex2 (Z.of_nat k)))
            (seq 0 256) = true) by (vm_compute; reflexivity).
  rewrite forallb_forall in Hall.
  specialize (Hall (Z.to_nat n)). rewrite Z2Nat.id in Hall by lia.
  apply bool_decide_eq_true in Hall; [done |].
  apply in_seq. lia.
Qed.

(** The two characters written for a component in the byte range. *)
Lemma hex_component_byte (x : dec) :
  byte_range x -> hex_component (CNumber x) = hex2 (floor x).
Proof.
  intros Hx. pose proof (byte_range_floor x Hx) as Hf.
  unfold hex_component, js_to_string.
  assert (Hparse : parseInt (to_string x) 10 = Some (floor x)).
  { destruct Hx as [Hz | [Hle Hlt]].
    - assert (Hfloor : floor x = 0).
      { unfold floor. rewrite Hz.
        destruct (0 <=? expo x); rewrite ?Z.mul_0_l, ?Zdiv_0_l; lia. }
      rewrite Hfloor. unfold to_string. by rewrite Hz.
    - apply parseInt_to_string; [by apply byte_range_positive |].
      by apply byte_range_point. }
  rewrite Hparse. by apply int_to_string_byte.
Qed.

(** The product of an opacity of 1, for a color of three components. *)
Lemma opaque_product : Binary64.mul (of_Z 1) (of_Z 255) = Binary64.Finite (of_Z 255).
Proof. vm_compute. reflexivity. Qed.

Lemma writeColor_four (r g b a : dec) :
  writeColorTextNode [r; g; b; a] =
    hex_component (component_of (Binary64.mul a (of_Z 255)))
      ++ hex_component (CNumber b) ++ hex_component (CNumber g)
      ++ hex_component (CNumber r).
Proof.
  unfold writeColorTextNode, color_get.
  cbn [length Nat.eqb lookup list_lookup map concat]. by rewrite app_nil_r.
Qed.

Lemma writeColor_three (r g b : dec) :
  writeColorTextNode [r; g; b] =
    hex_component (CNumber (of_Z 255))
      ++ hex_component (CNumber b) ++ hex_component (CNumber g)
      ++ hex_component (CNumber r).
Proof.
  unfold writeColorTextNode, color_get.
  cbn [length Nat.eqb lookup list_lookup map concat].
  by rewrite opaque_product, app_nil_r.
Qed.

(** C4, as amended: the writer emits the components in the order
    alpha * 255, blue, green, red (an opacity of 1 when the color has three
    components), without separators, where alpha * 255 is the product as
    the format of numbers rounds it.  A component that is 0 or lies
    between 0.000001 and 256 is written as its integer part, from 0 to
    255, in two hexadecimal digits in lower case: the value is truncated,
    not rounded. *)
Theorem writeColor_bytes (r g b a p : dec) :
  Binary64.mul a (of_Z 255) = Binary64.Finite p ->
  byte_range p -> byte_range b -> byte_range g -> byte_range r ->
  writeColorTextNode [r; g; b; a] =
    hex2 (floor p) ++ hex2 (floor b) ++ hex2 (floor g) ++ hex2 (floor r)
  /\ writeColorTextNode [r; g; b] =
       hex2 255 ++ hex2 (floor b) ++ hex2 (floor g) ++ hex2 (floor r)
  /\ Forall (fun x => 0 <= floor x < 256) [p; b; g; r].
Proof.
  intros Hp Ha Hb Hg Hr. split; [| split].
  - rewrite writeColor_four, Hp. cbn [component_of].
    by rewrite (hex_component_byte _ Ha), (hex_component_byte _ Hb),
      (hex_component_byte _ Hg), (hex_component_byte _ Hr).
  - rewrite writeColor_three.
    rewrite (hex_component_byte (of_Z 255)) by (right; split; reflexivity).
    by rewrite (hex_component_byte _ Hb), (hex_component_byte _ Hg),
      (hex_component_byte _ Hr).
  - repeat (constructor; [by apply byte_range_floor |]). constructor.
Qed.

Lemma writeColor_bytes_witness :
  Binary64.mul (Dec 5 (-1)) (of_Z 255) = Binary64.Finite (Dec 1275 (-1))
  /\ byte_range (Dec 1275 (-1)) /\ byte_range (of_Z 255)
  /\ byte_range (of_Z 0) /\ byte_range (of_Z 16)
  /\ writeColorTextNode Sample.half_transparent = of_string "7fff0010".
Proof.
  assert (Hp : Binary64.mul (Dec 5 (-1)) (of_Z 255) = Binary64.Finite (Dec 1275 (-1)))
    by (vm_compute; reflexivity).
  assert (Ha : byte_range (Dec 1275 (-1))) by (right; split; reflexivity).
  assert (Hb : byte_range (of_Z 255)) by (right; split; reflexivity).
  assert (Hg : byte_range (of_Z 0)) by (left; reflexivity).
  assert (Hr : byte_range (of_Z 16)) by (right; split; reflexivity).
  repeat (split; [assumption |]).
  exact (proj1 (writeColor_bytes (of_Z 16) (of_Z 0) (of_Z 255) (Dec 5 (-1))
                  (Dec 1275 (-1)) Hp Ha Hb Hg Hr)).
Defined.

(** C4 as stated fails for an opacity of 0.999: alpha * 255 is 254.745,
    which rounds to 255, and the writer emits [fe]; and it fails for a red
    channel of 300, which is not clamped to 255 but written with three
    digits. *)
Lemma writeColor_does_not_round :
  writeColorTextNode Sample.almost_opaque = of_string "fe000000"
  /\ writeColor_rounded (of_Z 0) (of_Z 0) (of_Z 0) (Dec 999 (-3)) = of_string "ff000000"
  /\ writeColorTextNode Sample.almost_opaque
       <> writeColor_rounded (of_Z 0) (of_Z 0) (of_Z 0) (Dec 999 (-3))
  /\ writeColorTextNode Sample.too_red = of_string "ff000012c".
Proof.
  split; [vm_compute; reflexivity |]. split; [reflexivity |].
  split; [vm_compute; discriminate | vm_compute; reflexivity].
Qed.

(** The product is rounded as the format of numbers rounds it: for the
    opacity 0.00392156862745098, the number nearest to 1/255, it is 1, and
    the writer emits [01]. *)
Example writeColor_rounds_the_product :
  Binary64.mul (Dec 392156862745098 (-17)) (of_Z 255) = Binary64.Finite (of_Z 1)
  /\ writeColorTextNode [of_Z 0; of_Z 0; of_Z 0; Dec 392156862745098 (-17)]
     = of_string "01000000".
Proof. split; vm_compute; reflexivity. Qed.

(** Outside the byte range nothing is kept in two digits or in
    hexadecimal digits: 1e21, whose notation has an exponent, is written
    as the 1 [parseInt] reads from it, and -1 with its sign. *)
Example writeColor_outside_the_byte_range :
  writeColorTextNode [Dec 1 21; of_Z 0; of_Z (-1)] = of_string "ff-10001".
Proof. vm_compute. reflexivity. Qed.

(** C3, evaluated where the code leaves the claim.  For an opacity of one
    billionth, alpha * 255 is 0.000000255, in exact arithmetic and as the
    format of numbers rounds the product; its decimal notation is
    [2.55e-7]; [parseInt] reads the integer 2 from it, the alpha byte is
    written as [02], and the color read back has the opacity 2/255, which
    is farther than 1/255 from the opacity written. *)
Theorem color_round_trip_faint :
  to_string (mul (Dec 1 (-9)) (of_Z 255)) = of_string "2.55e-7"
  /\ writeColorTextNode Sample.faint = of_string "02000000"
  /\ readColor (writeColorTextNode Sample.faint) = Some (Color 0 0 0 (2 # 255))
  /\ ~ (Qabs ((2 # 255) - to_Q (Dec 1 (-9))) <= 1 # 255)%Q
  /\ Binary64.mul (Dec 1 (-9)) (of_Z 255) = Binary64.Finite (Dec 255 (-9)).
Proof.
  split; [reflexivity |]. split; [vm_compute; reflexivity |].
  split; [vm_compute; reflexivity |].
  split; [| vm_compute; reflexivity].
  intros H. vm_compute in H. by apply H.
Qed.

(** ** The round trip of a color *)

Lemma hex2_facts (n : Z) :
  0 <= n < 256 ->
  all_hex (hex2 n)
  /\ byte_of (digit_char (n / 16)) (digit_char (n mod 16)) = n.
Proof.
  intros Hn.
  assert (Hall : forallb
            (fun k => let n := Z.of_nat k in
               forallb is_hex (hex2 n)
               && (byte_of (digit_char (n / 16)) (digit_char (n mod 16)) =? n))
            (seq 0 256) = true) by (vm_compute; reflexivity).
  rewrite forallb_forall in Hall.
  specialize (Hall (Z.to_nat n)). rewrite Z2Nat.id in Hall by lia.
  cbv zeta in Hall. apply andb_true_iff in Hall as [Hhex Hbyte]; [| apply in_seq; lia].
  split; [| by apply Z.eqb_eq].
  unfold all_hex. apply Forall_forall. intros a Ha.
  rewrite forallb_forall in Hhex. apply Hhex. by apply list_elem_of_In.
Qed.

(** Reading back the eight digits of four bytes. *)
Lemma readColor_hex2 (a b g r : Z) :
  0 <= a < 256 -> 0 <= b < 256 -> 0 <= g < 256 -> 0 <= r < 256 ->
  readColor (hex2 a ++ hex2 b ++ hex2 g ++ hex2 r) = Some (Color r g b (a # 255)).
Proof.
  intros Ha Hb Hg Hr. apply readColor_spec.
  destruct (hex2_facts a Ha) as [Hha Hba]. destruct (hex2_facts b Hb) as [Hhb Hbb].
  destruct (hex2_facts g Hg) as [Hhg Hbg]. destruct (hex2_facts r Hr) as [Hhr Hbr].
  exists [], [], [], (digit_char (a / 16)), (digit_char (a mod 16)),
    (digit_char (b / 16)), (digit_char (b mod 16)),
    (digit_char (g / 16)), (digit_char (g mod 16)),
    (digit_char (r / 16)), (digit_char (r mod 16)), [].
  split; [| by rewrite Hba, Hbb, Hbg, Hbr].
  unfold color_text, all_space.
  split; [reflexivity |]. split; [constructor |]. split; [by left |].
  split; [constructor |]. split; [reflexivity |]. split; [| constructor].
  unfold all_hex, hex2 in *.
  repeat match goal with
         | H : Forall _ (_ :: _) |- _ => apply Forall_cons in H as [? H]
         end.
  repeat (constructor; [assumption |]). constructor.
Qed.

Lemma byte_range_of_Z (n : Z) :
  0 <= n <= 255 -> byte_range (of_Z n) /\ floor (of_Z n) = n.
Proof.
  intros Hn. split.
  - destruct (Z.eq_dec n 0) as [-> | Hne]; [by left |]. right.
    unfold leb, ltb, scaled, of_Z. cbn [mant expo]. split.
    + apply Z.leb_le. change (Z.min (-6) 0) with (-6).
      change (10 ^ (-6 - -6)) with 1. change (10 ^ (0 - -6)) with 1000000. lia.
    + apply Z.ltb_lt. change (Z.min 0 0) with 0. change (10 ^ (0 - 0)) with 1. lia.
  - unfold floor, of_Z. cbn [mant expo]. change (0 <=? 0) with true.
    change (10 ^ 0) with 1. cbv iota. lia.
Qed.

(** Outside the defect of C3 the round trip holds: for channels that are
    integers from 0 to 255 and an opacity whose product with 255, as the
    format rounds it, is 0 or at least 0.000001 (and below 256), the color
    read back has the same channels, and the integer part of the product,
    over 255, as opacity. *)
Lemma color_round_trip (r g b : Z) (a p : dec) :
  0 <= r <= 255 -> 0 <= g <= 255 -> 0 <= b <= 255 ->
  Binary64.mul a (of_Z 255) = Binary64.Finite p -> byte_range p ->
  readColor (writeColorTextNode [of_Z r; of_Z g; of_Z b; a]) =
    Some (Color r g b (floor p # 255)).
Proof.
  intros Hr Hg Hb Hp Ha.
  destruct (byte_range_of_Z r Hr) as [Hr' Hfr].
  destruct (byte_range_of_Z g Hg) as [Hg' Hfg].
  destruct (byte_range_of_Z b Hb) as [Hb' Hfb].
  rewrite writeColor_four, Hp. cbn [component_of].
  rewrite (hex_component_byte _ Ha), (hex_component_byte _ Hb'),
    (hex_component_byte _ Hg'), (hex_component_byte _ Hr').
  rewrite Hfr, Hfg, Hfb.
  apply readColor_hex2; try lia. by apply byte_range_floor.
Qed.

(** ** Tracks with no more timestamps than positions *)

Lemma setWhens_from (ws : list jsval) :
  forall (pre : list jsval) (ps : list (jsval * jsval * jsval))
         (whens : list jsval) (k : nat),
    length pre = (4 * k)%nat -> (length ws <= length ps)%nat ->
    (forall i, (i < length ws)%nat -> whens !! (k + i)%nat = ws !! i) ->
    fold_left (fun fc i => array_set (4 * i + 3) (array_get i whens) fc)
              (seq k (length ws)) (pre ++ track_positions ps)
    = pre ++ zipTrack (take (length ws) ps) ws
          ++ track_positions (drop (length ws) ps).
Proof.
  induction ws as [| w ws IH]; intros pre ps whens k Hpre Hlen Hwhens.
  - simpl. by rewrite ?take_0, ?drop_0.
  - destruct ps as [| [[x y] z] ps]; [simpl in Hlen; lia |].
    cbn [length seq fold_left].
    assert (Hw : array_get k whens = w).
    { unfold array_get. specialize (Hwhens 0%nat ltac:(simpl; lia)).
      rewrite Nat.add_0_r in Hwhens. by rewrite Hwhens. }
    rewrite Hw.
    assert (Hset : array_set (4 * k + 3) w (pre ++ track_positions ((x, y, z) :: ps))
                   = (pre ++ [x; y; z; w]) ++ track_positions ps).
    { unfold array_set, track_positions. cbn [map concat].
      match goal with
      | |- context [(?a <? ?b)%nat] => destruct (Nat.ltb_spec a b) as [_ | Hbad]
      end.
      2:{ exfalso. rewrite !length_app in Hbad. simpl in Hbad. lia. }
      rewrite insert_app_r_alt by lia.
      replace (4 * k + 3 - length pre)%nat with 3%nat by lia.
      by rewrite <- app_assoc. }
    rewrite Hset.
    rewrite (IH (pre ++ [x; y; z; w]) ps whens (S k)).
    + cbn [take drop zipTrack]. by rewrite <- !app_assoc.
    + rewrite length_app. simpl. lia.
    + simpl in Hlen. lia.
    + intros i Hi. specialize (Hwhens (S i) ltac:(simpl; lia)).
      replace (S k + i)%nat with (k + S i)%nat by lia. exact Hwhens.
Qed.

Lemma length_track_positions (ps : list (jsval * jsval * jsval)) :
  length (track_positions ps) = (4 * length ps)%nat.
Proof.
  unfold track_positions. induction ps as [| [[x y] z] ps IH]; [done |].
  simpl in *. lia.
Qed.

(** When a track has no more timestamps than positions, the loop of
    [readGxTrack] stores each timestamp with its position; the positions
    after the last timestamp stay, with 0 for a timestamp. *)
Lemma setWhens_zip (ps : list (jsval * jsval * jsval)) (ws : list jsval) :
  (length ws <= length ps)%nat ->
  setWhens (Nat.min (length (track_positions ps)) (length ws)) ws (track_positions ps)
  = zipTrack (take (length ws) ps) ws ++ track_positions (drop (length ws) ps).
Proof.
  intros Hlen.
  pose proof (length_track_positions ps) as Hflat.
  rewrite Hflat, Nat.min_r by lia. unfold setWhens.
  apply (setWhens_from ws [] ps ws 0); [done | done | by intros].
Qed.

Section TrackDecoding.

Context (Date_parse : string -> option Z).

Lemma kml_namespace_not_gx (ns : option string) :
  includes NAMESPACE_URIS ns = true -> includes GX_NAMESPACE_URIS ns = false.
Proof.
  unfold includes. intros H. apply bool_decide_eq_true in H.
  apply bool_decide_eq_false. intros Hgx.
  unfold NAMESPACE_URIS, GX_NAMESPACE_URIS in *.
  apply list_elem_of_singleton in Hgx as ->.
  repeat (apply elem_of_cons in H as [H | H]; [discriminate |]).
  by apply not_elem_of_nil in H.
Qed.

(** The parsers of a track collect its positions and its timestamps. *)
Lemma parse_track_children ns name attrs (cs : list node) :
  let n := Element ns name attrs cs in
  parseNode (GX_TRACK_PARSERS Date_parse) n
    {| GxTrack.flatCoordinates := []; GxTrack.whens := [] |}
  = Ok {| GxTrack.flatCoordinates := track_positions (track_coords n);
          GxTrack.whens := track_whens Date_parse n |}.
Proof.
  induction cs as [| c cs IH] using rev_ind; intros n; subst n; [reflexivity |].
  rewrite parseNode_app, IH, bind_Ok. clear IH.
  unfold track_coords, track_whens. cbn [children_of].
  rewrite !omap_app. cbn [omap list_omap].
  destruct c as [t | cns cname cattrs ckids].
  { rewrite !app_nil_r. reflexivity. }
  rewrite parseNode_singleton.
  unfold dispatch_of, GX_TRACK_PARSERS, makeStructureNS.
  destruct (includes NAMESPACE_URIS cns) eqn:Hkml; cbn [negb andb].
  - rewrite (kml_namespace_not_gx _ Hkml). cbn [structure_lookup andb].
    destruct (String.eqb cname "when") eqn:Hwhen.
    + unfold whenParser. cbn [GxTrack.flatCoordinates GxTrack.whens].
      by rewrite app_nil_r.
    + by rewrite !app_nil_r.
  - destruct (includes GX_NAMESPACE_URIS cns) eqn:Hgx; cbn [andb].
    + cbn [structure_lookup].
      destruct (String.eqb cname "coord") eqn:Hcoord.
      * unfold gxCoordParser, coord_of. cbn [GxTrack.flatCoordinates GxTrack.whens].
        rewrite app_nil_r. unfold track_positions. rewrite map_app, concat_app.
        by destruct (exec GX_COORD_RE _).
      * by rewrite !app_nil_r.
    + by rewrite !app_nil_r.
Qed.

(** C7, as amended: for a track with no more timestamps than positions,
    the result is one line string of layout XYZM with a vertex for each
    position, in the order of the document; the fourth component of the
    first vertices is the timestamp of the same rank, in milliseconds (0
    when its text is no date), and that of the vertices after the last
    timestamp is 0: positions without timestamp are kept. *)
Theorem readGxTrack_zip (n : node) :
  (length (track_whens Date_parse n) <= length (track_coords n))%nat ->
  readGxTrack Date_parse n =
    Ok (Some (LineString XYZM
                (zipTrack (take (length (track_whens Date_parse n)) (track_coords n))
                          (track_whens Date_parse n)
                 ++ track_positions
                      (drop (length (track_whens Date_parse n)) (track_coords n)))
                ∅)).
Proof.
  intros Hlen. unfold readGxTrack, pushParseAndPop.
  destruct n as [t | ns name attrs cs].
  - reflexivity.
  - rewrite parse_track_children, bind_Ok.
    cbn [GxTrack.flatCoordinates GxTrack.whens].
    by rewrite setWhens_zip.
Qed.

End TrackDecoding.

Lemma readGxTrack_zip_witness :
  (length (track_whens Sample.epoch_2018 Sample.track_2_coords_1_when)
   <= length (track_coords Sample.track_2_coords_1_when))%nat
  /\ readGxTrack Sample.epoch_2018 Sample.track_2_coords_1_when =
       Ok (Some (LineString XYZM
                   [Sample.one; Sample.two; Sample.three; Num (of_Z 1514764800000);
                    Sample.four; Sample.five; Sample.six; Sample.zero] ∅)).
Proof.
  split; [vm_compute; lia |].
  apply (readGxTrack_zip Sample.epoch_2018 Sample.track_2_coords_1_when).
  vm_compute. lia.
Defined.

(** C7 as stated fails for a track with two positions and one timestamp:
    the second position is not dropped, the line string has two vertices
    where zipping by index gives one. *)
Lemma readGxTrack_keeps_positions :
  readGxTrack Sample.epoch_2018 Sample.track_2_coords_1_when =
    Ok (Some (LineString XYZM
                [Sample.one; Sample.two; Sample.three; Num (of_Z 1514764800000);
                 Sample.four; Sample.five; Sample.six; Sample.zero] ∅))
  /\ zipTrack (track_coords Sample.track_2_coords_1_when)
              (track_whens Sample.epoch_2018 Sample.track_2_coords_1_when)
     = [Sample.one; Sample.two; Sample.three; Num (of_Z 1514764800000)].
Proof. split; reflexivity. Qed.

(** With as many timestamps as positions the result is the zip. *)
Corollary readGxTrack_same_length (Date_parse : string -> option Z) (n : node) :
  length (track_whens Date_parse n) = length (track_coords n) ->
  readGxTrack Date_parse n =
    Ok (Some (LineString XYZM
                (zipTrack (track_coords n) (track_whens Date_parse n)) ∅)).
Proof.
  intros Hlen. unfold readGxTrack, pushParseAndPop.
  destruct n as [t | ns name attrs cs].
  - reflexivity.
  - rewrite parse_track_children, bind_Ok.
    cbn [GxTrack.flatCoordinates GxTrack.whens].
    rewrite setWhens_zip by lia.
    rewrite Hlen, take_ge, drop_ge by lia. by rewrite app_nil_r.
Qed.

(** ** Colors read and written *)

Lemma byte_of_range (hi lo : ascii) :
  is_hex hi = true -> is_hex lo = true -> 0 <= byte_of hi lo <= 255.
Proof.
  intros Hhi Hlo. unfold byte_of.
  destruct (hex_char_facts hi Hhi) as (_ & _ & _ & _ & _ & _ & _ & ?).
  destruct (hex_char_facts lo Hlo) as (_ & _ & _ & _ & _ & _ & _ & ?).
  lia.
Qed.

(** The bytes behind a color read. *)
Lemma readColor_bytes (s : text) (c : color) :
  readColor s = Some c ->
  exists a1 a2 b1 b2 g1 g2 r1 r2,
    all_hex [a1; a2; b1; b2; g1; g2; r1; r2]
    /\ c = Color (byte_of r1 r2) (byte_of g1 g2) (byte_of b1 b2)
                 (byte_of a1 a2 # 255).
Proof.
  intros Hread.
  destruct (exec COLOR_RE s) as [m |] eqn:Hexec;
    [| unfold readColor in Hread; rewrite Hexec in Hread; discriminate].
  destruct (exec_sound _ _ _ Hexec) as [Hs Hm].
  apply color_re_inv in Hm as (w1 & hash & w2 & h & w3 & Htext & Hrest & Hgroup).
  pose proof Htext as (_ & _ & _ & _ & Hlen & Hhex & _).
  do 8 (destruct h as [| ? h]; [discriminate |]). destruct h; [| discriminate].
  rewrite (readColor_of_match s m _ _ _ _ _ _ _ _ Hexec Hgroup Hhex) in Hread.
  injection Hread as <-. eexists _, _, _, _, _, _, _, _. by split.
Qed.

(** X1: every color [readColor] returns has red, green and blue channels
    that are integers from 0 to 255 and an opacity that is such an integer
    over 255, hence from 0 to 1. *)
Theorem readColor_range (s : text) (c : color) :
  readColor s = Some c ->
  0 <= red c <= 255 /\ 0 <= green c <= 255 /\ 0 <= blue c <= 255
  /\ exists a, 0 <= a <= 255 /\ alpha c = (a # 255)%Q
               /\ (0 <= alpha c)%Q /\ (alpha c <= 1)%Q.
Proof.
  intros H. apply readColor_bytes in H
    as (a1 & a2 & b1 & b2 & g1 & g2 & r1 & r2 & Hhex & ->).
  unfold all_hex in Hhex. rewrite !Forall_cons in Hhex.
  destruct Hhex as (Ha1 & Ha2 & Hb1 & Hb2 & Hg1 & Hg2 & Hr1 & Hr2 & _).
  cbn [red green blue alpha].
  pose proof (byte_of_range a1 a2 Ha1 Ha2) as Ha.
  split; [by apply byte_of_range |]. split; [by apply byte_of_range |].
  split; [by apply byte_of_range |].
  exists (byte_of a1 a2). split; [done |]. split; [done |].
  unfold Qle. cbn [Qnum Qden]. lia.
Qed.

Lemma readColor_range_witness :
  readColor (of_string "7fff0010") = Some (Color 16 0 255 (127 # 255))
  /\ 0 <= 16 <= 255 /\ 0 <= 0 <= 255 /\ 0 <= 255 <= 255
  /\ exists a, 0 <= a <= 255 /\ (127 # 255 = a # 255)%Q
               /\ (0 <= 127 # 255)%Q /\ (127 # 255 <= 1)%Q.
Proof.
  split; [reflexivity |].
  exact (readColor_range (of_string "7fff0010") (Color 16 0 255 (127 # 255)) eq_refl).
Defined.

(** X2: for red, green and blue channels that are integers from 0 to 255
    and an opacity whose product with 255, as the format of numbers rounds
    it, is 0 or lies between 0.000001 and 256, the color read back from
    the text [writeColorTextNode] writes has the same three channels, and
    as its opacity the integer part of that product, over 255. *)
Theorem color_write_read (r g b : Z) (a p : dec) :
  0 <= r <= 255 -> 0 <= g <= 255 -> 0 <= b <= 255 ->
  Binary64.mul a (of_Z 255) = Binary64.Finite p -> byte_range p ->
  exists c,
    readColor (writeColorTextNode [of_Z r; of_Z g; of_Z b; a]) = Some c
    /\ red c = r /\ green c = g /\ blue c = b
    /\ alpha c = (floor p # 255)%Q /\ 0 <= floor p <= 255.
Proof.
  intros Hr Hg Hb Hp Ha.
  exists (Color r g b (floor p # 255)).
  split; [by eapply color_round_trip |].
  cbn [red green blue alpha]. repeat split.
  all: apply byte_range_floor in Ha; lia.
Qed.

Lemma color_write_read_witness :
  0 <= 16 <= 255 /\ 0 <= 0 <= 255 /\ 0 <= 255 <= 255
  /\ Binary64.mul (Dec 392156862745098 (-17)) (of_Z 255) = Binary64.Finite (of_Z 1)
  /\ byte_range (of_Z 1)
  /\ exists c,
       readColor (writeColorTextNode
                    [of_Z 16; of_Z 0; of_Z 255; Dec 392156862745098 (-17)]) = Some c
       /\ red c = 16 /\ green c = 0 /\ blue c = 255
       /\ alpha c = (floor (of_Z 1) # 255)%Q /\ 0 <= floor (of_Z 1) <= 255.
Proof.
  assert (Hp : Binary64.mul (Dec 392156862745098 (-17)) (of_Z 255)
               = Binary64.Finite (of_Z 1)) by (vm_compute; reflexivity).
  assert (Ha : byte_range (of_Z 1)) by (right; split; reflexivity).
  repeat (split; [first [lia | exact Hp | exact Ha] |]).
  apply (color_write_read 16 0 255 (Dec 392156862745098 (-17)) (of_Z 1));
    [lia | lia | lia | exact Hp | exact Ha].
Defined.
(** ** Characters of decimal literals *)

Lemma digit_facts (a : ascii) :
  is_digit a = true ->
  is_space a = false /\ is_char "-" a = false /\ is_char "+" a = false
  /\ is_char "." a = false /\ is_e a = false /\ is_char "," a = false
  /\ is_sign a = false /\ 0 <= dval a < 10.
Proof.
  destruct a as [[|] [|] [|] [|] [|] [|] [|] [|]]; vm_compute;
    first [discriminate | intros _; repeat split; congruence].
Qed.

Lemma e_facts (a : ascii) :
  is_e a = true ->
  is_space a = false /\ is_char "-" a = false /\ is_char "+" a = false
  /\ is_char "." a = false /\ is_digit a = false /\ is_char "," a = false.
Proof.
  destruct a as [[|] [|] [|] [|] [|] [|] [|] [|]]; vm_compute;
    first [discriminate | intros _; repeat split; congruence].
Qed.

Lemma sign_facts (a : ascii) :
  is_sign a = true -> a = "-"%char \/ a = "+"%char.
Proof.
  unfold is_sign. intros H. apply orb_true_iff in H as [H | H];
    apply is_char_eq in H; auto.
Qed.

Lemma sign_text_of (a : ascii) : is_sign a = true -> sign_text [a].
Proof. intros H. destruct (sign_facts a H) as [-> | ->]; [right; by left | right; by right]. Qed.

Lemma take_digits_app (w tail : text) :
  all_digit w ->
  match tail with a :: _ => is_digit a = false | [] => True end ->
  take_digits (w ++ tail) = (map dval w, tail).
Proof.
  intros Hw Htail. induction Hw as [| a w Ha Hw IH]; simpl.
  - destruct tail as [| b tail]; [done |]. simpl. by rewrite Htail.
  - rewrite Ha, IH. reflexivity.
Qed.

(** [parseFloat] on a text that has the shape of a decimal literal: a
    sign, digits, a point followed by digits, and an exponent, each of them
    optional. *)
Lemma parseFloat_literal (sg w1 fr w2 ex esg w3 : text) (e : ascii) :
  sign_text sg -> all_digit w1 -> all_digit w2 -> all_digit w3 -> sign_text esg ->
  (fr = [] /\ w2 = [] \/ fr = "."%char :: w2) ->
  (ex = [] /\ esg = [] /\ w3 = [] \/ ex = e :: esg ++ w3 /\ is_e e = true) ->
  parseFloat (sg ++ w1 ++ fr ++ ex) =
    match map dval w1 ++ map dval w2 with
    | [] => NaN
    | ds =>
        Num (normalize
               (Dec (sgn sg * digits_value ds)
                    (sgn esg * digits_value (map dval w3) - Z.of_nat (length w2))))
    end.
Proof.
  intros Hsg Hw1 Hw2 Hw3 Hesg Hfr Hex.
  (* what follows the digits before the point does not start with a digit *)
  assert (Hex_head : match ex with a :: _ => is_digit a = false /\ is_char "." a = false
                                 | [] => True end).
  { destruct Hex as [(-> & _) | (-> & He)]; [done |].
    by destruct (e_facts e He) as (_ & _ & _ & ? & ? & _). }
  assert (Htail1 : match fr ++ ex with a :: _ => is_digit a = false | [] => True end).
  { destruct Hfr as [(-> & _) | ->]; simpl; [| reflexivity].
    destruct ex; [done | by destruct Hex_head]. }
  (* the exponent *)
  assert (Hexp :
    match ex with
    | a :: r =>
        if is_e a then
          let '(esign, r') :=
            match r with
            | b :: r0 =>
                if is_char "-" b then (-1, r0)
                else if is_char "+" b then (1, r0)
                else (1, r)
            | [] => (1, r)
            end in
          esign * digits_value (fst (take_digits r'))
        else 0
    | [] => 0
    end = sgn esg * digits_value (map dval w3)).
  { destruct Hex as [(-> & -> & ->) | (-> & He)]; [reflexivity |].
    rewrite He.
    assert (Hw3' : take_digits w3 = (map dval w3, [])).
    { rewrite <- (app_nil_r w3) at 1. by apply take_digits_app. }
    destruct Hesg as [-> | [-> | ->]]; simpl.
    - destruct w3 as [| b w3]; [reflexivity |].
      apply Forall_cons in Hw3 as [Hb Hw3].
      destruct (digit_facts b Hb) as (_ & -> & -> & _).
      by rewrite Hw3'.
    - by rewrite Hw3'.
    - by rewrite Hw3'. }
  (* the digits *)
  assert (Hbody : forall s2,
    s2 = w1 ++ fr ++ ex ->
    (let '(ids, r1) := take_digits s2 in
     let '(fds, r2) :=
       match r1 with
       | a :: r => if is_char "." a then take_digits r else ([], r1)
       | [] => ([], r1)
       end in
     (ids, fds, r2)) = (map dval w1, map dval w2, ex)).
  { intros s2 ->. rewrite take_digits_app by done.
    destruct Hfr as [(-> & ->) | ->]; simpl.
    - destruct ex as [| a ex]; [done |]. destruct Hex_head as [_ ->]. done.
    - rewrite take_digits_app; [done | done |].
      destruct ex; [done | by destruct Hex_head]. }
  unfold parseFloat.
  assert (Hstart : forall a s, sg ++ w1 ++ fr ++ ex = a :: s -> is_space a = false).
  { intros a s Heq.
    destruct Hsg as [-> | [-> | ->]]; simpl in Heq; try (injection Heq as <- _; done).
    destruct Hw1 as [| b w1 Hb Hw1]; simpl in Heq.
    - destruct Hfr as [(-> & _) | ->]; simpl in Heq; [| injection Heq as <- _; done].
      destruct Hex as [(-> & _) | (-> & He)]; [done |].
      injection Heq as <- _. by destruct (e_facts e He) as (? & _).
    - injection Heq as <- _. by destruct (digit_facts b Hb) as (? & _). }
  assert (Hskip : skip_space (sg ++ w1 ++ fr ++ ex) = sg ++ w1 ++ fr ++ ex).
  { destruct (sg ++ w1 ++ fr ++ ex) as [| a s] eqn:Heq; [done |].
    simpl. by rewrite (Hstart a s eq_refl). }
  cbv zeta. rewrite Hskip.
  match goal with
  | |- (let '(_, _) := ?m in _) = _ =>
      assert (Hsign : m = (sgn sg, w1 ++ fr ++ ex))
  end.
  { destruct Hsg as [-> | [-> | ->]]; simpl; try reflexivity.
    destruct Hw1 as [| b w1 Hb Hw1]; simpl.
    - destruct Hfr as [(-> & _) | ->]; simpl; [| reflexivity].
      destruct Hex as [(-> & _) | (-> & He)]; [done |].
      by destruct (e_facts e He) as (_ & -> & -> & _).
    - by destruct (digit_facts b Hb) as (_ & -> & -> & _). }
  rewrite Hsign.
  specialize (Hbody _ eq_refl).
  destruct (take_digits (w1 ++ fr ++ ex)) as [ids r1].
  destruct (match r1 with
            | a :: r => if is_char "." a then take_digits r else ([], r1)
            | [] => ([], r1)
            end) as [fds r2].
  injection Hbody as -> -> ->.
  destruct (map dval w1 ++ map dval w2) as [| d ds] eqn:Hds; [done |].
  rewrite Hexp, length_map. reflexivity.
Qed.
Lemma plus_inv (p : ascii -> bool) (w s' : text) (c : captures) :
  matches (Plus p) w s' c -> c = [] /\ w <> [] /\ Forall (fun a => p a = true) w.
Proof.
  unfold Plus. intros H. invert_matches. repeat split; [done |]. by constructor.
Qed.

Lemma number_re_inv (w s' : text) (c : captures) :
  matches NUMBER_RE w s' c ->
  c = [] /\
  exists sg w1 fr w2 ex esg w3 e,
    w = sg ++ w1 ++ fr ++ ex /\ sign_text sg /\ all_digit w1 /\ all_digit w2
    /\ all_digit w3 /\ sign_text esg
    /\ (fr = [] /\ w2 = [] \/ fr = "."%char :: w2)
    /\ (ex = [] /\ esg = [] /\ w3 = [] \/ ex = e :: esg ++ w3 /\ is_e e = true)
    /\ (w1 <> [] \/ w2 <> []).
Proof.
  unfold NUMBER_RE. simpl. intros H. invert_matches.
  all: repeat match goal with
              | H : matches (Plus _) _ _ _ |- _ => apply plus_inv in H as (-> & ? & ?)
              | H : is_char "." _ = true |- _ => apply is_char_eq in H as ->
              | H : is_sign _ = true |- _ => apply sign_text_of in H
              end.
  all: split; [reflexivity |].
  all: match goal with
       | |- exists sg w1 fr w2 ex esg w3 e,
              ?sg0 ++ ?w0 ++ ?dot ++ ?w3' ++ ?ex0 = _ /\ _ =>
           let k esg0 w70 e0 :=
             lazymatch dot with
             | [] => exists sg0, (w0 ++ w3'), [], [], ex0, esg0, w70, e0
             | _ => exists sg0, w0, ("."%char :: w3'), w3', ex0, esg0, w70, e0
             end in
           lazymatch ex0 with
           | [] => k (@nil ascii) (@nil ascii) "e"%char
           | [?e0] ++ ?esg0 ++ ?w70 => k esg0 w70 e0
           end
       end.
  all: unfold all_digit.
  all: repeat split; try done; try (by left); try (by apply Forall_app);
       try (by rewrite ?app_nil_r, <- ?app_assoc);
       try (by right); try (left; by repeat split).
  all: left; intros Happ; apply app_eq_nil in Happ as [_ ?]; done.
Qed.
Lemma number_re_number (w s' : text) (c : captures) :
  matches NUMBER_RE w s' c -> a_number (parseFloat w).
Proof.
  intros H. apply number_re_inv in H
    as (_ & sg & w1 & fr & w2 & ex & esg & w3 & e & -> & Hsg & Hw1 & Hw2 & Hw3 & Hesg
        & Hfr & Hex & Hne).
  rewrite (parseFloat_literal sg w1 fr w2 ex esg w3 e) by done.
  destruct (map dval w1 ++ map dval w2) as [| d ds] eqn:Hds; [| by eexists].
  apply app_eq_nil in Hds as [H1 H2].
  apply map_eq_nil in H1, H2. by destruct Hne.
Qed.

Lemma coordinates_re_inv (w s' : text) (c : captures) :
  matches COORDINATES_RE w s' c ->
  exists g1 g2 t1 t2 c1 c2 pre post,
    capture 1 c = Some g1 /\ capture 2 c = Some g2
    /\ matches NUMBER_RE g1 t1 c1 /\ matches NUMBER_RE g2 t2 c2
    /\ w = pre ++ g1 ++ post
    /\ (capture 3 c = None
        \/ exists g3 t3 c3, capture 3 c = Some g3 /\ matches NUMBER_RE g3 t3 c3).
Proof.
  unfold COORDINATES_RE. cbn [seqs]. intros H.
  repeat match goal with
         | H : matches (Seq _ _) _ _ _ |- _ => inversion H; subst; clear H
         | H : matches (Opt (Seq _ _)) _ _ _ |- _ => inversion H; subst; clear H
         | H : matches (Grp _ _) _ _ _ |- _ => inversion H; subst; clear H
         | H : matches (Star _) _ _ _ |- _ => inversion H; subst; clear H
         | H : matches (Cls _) _ _ _ |- _ => inversion H; subst; clear H
         end.
  all: repeat match goal with
              | H : matches NUMBER_RE _ _ ?c |- _ =>
                  lazymatch c with
                  | [] => fail
                  | _ => let H' := fresh in
                         pose proof (number_re_inv _ _ _ H) as [H' _]; subst c
                  end
              end.
  all: simpl.
  - eexists _, _, _, _, _, _, _, _. repeat split; try eassumption.
    right. eexists _, _, _. split; [reflexivity | eassumption].
  - eexists _, _, _, _, _, _, _, _. repeat split; try eassumption. by left.
Qed.

Lemma tuple_of_numbers (s : text) (m : match_result) :
  exec COORDINATES_RE s = Some m -> Forall a_number (tuple_of m) /\ length (tuple_of m) = 3%nat.
Proof.
  intros H. apply exec_sound in H as [_ H].
  apply coordinates_re_inv in H
    as (g1 & g2 & t1 & t2 & c1 & c2 & pre & post & H1 & H2 & Hg1 & Hg2 & _ & H3).
  split; [| reflexivity].
  unfold tuple_of, parseFloat_group, group. rewrite H1, H2.
  constructor; [by eapply number_re_number |].
  constructor; [by eapply number_re_number |].
  constructor; [| constructor].
  destruct H3 as [-> | (g3 & t3 & c3 & -> & Hg3)]; [by eexists |].
  destruct g3; [by eexists | by eapply number_re_number].
Qed.
Lemma readFlatCoordinates_inv (s : text) (l : list jsval) :
  readFlatCoordinates s = Some l -> scans s l [].
Proof.
  intros H. destruct (scans_total s) as (fc & r & Hscan).
  rewrite (readFlatCoordinates_scans s fc r Hscan) in H.
  destruct r; [| discriminate]. by injection H as <-.
Qed.

Lemma scans_tuples (s : text) (fc : list jsval) (r : text) :
  scans s fc r -> (exists n, length fc = (3 * n)%nat) /\ Forall a_number fc.
Proof.
  induction 1 as [s Hnone | s m fc r Hexec Hscan [[n Hn] IH]].
  - split; [by exists 0%nat | constructor].
  - destruct (tuple_of_numbers s m Hexec) as [Hfin Hlen]. split.
    + exists (S n). rewrite length_app, Hlen, Hn. lia.
    + by apply Forall_app.
Qed.

(** X3: the array [readFlatCoordinates] returns has three slots for each
    tuple read: its length is a multiple of 3. *)
Theorem readFlatCoordinates_stride (s : text) (l : list jsval) :
  readFlatCoordinates s = Some l -> exists n, length l = (3 * n)%nat.
Proof.
  intros H. apply readFlatCoordinates_inv in H. by apply scans_tuples in H as [? _].
Qed.

Lemma readFlatCoordinates_stride_witness :
  readFlatCoordinates (of_string "1,2 3,4,5") =
    Some [Num (of_Z 1); Num (of_Z 2); Num (of_Z 0); Num (of_Z 3); Num (of_Z 4); Num (of_Z 5)]
  /\ exists n, length [Num (of_Z 1); Num (of_Z 2); Num (of_Z 0);
                       Num (of_Z 3); Num (of_Z 4); Num (of_Z 5)] = (3 * n)%nat.
Proof.
  split; [reflexivity |].
  exact (readFlatCoordinates_stride (of_string "1,2 3,4,5") _ eq_refl).
Defined.

Lemma a_number_spec (v : jsval) : a_number v -> v <> NaN /\ v <> Undefined.
Proof. intros [x ->]. by split. Qed.

(** X4: no slot of the array [readFlatCoordinates] returns is NaN and none
    is left empty: the numbers of a tuple are texts [parseFloat] reads in
    full.  (For a literal beyond the range of the format, such as 1e400,
    the number is an infinity in the code; the model keeps its decimal.) *)
Theorem readFlatCoordinates_numbers (s : text) (l : list jsval) :
  readFlatCoordinates s = Some l -> Forall (fun v => v <> NaN /\ v <> Undefined) l.
Proof.
  intros H. apply readFlatCoordinates_inv in H. apply scans_tuples in H as [_ H].
  eapply Forall_impl; [exact H |]. apply a_number_spec.
Qed.

Lemma readFlatCoordinates_numbers_witness :
  readFlatCoordinates (of_string "-1.5e2,.5") =
    Some [Num (Dec (-15) 1); Num (Dec 5 (-1)); Num (of_Z 0)]
  /\ Forall (fun v => v <> NaN /\ v <> Undefined)
       [Num (Dec (-15) 1); Num (Dec 5 (-1)); Num (of_Z 0)].
Proof.
  split; [reflexivity |].
  exact (readFlatCoordinates_numbers (of_string "-1.5e2,.5") _ eq_refl).
Defined.

Lemma space_not_literal (a : ascii) :
  is_space a = true -> is_digit a = false.
Proof.
  intros Hs. destruct (is_digit a) eqn:Hd; [| done].
  apply digit_facts in Hd as [Hd _]. congruence.
Qed.

Lemma blank_no_tuple (s : text) : all_space s -> exec COORDINATES_RE s = None.
Proof.
  intros Hs. destruct (exec COORDINATES_RE s) as [m |] eqn:Hexec; [| done].
  exfalso. apply exec_sound in Hexec as [Heq Hm].
  apply coordinates_re_inv in Hm
    as (g1 & g2 & t1 & t2 & c1 & c2 & pre & post & _ & _ & Hg1 & _ & Hw & _).
  apply number_re_inv in Hg1
    as (_ & sg & w1 & fr & w2 & ex & esg & w3 & e & -> & _ & Hw1 & Hw2 & _ & _
        & Hfr & _ & Hne).
  assert (Hdigit : exists a, a ∈ s /\ is_digit a = true).
  { rewrite Heq, Hw.
    destruct Hne as [Hne | Hne].
    - destruct Hw1 as [| a w1 Ha _]; [done |]. exists a. split; [| done].
      rewrite !elem_of_app. left. right. left. right. left. left.
    - destruct Hfr as [[_ ->] | ->]; [done |].
      destruct Hw2 as [| a w2 Ha _]; [done |]. exists a. split; [| done].
      rewrite !elem_of_app. left. right. left. right. right. left.
      right. left. }
  destruct Hdigit as (a & Hin & Ha).
  unfold all_space in Hs. rewrite Forall_forall in Hs.
  apply Hs in Hin. apply space_not_literal in Hin. congruence.
Qed.

(** X5: [readFlatCoordinates] returns the empty array for the empty text
    only; a text of white space that is not empty gives no array
    ([undefined]), since no tuple matches and the text is left. *)
Theorem readFlatCoordinates_empty (s : text) :
  (readFlatCoordinates s = Some [] <-> s = [])
  /\ (all_space s -> s <> [] -> readFlatCoordinates s = None).
Proof.
  split; [split |].
  - intros H. apply readFlatCoordinates_inv in H.
    by inversion H.
  - intros ->. reflexivity.
  - intros Hs Hne.
    rewrite (readFlatCoordinates_scans s [] s (scans_end s (blank_no_tuple s Hs))).
    by destruct s.
Qed.

Lemma readFlatCoordinates_empty_witness :
  all_space (of_string " ") /\ of_string " " <> []
  /\ readFlatCoordinates (of_string " ") = None.
Proof.
  assert (Hs : all_space (of_string " ")) by (by repeat constructor).
  split; [exact Hs |]. split; [discriminate |].
  apply (readFlatCoordinates_empty (of_string " ")); [exact Hs | discriminate].
Defined.
(** ** Normal forms of decimals *)

Lemma normalize_fuel_pow (i : nat) :
  forall (fuel : nat) (v E : Z),
    v mod 10 <> 0 -> (i < fuel)%nat ->
    normalize_fuel fuel (v * 10 ^ Z.of_nat i) E = Dec v (E + Z.of_nat i).
Proof.
  induction i as [| i IH]; intros fuel v E Hv Hfuel.
  - destruct fuel as [| fuel]; [lia |]. simpl.
    rewrite Z.mul_1_r. destruct (Z.eqb_spec (v mod 10) 0); [done |].
    by rewrite Z.add_0_r.
  - destruct fuel as [| fuel]; [lia |]. cbn [normalize_fuel].
    rewrite Nat2Z.inj_succ, Z.pow_succ_r by lia.
    replace (v * (10 * 10 ^ Z.of_nat i)) with (v * 10 ^ Z.of_nat i * 10) by ring.
    rewrite Z_mod_mult. change (0 =? 0) with true. cbv iota.
    rewrite Z.div_mul by lia. rewrite IH by (done || lia). f_equal. lia.
Qed.

Lemma log2_pow10 (v : Z) (i : nat) :
  v <> 0 -> (i <= Z.to_nat (Z.log2 (Z.abs (v * 10 ^ Z.of_nat i))))%nat.
Proof.
  intros Hv.
  assert (H2 : 2 ^ Z.of_nat i <= Z.abs (v * 10 ^ Z.of_nat i)).
  { rewrite Z.abs_mul.
    assert (0 < 10 ^ Z.of_nat i) by (apply Z.pow_pos_nonneg; lia).
    assert (2 ^ Z.of_nat i <= 10 ^ Z.of_nat i) by (apply Z.pow_le_mono_l; lia).
    rewrite (Z.abs_eq (10 ^ _)) by lia. nia. }
  assert (Hlog : Z.of_nat i <= Z.log2 (Z.abs (v * 10 ^ Z.of_nat i))).
  { apply Z.log2_le_pow2; [| done].
    assert (0 < 2 ^ Z.of_nat i) by (apply Z.pow_pos_nonneg; lia). lia. }
  lia.
Qed.

(** The normal form of [v * 10 ^ i * 10 ^ E], for [v] without zero at its
    end. *)
Lemma normalize_pow (v E : Z) (i : nat) :
  v mod 10 <> 0 -> normalize (Dec (v * 10 ^ Z.of_nat i) E) = Dec v (E + Z.of_nat i).
Proof.
  intros Hv.
  assert (Hv0 : v <> 0) by (intros ->; by rewrite Zmod_0_l in Hv).
  unfold normalize. cbn [mant expo].
  assert (0 < 10 ^ Z.of_nat i) by (apply Z.pow_pos_nonneg; lia).
  destruct (Z.eqb_spec (v * 10 ^ Z.of_nat i) 0); [nia |].
  apply normalize_fuel_pow; [done |].
  pose proof (log2_pow10 v i Hv0). lia.
Qed.

Lemma normalize_fuel_value (fuel : nat) (m e : Z) :
  (to_Q (normalize_fuel fuel m e) == to_Q (Dec m e))%Q.
Proof.
  revert m e. induction fuel as [| fuel IH]; intros m e; [reflexivity |].
  cbn [normalize_fuel]. destruct (Z.eqb_spec (m mod 10) 0) as [Hm |]; [| reflexivity].
  rewrite IH.
  assert (Hdiv : m = 10 * (m / 10)) by (pose proof (Z.div_mod m 10); lia).
  set (q := m / 10) in *. clearbody q. subst m.
  unfold to_Q. cbn [mant expo].
  destruct (Z.leb_spec 0 e); destruct (Z.leb_spec 0 (e + 1)); try lia.
  - rewrite Z.pow_add_r by lia. unfold Qeq. cbn [Qnum Qden inject_Z]. lia.
  - assert (e = -1) by lia. subst e. unfold Qeq. cbn. lia.
  - unfold Qeq. cbn [Qnum Qden].
    assert (0 < 10 ^ (- (e + 1))) by (apply Z.pow_pos_nonneg; lia).
    assert (10 ^ (- e) = 10 * 10 ^ (- (e + 1))).
    { replace (- e) with (1 + - (e + 1)) by lia. rewrite Z.pow_add_r by lia. reflexivity. }
    rewrite !Z2Pos.id by lia. lia.
Qed.

(** The normal form of a number has the value of the number. *)
Lemma normalize_value (x : dec) : (to_Q (normalize x) == to_Q x)%Q.
Proof.
  unfold normalize. destruct (Z.eqb_spec (mant x) 0) as [Hm |].
  - destruct x as [m e]. cbn [mant] in Hm. subst m. unfold to_Q. cbn [mant expo].
    change (0 <=? 0) with true. cbv iota. rewrite !Z.mul_0_l.
    destruct (Z.leb_spec 0 e); reflexivity.
  - rewrite normalize_fuel_value. by destruct x.
Qed.
(** ** The decimal notation of a number, read back *)

Lemma digit_char_digit (d : Z) :
  0 <= d < 10 -> is_digit (digit_char d) = true /\ dval (digit_char d) = d.
Proof.
  intros Hd.
  assert (H : d = 0 \/ d = 1 \/ d = 2 \/ d = 3 \/ d = 4 \/ d = 5 \/ d = 6
              \/ d = 7 \/ d = 8 \/ d = 9) by lia.
  repeat destruct H as [-> | H]; try subst d; by vm_compute.
Qed.

Lemma digit_chars_digits (ds : list Z) :
  decimal ds -> all_digit (digit_chars ds) /\ map dval (digit_chars ds) = ds.
Proof.
  induction 1 as [| d ds Hd Hds [IH1 IH2]]; [split; [constructor | reflexivity] |].
  destruct (digit_char_digit d Hd) as [H1 H2]. split.
  - unfold all_digit, digit_chars in *. cbn [map]. by constructor.
  - cbn [digit_chars map]. unfold digit_chars in IH2. by rewrite H2, IH2.
Qed.

Lemma digit_chars_nil (ds : list Z) : digit_chars ds = [] -> ds = [].
Proof. by destruct ds. Qed.

(** The significant digits of a number end with a digit that is not 0. *)
Lemma strip_zeros_last (d : Z) (t : list Z) :
  decimal (d :: t) -> d <> 0 -> digits_value (strip_zeros (d :: t)) mod 10 <> 0.
Proof.
  intros Hdec Hd.
  destruct (strip_zeros_spec d t Hd) as (j & t' & Hsplit & Hstrip).
  assert (Hdec' : decimal (strip_zeros (d :: t))).
  { rewrite Hsplit in Hdec. by apply Forall_app in Hdec as [? _]. }
  unfold strip_zeros in *.
  destruct (drop_zeros_spec (rev (d :: t))) as (j' & _ & Hhead).
  destruct (drop_zeros (rev (d :: t))) as [| h q] eqn:Hdrop; [discriminate |].
  cbn [rev] in *. rewrite digits_value_app.
  apply Forall_app in Hdec' as [_ Hh]. apply Forall_cons in Hh as [Hh _].
  unfold digits_value at 2. cbn [fold_left length].
  change (Z.of_nat 1) with 1. rewrite Z.pow_1_r.
  rewrite Z.add_comm, Z_mod_plus_full. rewrite Z.mod_small by lia. lia.
Qed.

(** The notation with an exponent. *)
Lemma exponent_notation (ds : list Z) (n e : Z) (v : Z) (j : nat) (d : Z) (t' : list Z) :
  decimal ds -> ds = d :: t' -> v = digits_value ds ->
  n = Z.of_nat (length ds) + Z.of_nat j + e -> n - 1 <> 0 ->
  exists w1 fr w2 ex esg w3 e' (i : nat),
    (let e1 := n - 1 in
     let es := (if e1 <? 0 then "-"%char else "+"%char)
                 :: digit_chars (digits 10 (Z.abs e1)) in
     match ds with
     | [d] => digit_char d :: "e"%char :: es
     | d :: ds' => digit_char d :: "."%char :: digit_chars ds' ++ "e"%char :: es
     | [] => []
     end) = w1 ++ fr ++ ex
    /\ all_digit w1 /\ w1 <> [] /\ all_digit w2 /\ all_digit w3 /\ sign_text esg
    /\ (fr = [] /\ w2 = [] \/ fr = "."%char :: w2 /\ w2 <> [])
    /\ (ex = [] /\ esg = [] /\ w3 = [] \/ ex = e' :: esg ++ w3 /\ is_e e' = true /\ w3 <> [])
    /\ digits_value (map dval w1 ++ map dval w2) = v * 10 ^ Z.of_nat i
    /\ sgn esg * digits_value (map dval w3) - Z.of_nat (length w2) + Z.of_nat i
       = e + Z.of_nat j.
Proof.
  intros Hdec Hds Hv Hn He1. cbv zeta.
  set (e1 := n - 1) in *.
  assert (Habs : 0 < Z.abs e1) by lia.
  destruct (digits_spec _ Habs) as (Hdece & Hvale & de & te & Hdse & _).
  destruct (digit_chars_digits _ Hdece) as [Halle Hmape].
  set (esg := [if e1 <? 0 then "-"%char else "+"%char]).
  assert (Hesg : sign_text esg).
  { unfold esg. destruct (e1 <? 0); [right; by left | right; by right]. }
  assert (Hsgn : sgn esg * Z.abs e1 = e1).
  { unfold esg. destruct (Z.ltb_spec e1 0); [change (sgn ["-"%char]) with (-1) | change (sgn ["+"%char]) with 1]; lia. }
  assert (Hne3 : digit_chars (digits 10 (Z.abs e1)) <> []) by (by rewrite Hdse).
  subst ds. pose proof Hdec as Hdec'. apply Forall_cons in Hdec' as [Hd Ht'].
  destruct (digit_char_digit d Hd) as [Hd1 Hd2].
  destruct (digit_chars_digits _ Ht') as [Hallt Hmapt].
  destruct t' as [| d' t''].
  - exists [digit_char d], [], [], ("e"%char :: esg ++ digit_chars (digits 10 (Z.abs e1))),
      esg, (digit_chars (digits 10 (Z.abs e1))), "e"%char, 0%nat.
    rewrite Hmape, Hvale, Hsgn.
    repeat split; try done; try (by left); try (by constructor).
    + cbn [map app]. rewrite Hd2, Hv. cbn. lia.
    + cbn [length] in *. lia.
  - exists [digit_char d], ("."%char :: digit_chars (d' :: t'')), (digit_chars (d' :: t'')),
      ("e"%char :: esg ++ digit_chars (digits 10 (Z.abs e1))),
      esg, (digit_chars (digits 10 (Z.abs e1))), "e"%char, 0%nat.
    rewrite Hmape, Hvale, Hsgn, Hmapt.
    repeat split; try done; try (by left); try (by constructor).
    + cbn [map app]. rewrite Hd2, Hv. cbn. lia.
    + unfold digit_chars. rewrite length_map. cbn [length] in *. lia.
Qed.

Lemma pos_to_string_shape (x : dec) :
  0 < mant x ->
  exists w1 fr w2 ex esg w3 e v (i j : nat),
    pos_to_string x = w1 ++ fr ++ ex
    /\ all_digit w1 /\ w1 <> [] /\ all_digit w2 /\ all_digit w3 /\ sign_text esg
    /\ (fr = [] /\ w2 = [] \/ fr = "."%char :: w2 /\ w2 <> [])
    /\ (ex = [] /\ esg = [] /\ w3 = [] \/ ex = e :: esg ++ w3 /\ is_e e = true /\ w3 <> [])
    /\ v mod 10 <> 0 /\ mant x = v * 10 ^ Z.of_nat j
    /\ digits_value (map dval w1 ++ map dval w2) = v * 10 ^ Z.of_nat i
    /\ sgn esg * digits_value (map dval w3) - Z.of_nat (length w2) + Z.of_nat i
       = expo x + Z.of_nat j.
Proof.
  intros Hm. unfold pos_to_string.
  destruct (digits_spec (mant x) Hm) as (Hdec & Hval & d & t & Hds0 & Hd).
  set (ds0 := digits 10 (mant x)) in *.
  destruct (strip_zeros_spec d t Hd) as (j & t' & Hsplit & Hds).
  pose proof (strip_zeros_last d t ltac:(by rewrite <- Hds0) Hd) as Hlast.
  rewrite <- Hds0 in Hsplit, Hds, Hlast.
  set (ds := strip_zeros ds0) in *.
  set (e := expo x) in *.
  assert (Hlen : Z.of_nat (length ds0) = Z.of_nat (length ds) + Z.of_nat j).
  { rewrite Hsplit at 1. rewrite length_app, length_replicate. lia. }
  assert (Hdec_ds : decimal ds).
  { rewrite Hsplit in Hdec. by apply Forall_app in Hdec as [? _]. }
  assert (Hmant : mant x = digits_value ds * 10 ^ Z.of_nat j).
  { rewrite <- Hval, Hsplit at 1.
    rewrite digits_value_app, digits_value_zeros, length_replicate. lia. }
  assert (Hk : 0 < Z.of_nat (length ds)) by (rewrite Hds; cbn [length]; lia).
  set (v := digits_value ds) in *.
  destruct (Z.leb_spec (Z.of_nat (length ds)) (Z.of_nat (length ds0) + e)) as [Hkn | Hkn];
    [destruct (Z.leb_spec (Z.of_nat (length ds0) + e) 21) as [H21 | H21] |]; cbn [andb].
  - (* the digits, then zeros *)
    set (z := Z.of_nat (length ds0) + e - Z.of_nat (length ds)).
    assert (Hdz : decimal (ds ++ zeros z)).
    { apply Forall_app. split; [done |]. apply Forall_replicate. lia. }
    destruct (digit_chars_digits _ Hdz) as [Hall Hmap].
    exists (digit_chars (ds ++ zeros z)), [], [], [], [], [], "e"%char, v, (Z.to_nat z), j.
    rewrite !app_nil_r, Hmap.
    repeat split; try done; try (by left); try (by constructor).
    + intros Hnil. apply digit_chars_nil in Hnil. rewrite Hds in Hnil. discriminate.
    + rewrite digits_value_app. unfold zeros at 2. rewrite digits_value_zeros.
      unfold zeros. rewrite length_replicate. fold v. rewrite Z2Nat.id by lia. lia.
    + change (sgn []) with 1. change (digits_value (map dval [])) with 0.
      cbn [length]. lia.
  - (* beyond 21 digits: one digit, the others after the point, an exponent *)
    destruct (Z.ltb_spec 0 (Z.of_nat (length ds0) + e)) as [_ | ?]; [| lia].
    cbn [andb].
    destruct (Z.ltb_spec (-6) (Z.of_nat (length ds0) + e)) as [_ | ?]; [| lia].
    destruct (Z.leb_spec (Z.of_nat (length ds0) + e) 0) as [? | _]; [lia |].
    cbn [andb]. destruct (exponent_notation ds (Z.of_nat (length ds0) + e) e v j d t' Hdec_ds Hds
                eq_refl ltac:(lia) ltac:(lia))
      as (w1 & fr & w2 & ex & esg & w3 & e' & i & Htext & ? & ? & ? & ? & ? & ?
          & ? & ? & ?);
    exists w1, fr, w2, ex, esg, w3, e', v, i, j;
    repeat split; try done.
  - (* fewer digits than the point asks for is not the case here *)
    destruct (Z.ltb_spec 0 (Z.of_nat (length ds0) + e)) as [Hn | Hn];
      [destruct (Z.leb_spec (Z.of_nat (length ds0) + e) 21) as [H21 | H21] |];
      cbn [andb].
    + (* a point among the digits *)
      set (np := Z.to_nat (Z.of_nat (length ds0) + e)).
      assert (Hnp : (0 < np < length ds)%nat) by lia.
      assert (Htk : decimal (take np ds)) by (by apply Forall_take).
      assert (Hdr : decimal (drop np ds)) by (by apply Forall_drop).
      destruct (digit_chars_digits _ Htk) as [Hall1 Hmap1].
      destruct (digit_chars_digits _ Hdr) as [Hall2 Hmap2].
      exists (digit_chars (take np ds)), ("."%char :: digit_chars (drop np ds)),
        (digit_chars (drop np ds)), [], [], [], "e"%char, v, 0%nat, j.
      rewrite !app_nil_r, Hmap1, Hmap2, take_drop.
      repeat split; try done; try (by left); try (by constructor).
      * intros Hnil. apply digit_chars_nil in Hnil.
        apply (f_equal length) in Hnil. rewrite length_take in Hnil. simpl in Hnil. lia.
      * right. split; [done |]. intros Hnil. apply digit_chars_nil in Hnil.
        apply (f_equal length) in Hnil. rewrite length_drop in Hnil. simpl in Hnil. lia.
      * fold v. change (Z.of_nat 0) with 0. lia.
      * change (sgn []) with 1. change (digits_value (map dval [])) with 0.
        unfold digit_chars. rewrite length_map, length_drop. lia.
    + destruct (Z.ltb_spec (-6) (Z.of_nat (length ds0) + e)) as [_ | ?]; [| lia].
      destruct (Z.leb_spec (Z.of_nat (length ds0) + e) 0) as [? | _]; [lia |].
      cbn [andb]. destruct (exponent_notation ds (Z.of_nat (length ds0) + e) e v j d t' Hdec_ds Hds
                eq_refl ltac:(lia) ltac:(lia))
      as (w1 & fr & w2 & ex & esg & w3 & e' & i & Htext & ? & ? & ? & ? & ? & ?
          & ? & ? & ?);
    exists w1, fr, w2, ex, esg, w3, e', v, i, j;
    repeat split; try done.
    + destruct (Z.ltb_spec (-6) (Z.of_nat (length ds0) + e)) as [H6 | H6];
        [destruct (Z.leb_spec (Z.of_nat (length ds0) + e) 0) as [_ | ?]; [| lia] |];
        cbn [andb]; [| destruct (exponent_notation ds (Z.of_nat (length ds0) + e) e v j d t' Hdec_ds Hds
                eq_refl ltac:(lia) ltac:(lia))
      as (w1 & fr & w2 & ex & esg & w3 & e' & i & Htext & ? & ? & ? & ? & ? & ?
          & ? & ? & ?);
    exists w1, fr, w2, ex, esg, w3, e', v, i, j;
    repeat split; try done].
      (* zeros after the point, then the digits *)
      set (z := - (Z.of_nat (length ds0) + e)).
      assert (Hdz : decimal (zeros z ++ ds)).
      { apply Forall_app. split; [| done]. apply Forall_replicate. lia. }
      destruct (digit_chars_digits _ Hdz) as [Hall Hmap].
      exists [digit_char 0], ("."%char :: digit_chars (zeros z ++ ds)),
        (digit_chars (zeros z ++ ds)), [], [], [], "e"%char, v, 0%nat, j.
      rewrite !app_nil_r, Hmap.
      repeat split; try done; try (by left); try (by constructor).
      * right. split; [done |]. intros Hnil. apply digit_chars_nil in Hnil.
        apply app_eq_nil in Hnil as [_ Hnil]. rewrite Hds in Hnil. discriminate.
      * change (map dval [digit_char 0]) with [0].
        rewrite !digits_value_app. unfold zeros. rewrite digits_value_zeros.
        unfold digits_value at 1. cbn [fold_left]. fold v.
        change (Z.of_nat 0) with 0. lia.
      * change (sgn []) with 1. change (digits_value (map dval [])) with 0.
        unfold digit_chars. rewrite length_map, length_app.
        unfold zeros. rewrite length_replicate. lia.
Qed.

Lemma mod10_opp (v : Z) : v mod 10 <> 0 -> (- v) mod 10 <> 0.
Proof.
  intros Hv H. apply Hv. apply Z.mod_divide in H; [| lia].
  apply Z.mod_divide; [lia |]. destruct H as [q Hq]. exists (- q). lia.
Qed.

Lemma signed_shape (s : Z) (sg : text) (x : dec) (m : Z) :
  (s = 1 /\ sg = [] \/ s = -1 /\ sg = ["-"%char]) ->
  0 < mant x -> m = s * mant x ->
  literal (sg ++ pos_to_string x)
  /\ parseFloat (sg ++ pos_to_string x) = Num (normalize (Dec m (expo x))).
Proof.
  intros Hs Hm ->.
  destruct (pos_to_string_shape x Hm)
    as (w1 & fr & w2 & ex & esg & w3 & e & v & i & j & -> & Hw1 & Hne1 & Hw2 & Hw3
        & Hesg & Hfr & Hex & Hv & Hmant & Hval & Hexp).
  assert (Hsg : sign_text sg /\ sgn sg = s).
  { destruct Hs as [[-> ->] | [-> ->]]; (split; [| reflexivity]); [by left | right; by left]. }
  destruct Hsg as [Hsg Hsgn].
  split.
  - exists sg, w1, fr, w2, ex, esg, w3, e. by repeat split.
  - rewrite (parseFloat_literal sg w1 fr w2 ex esg w3 e); try done.
    + destruct (map dval w1 ++ map dval w2) as [| d0 ds0] eqn:Hds.
      { apply app_eq_nil in Hds as [Hnil _]. apply map_eq_nil in Hnil. done. }
      rewrite Hval, Hsgn, Hmant.
      assert (Hsv : (s * v) mod 10 <> 0).
      { destruct Hs as [[-> _] | [-> _]]; [by rewrite Z.mul_1_l |].
        replace (-1 * v) with (- v) by lia. by apply mod10_opp. }
      replace (s * (v * 10 ^ Z.of_nat i)) with (s * v * 10 ^ Z.of_nat i) by ring.
      replace (s * (v * 10 ^ Z.of_nat j)) with (s * v * 10 ^ Z.of_nat j) by ring.
      rewrite !normalize_pow by done. do 2 f_equal. lia.
    + destruct Hfr as [? | [? _]]; [by left | by right].
    + destruct Hex as [? | (? & ? & _)]; [by left | by right].
Qed.

(** The decimal notation of a number is a literal, and [parseFloat] reads
    the number back from it, in normal form. *)
Lemma to_string_read (x : dec) :
  literal (to_string x) /\ parseFloat (to_string x) = Num (normalize x).
Proof.
  unfold to_string.
  destruct (Z.eqb_spec (mant x) 0) as [Hz | Hnz].
  - split.
    + exists [], (of_string "0"), [], [], [], [], [], "e"%char.
      repeat split; try done; try (by left); by repeat constructor.
    + unfold normalize. rewrite Hz. reflexivity.
  - destruct (Z.ltb_spec (mant x) 0) as [Hneg | Hpos].
    + destruct (signed_shape (-1) ["-"%char] (Dec (- mant x) (expo x)) (mant x))
        as [Hlit Hread]; [by right | cbn [mant]; lia | cbn [mant]; lia |].
      cbn [expo app] in Hread, Hlit. split; [exact Hlit |]. rewrite Hread. by destruct x.
    + destruct (signed_shape 1 [] x (mant x)) as [Hlit Hread];
        [by left | lia | lia |].
      cbn [app] in Hread, Hlit. split; [exact Hlit |]. rewrite Hread. by destruct x.
Qed.
(** ** The matcher on texts of a known shape *)

Section MatcherPaths.

Context {A : Type}.
Implicit Types (k : text -> captures -> option A).

Lemma star_k_nil (p : ascii -> bool) s c k :
  head_not p s -> star_k p s c k = k s c.
Proof. destruct s as [| a s]; simpl; [done |]. by intros ->. Qed.

(** The iteration takes all the characters of the class when what follows
    goes through. *)
Lemma star_k_first (p : ascii -> bool) w s' c k x :
  Forall (fun a => p a = true) w -> head_not p s' -> k s' c = Some x ->
  star_k p (w ++ s') c k = Some x.
Proof.
  intros Hw Hs Hk. induction Hw as [| a w Ha Hw IH]; simpl.
  - by rewrite star_k_nil.
  - by rewrite Ha, IH.
Qed.

(** It gives the last one back when what follows needs it. *)
Lemma star_k_back (p : ascii -> bool) w a s' c k x :
  Forall (fun a => p a = true) w -> p a = true -> head_not p s' ->
  k s' c = None -> k (a :: s') c = Some x ->
  star_k p (w ++ a :: s') c k = Some x.
Proof.
  intros Hw Ha Hs Hnone Hk. induction Hw as [| b w Hb Hw IH]; simpl.
  - by rewrite Ha, star_k_nil, Hnone.
  - by rewrite Hb, IH.
Qed.

Lemma plus_first (p : ascii -> bool) w s' c k x :
  Forall (fun a => p a = true) w -> w <> [] -> head_not p s' -> k s' c = Some x ->
  rmatch (Plus p) (w ++ s') c k = Some x.
Proof.
  intros Hw Hne Hs Hk. destruct Hw as [| a w Ha Hw]; [done |].
  simpl. rewrite Ha. by apply star_k_first.
Qed.

Lemma plus_none (p : ascii -> bool) s c k :
  head_not p s -> rmatch (Plus p) s c k = None.
Proof. destruct s as [| a s]; simpl; [done |]. by intros ->. Qed.

Lemma cls_none (p : ascii -> bool) s c k :
  head_not p s -> rmatch (Cls p) s c k = None.
Proof. destruct s as [| a s]; simpl; [done |]. by intros ->. Qed.

Lemma cls_cons (p : ascii -> bool) a s c k :
  p a = true -> rmatch (Cls p) (a :: s) c k = k s c.
Proof. simpl. by intros ->. Qed.

Lemma seq_eq (r1 r2 : regex) s c k :
  rmatch (Seq r1 r2) s c k = rmatch r1 s c (fun s' c' => rmatch r2 s' c' k).
Proof. reflexivity. Qed.

Lemma opt_some (r : regex) s c k x :
  rmatch r s c k = Some x -> rmatch (Opt r) s c k = Some x.
Proof. simpl. by intros ->. Qed.

Lemma opt_none (r : regex) s c k :
  rmatch r s c k = None -> rmatch (Opt r) s c k = k s c.
Proof. simpl. by intros ->. Qed.

Lemma star_eq (p : ascii -> bool) s c k :
  rmatch (Star p) s c k = star_k p s c k.
Proof. reflexivity. Qed.

Lemma grp_eq (i : nat) (r : regex) s c k :
  rmatch (Grp i r) s c k =
  rmatch r s c (fun s' c' => k s' ((i, take (length s - length s') s) :: c')).
Proof. reflexivity. Qed.

End MatcherPaths.
Section LiteralPaths.

Context {A : Type}.
Implicit Types (k : text -> captures -> option A).

Lemma sep_head_digit s : sep_head s -> head_not is_digit s.
Proof. destruct s; [done |]. by intros (? & _). Qed.

Lemma sep_head_point s : sep_head s -> head_not (is_char ".") s.
Proof. destruct s; [done |]. by intros (_ & ? & _). Qed.

Lemma sep_head_e s : sep_head s -> head_not is_e s.
Proof. destruct s; [done |]. by intros (_ & _ & ?). Qed.

Lemma exponent_path (ex esg w3 rest : text) (e : ascii) c k x :
  all_digit w3 -> sign_text esg ->
  (ex = [] /\ esg = [] /\ w3 = [] \/ ex = e :: esg ++ w3 /\ is_e e = true /\ w3 <> []) ->
  sep_head rest -> k rest c = Some x ->
  rmatch (Opt (Seq (Cls is_e) (Seq (Opt (Cls is_sign)) (Plus is_digit))))
         (ex ++ rest) c k = Some x.
Proof.
  intros Hw3 Hesg Hex Hrest Hk.
  destruct Hex as [(-> & -> & ->) | (-> & He & Hne)].
  - rewrite opt_none; [exact Hk |].
    rewrite seq_eq. apply cls_none. by apply sep_head_e.
  - apply opt_some. cbn [app]. rewrite seq_eq, cls_cons by done. rewrite seq_eq.
    assert (Hplus : rmatch (Plus is_digit) (w3 ++ rest) c k = Some x).
    { apply plus_first; [done | done | by apply sep_head_digit | done]. }
    destruct Hesg as [-> | [-> | ->]]; cbn [app].
    + rewrite opt_none; [done |]. apply cls_none.
      destruct Hw3 as [| a w3 Ha Hw3]; [done |].
      by destruct (digit_facts a Ha) as (_ & _ & _ & _ & _ & _ & Hs & _).
    + apply opt_some. by rewrite cls_cons.
    + apply opt_some. by rewrite cls_cons.
Qed.

Lemma exponent_head (ex esg w3 rest : text) (e : ascii) :
  (ex = [] /\ esg = [] /\ w3 = [] \/ ex = e :: esg ++ w3 /\ is_e e = true /\ w3 <> []) ->
  sep_head rest ->
  head_not is_digit (ex ++ rest) /\ head_not (is_char ".") (ex ++ rest).
Proof.
  intros [(-> & _) | (-> & He & _)] Hrest.
  - split; [by apply sep_head_digit | by apply sep_head_point].
  - by destruct (e_facts e He) as (_ & _ & _ & ? & ? & _).
Qed.

(** The number pattern takes a literal in full when it is followed by a
    separator and the rest of the pattern goes through after it. *)
Lemma number_re_literal (N rest : text) c k x :
  literal N -> sep_head rest -> k rest c = Some x ->
  rmatch NUMBER_RE (N ++ rest) c k = Some x.
Proof.
  intros (sg & w1 & fr & w2 & ex & esg & w3 & e & -> & Hsg & Hw1 & Hne1 & Hw2 & Hw3
          & Hesg & Hfr & Hex) Hrest Hk.
  destruct (exponent_head ex esg w3 rest e Hex Hrest) as [Hhd Hhp].
  pose proof (exponent_path ex esg w3 rest e c k x Hw3 Hesg Hex Hrest Hk) as Hexp.
  unfold NUMBER_RE. cbn [seqs]. rewrite <- !app_assoc. rewrite seq_eq.
  (* the digits before the point, the point and the digits after it *)
  assert (Hbody :
    rmatch (Seq (Star is_digit)
              (Seq (Opt (Cls (is_char ".")))
                 (Seq (Plus is_digit)
                    (Opt (Seq (Cls is_e) (Seq (Opt (Cls is_sign)) (Plus is_digit)))))))
           (w1 ++ fr ++ ex ++ rest) c k = Some x).
  { rewrite seq_eq, star_eq.
    destruct Hfr as [(-> & ->) | (-> & Hne2)].
    - destruct (exists_last Hne1) as (w1' & a & ->).
      apply Forall_app in Hw1 as [Hw1' Ha]. apply Forall_cons in Ha as [Ha _].
      destruct (digit_facts a Ha) as (_ & _ & _ & Hap & _).
      rewrite <- app_assoc. cbn [app].
      apply star_k_back; [done | done | done | |].
      + rewrite seq_eq, opt_none by (by apply cls_none).
        rewrite seq_eq. by apply plus_none.
      + rewrite seq_eq, opt_none by (apply cls_none; exact Hap).
        rewrite seq_eq. change (a :: ex ++ rest) with ([a] ++ ex ++ rest).
        apply plus_first; [by constructor | done | done | done].
    - apply star_k_first; [done | reflexivity |].
      rewrite seq_eq. apply opt_some. cbn [app]. rewrite cls_cons by reflexivity.
      rewrite seq_eq. by apply plus_first. }
  destruct Hsg as [-> | [-> | ->]]; cbn [app].
  - rewrite opt_none; [exact Hbody |]. apply cls_none.
    destruct Hw1 as [| a w1 Ha Hw1]; [done |].
    by destruct (digit_facts a Ha) as (_ & _ & _ & _ & _ & _ & Hs & _).
  - apply opt_some. by rewrite cls_cons.
  - apply opt_some. by rewrite cls_cons.
Qed.

End LiteralPaths.
Lemma literal_head (N rest : text) : literal N -> head_not is_space (N ++ rest).
Proof.
  intros (sg & w1 & fr & w2 & ex & esg & w3 & e & -> & Hsg & Hw1 & Hne1 & _).
  destruct Hsg as [-> | [-> | ->]]; [| reflexivity | reflexivity].
  destruct Hw1 as [| a w1 Ha Hw1]; [done |].
  by destruct (digit_facts a Ha) as (? & _).
Qed.

Lemma exec_tuple3 (N1 N2 N3 rest : text) :
  literal N1 -> literal N2 -> literal N3 -> tuple_end rest ->
  exec COORDINATES_RE (N1 ++ ","%char :: N2 ++ ","%char :: N3 ++ rest) =
    Some (MatchResult (N1 ++ ","%char :: N2 ++ ","%char :: N3 ++ take 1 rest)
                      [(3%nat, N3); (2%nat, N2); (1%nat, N1)] (drop 1 rest)).
Proof.
  intros H1 H2 H3 Hrest. unfold exec, COORDINATES_RE. cbn [seqs].
  set (s := N1 ++ ","%char :: N2 ++ ","%char :: N3 ++ rest).
  set (kf := fun (s' : text) (c : captures) =>
               Some (MatchResult (take (length s - length s') s) c s')).
  rewrite seq_eq, star_eq, star_k_nil by (by apply literal_head).
  rewrite seq_eq, grp_eq. subst s.
  apply number_re_literal; [done | by repeat split |].
  rewrite take_consumed.
  rewrite seq_eq, star_eq, star_k_nil by reflexivity.
  rewrite seq_eq, cls_cons by reflexivity.
  rewrite seq_eq, star_eq, star_k_nil by (by apply literal_head).
  rewrite seq_eq, grp_eq.
  apply number_re_literal; [done | by repeat split |].
  rewrite take_consumed.
  rewrite seq_eq. apply opt_some.
  rewrite seq_eq, star_eq, star_k_nil by reflexivity.
  rewrite seq_eq, cls_cons by reflexivity.
  rewrite seq_eq, star_eq, star_k_nil by (by apply literal_head).
  rewrite grp_eq.
  apply number_re_literal; [done | |].
  { destruct Hrest as [-> | (r & -> & _)]; [done | by repeat split]. }
  rewrite take_consumed, star_eq.
  destruct Hrest as [-> | (r & -> & Hr)].
  - cbn [star_k]. unfold kf. rewrite !app_nil_r.
    cbn [length]. rewrite Nat.sub_0_r, firstn_all. reflexivity.
  - change (" "%char :: r) with ([" "%char] ++ r).
    erewrite star_k_first; [| by repeat constructor | exact Hr | reflexivity].
    unfold kf. cbn [take drop app]. f_equal. f_equal.
    replace (N1 ++ ","%char :: N2 ++ ","%char :: N3 ++ " "%char :: r)
      with ((N1 ++ ","%char :: N2 ++ ","%char :: N3 ++ [" "%char]) ++ r).
    + apply take_consumed.
    + by repeat (rewrite <- app_assoc; cbn [app]).
Qed.
(** ** Coordinates written and read back *)

Lemma length_vertices3 (vs : list (dec * dec * dec)) :
  length (vertices3 vs) = (3 * length vs)%nat.
Proof.
  unfold vertices3. induction vs as [| [[x y] z] vs IH]; [done |].
  cbn [map concat length app]. rewrite IH. lia.
Qed.

Lemma vertices3_app (pre post : list (dec * dec * dec)) :
  vertices3 (pre ++ post) = vertices3 pre ++ vertices3 post.
Proof. unfold vertices3. by rewrite map_app, concat_app. Qed.

Lemma tuple_text_vertex (pre post : list (dec * dec * dec)) (t : dec * dec * dec) :
  tuple_text 3 (3 * length pre) (vertices3 (pre ++ t :: post)) = vertex_text t.
Proof.
  destruct t as [[x y] z]. unfold tuple_text, array_get. cbn [seq map concat Nat.sub].
  rewrite vertices3_app.
  rewrite !lookup_app_r by (rewrite length_vertices3; lia).
  rewrite length_vertices3.
  replace (3 * length pre - 3 * length pre)%nat with 0%nat by lia.
  replace (3 * length pre + 1 - 3 * length pre)%nat with 1%nat by lia.
  replace (3 * length pre + 2 - 3 * length pre)%nat with 2%nat by lia.
  cbn. by rewrite app_nil_r.
Qed.

Lemma writeTuples_vertices (post : list (dec * dec * dec)) :
  forall (pre : list (dec * dec * dec)) (fuel : nat) (acc : text),
    (length post < fuel)%nat ->
    writeTuples fuel 3 3 (3 * length pre) (vertices3 (pre ++ post)) acc =
      Some (acc ++ more_vertices_text post).
Proof.
  induction post as [| t post IH]; intros pre fuel acc Hfuel.
  - destruct fuel as [| fuel]; [lia |]. cbn [writeTuples].
    rewrite app_nil_r, length_vertices3.
    destruct (Nat.ltb_spec (3 * length pre) (3 * length pre)); [lia |].
    by rewrite app_nil_r.
  - destruct fuel as [| fuel]; [cbn in Hfuel; lia |]. cbn [writeTuples].
    rewrite length_vertices3, length_app. cbn [length].
    destruct (Nat.ltb_spec (3 * length pre) (3 * (length pre + S (length post)))); [| lia].
    rewrite tuple_text_vertex.
    replace (pre ++ t :: post) with ((pre ++ [t]) ++ post) by (by rewrite <- app_assoc).
    replace (3 * length pre + 3)%nat with (3 * length (pre ++ [t]))%nat
      by (rewrite length_app; cbn; lia).
    rewrite IH by (cbn in Hfuel; lia).
    unfold more_vertices_text. cbn [map concat]. by rewrite <- app_assoc.
Qed.

(** The text written for vertices of three coordinates. *)
Lemma writeCoordinates_xyz (t : dec * dec * dec) (ts : list (dec * dec * dec)) :
  writeCoordinatesTextNode (Some XYZ) 3 (vertices3 (t :: ts)) =
    Ok (Some (vertex_text t ++ more_vertices_text ts)).
Proof.
  unfold writeCoordinatesTextNode. rewrite length_vertices3. cbn [length].
  destruct (Nat.ltb_spec 0 (3 * S (length ts))); [| lia]. f_equal.
  pose proof (tuple_text_vertex [] ts t) as Ht.
  change (3 * length (@nil (dec * dec * dec)))%nat with 0%nat in Ht.
  cbn [app] in Ht. rewrite Ht.
  apply (writeTuples_vertices ts [t]). lia.
Qed.
Lemma literal_cons (N : text) : literal N -> exists a t, N = a :: t.
Proof.
  intros (sg & w1 & fr & w2 & ex & esg & w3 & e & -> & Hsg & Hw1 & Hne1 & _).
  destruct Hsg as [-> | [-> | ->]]; [| by eexists _, _ | by eexists _, _].
  destruct w1; [done | by eexists _, _].
Qed.

Lemma exec_vertex (t : dec * dec * dec) (rest : text) :
  tuple_end rest ->
  exists m,
    exec COORDINATES_RE (vertex_text t ++ rest) = Some m
    /\ tuple_of m = vertices3 [normalize3 t] /\ RegExp.rest m = drop 1 rest.
Proof.
  intros Hrest. destruct t as [[x y] z]. unfold vertex_text.
  destruct (to_string_read x) as [Hx Hrx].
  destruct (to_string_read y) as [Hy Hry].
  destruct (to_string_read z) as [Hz Hrz].
  eexists. split; [| split].
  - repeat (rewrite <- app_assoc; cbn [app]).
    by apply exec_tuple3.
  - unfold tuple_of, parseFloat_group, group. cbn [groups capture Nat.eqb].
    destruct (literal_cons _ Hz) as (a & tl & Heq).
    rewrite Hrx, Hry. rewrite Heq at 1. by rewrite Hrz.
  - reflexivity.
Qed.

Lemma vertex_text_head (t : dec * dec * dec) (rest : text) :
  head_not is_space (vertex_text t ++ rest).
Proof.
  destruct t as [[x y] z]. unfold vertex_text. rewrite <- app_assoc.
  apply literal_head. apply to_string_read.
Qed.

Lemma scans_vertices (ts : list (dec * dec * dec)) :
  forall t,
    scans (vertex_text t ++ more_vertices_text ts)
          (vertices3 (map normalize3 (t :: ts))) [].
Proof.
  induction ts as [| t' ts IH]; intros t.
  - destruct (exec_vertex t []) as (m & Hexec & Htuple & Hrest); [by left |].
    rewrite <- (app_nil_r (vertices3 (map normalize3 [t]))). cbn [map].
    rewrite <- Htuple. apply (scans_tuple _ m); [exact Hexec |].
    rewrite Hrest. by apply scans_end.
  - unfold more_vertices_text. cbn [map concat]. fold (more_vertices_text ts).
    destruct (exec_vertex t (" "%char :: vertex_text t' ++ more_vertices_text ts))
      as (m & Hexec & Htuple & Hrest).
    { right. eexists. split; [reflexivity |]. apply vertex_text_head. }
    replace (vertices3 (normalize3 t :: normalize3 t' :: map normalize3 ts))
      with (vertices3 [normalize3 t] ++ vertices3 (map normalize3 (t' :: ts)))
      by (by rewrite <- vertices3_app).
    rewrite <- Htuple. apply (scans_tuple _ m); [exact Hexec |].
    rewrite Hrest. apply IH.
Qed.

Lemma same_number_vertices (vs : list (dec * dec * dec)) :
  Forall2 same_number (vertices3 (map normalize3 vs)) (vertices3 vs).
Proof.
  induction vs as [| [[x y] z] vs IH]; [constructor |].
  unfold vertices3 in *. cbn [map concat app normalize3].
  repeat (constructor; [apply normalize_value |]). exact IH.
Qed.

(** X6: vertices of three finite coordinates written by
    [writeCoordinatesTextNode], for the layout XYZ and a stride of 3, are
    read back by [readFlatCoordinates]: the text is written, and the array
    read from it has, slot by slot, numbers of the same value. *)
Theorem coordinates_write_read (vs : list (dec * dec * dec)) :
  exists (written : text) (l : list jsval),
    writeCoordinatesTextNode (Some XYZ) 3 (vertices3 vs) = Ok (Some written)
    /\ readFlatCoordinates written = Some l
    /\ Forall2 same_number l (vertices3 vs).
Proof.
  destruct vs as [| t ts].
  - exists [], []. repeat split. constructor.
  - exists (vertex_text t ++ more_vertices_text ts), (vertices3 (map normalize3 (t :: ts))).
    split; [apply writeCoordinates_xyz |]. split.
    + by rewrite (readFlatCoordinates_scans _ _ _ (scans_vertices ts t)).
    + apply same_number_vertices.
Qed.

Example coordinates_written :
  writeCoordinatesTextNode (Some XYZ) 3
    (vertices3 [(Dec 15 (-1), of_Z (-2), of_Z 0); (Dec 1 21, Dec 25 (-8), of_Z 7)])
  = Ok (Some (of_string "1.5,-2,0 1e+21,2.5e-7,7")).
Proof. reflexivity. Qed.
(** ** The text of coordinates *)

Lemma length_concat_same {X} (s : nat) (vs : list (list X)) :
  Forall (fun v => length v = s) vs -> length (concat vs) = (s * length vs)%nat.
Proof.
  induction 1 as [| v vs Hv Hvs IH]; [cbn; lia |].
  cbn [concat length]. rewrite length_app, IH, Hv. lia.
Qed.

Lemma array_get_concat (s d : nat) (pre post : list (list jsval)) (v : list jsval) :
  Forall (fun v => length v = s) pre -> (d < length v)%nat ->
  array_get (s * length pre + d) (concat (pre ++ v :: post)) = default Undefined (v !! d).
Proof.
  intros Hpre Hd. unfold array_get. rewrite concat_app. cbn [concat].
  rewrite lookup_app_r by (rewrite (length_concat_same s) by done; lia).
  rewrite (length_concat_same s) by done.
  replace (s * length pre + d - s * length pre)%nat with d by lia.
  by rewrite lookup_app_l.
Qed.

Lemma tuple_text_joined (layout : GeometryLayout) (s : nat)
    (pre post : list (list jsval)) (v : list jsval) :
  Forall (fun v => length v = s) pre -> length v = s -> (dimension_of layout <= s)%nat ->
  tuple_text (dimension_of layout) (s * length pre) (concat (pre ++ v :: post)) =
    joined "," (map jsval_to_string (take (dimension_of layout) v)).
Proof.
  intros Hpre Hv Hdim. unfold tuple_text.
  rewrite <- (Nat.add_0_r (s * length pre)) at 1.
  assert (Hget : forall d, (d < dimension_of layout)%nat ->
            array_get (s * length pre + d) (concat (pre ++ v :: post))
            = default Undefined (v !! d)).
  { intros d Hd. apply array_get_concat; [done | lia]. }
  destruct layout; cbn [dimension_of] in *; cbn [seq map concat Nat.sub];
    rewrite ?Hget by lia.
  all: destruct v as [| a [| b [| c v]]]; cbn [length] in *; try lia.
  all: cbn. all: by rewrite ?app_nil_r.
Qed.

Lemma writeTuples_joined (layout : GeometryLayout) (s : nat) (post : list (list jsval)) :
  (dimension_of layout <= s)%nat ->
  forall (pre : list (list jsval)) (fuel : nat) (acc : text),
    Forall (fun v => length v = s) pre -> Forall (fun v => length v = s) post ->
    (length post < fuel)%nat ->
    writeTuples fuel (dimension_of layout) s (s * length pre) (concat (pre ++ post)) acc =
      Some (acc ++ concat (map (fun v => " "%char ::
               joined "," (map jsval_to_string (take (dimension_of layout) v))) post)).
Proof.
  intros Hdim.
  assert (Hs : (2 <= s)%nat) by (destruct layout; cbn in Hdim; lia).
  induction post as [| v post IH]; intros pre fuel acc Hpre Hpost Hfuel.
  - destruct fuel as [| fuel]; [lia |]. cbn [writeTuples].
    rewrite app_nil_r, (length_concat_same s) by done.
    destruct (Nat.ltb_spec (s * length pre) (s * length pre)); [lia |].
    by rewrite app_nil_r.
  - apply Forall_cons in Hpost as [Hv Hpost].
    destruct fuel as [| fuel]; [cbn in Hfuel; lia |]. cbn [writeTuples].
    rewrite (length_concat_same s), length_app by (apply Forall_app; split; by try constructor).
    cbn [length].
    destruct (Nat.ltb_spec (s * length pre) (s * (length pre + S (length post)))); [| nia].
    rewrite tuple_text_joined by done.
    replace (pre ++ v :: post) with ((pre ++ [v]) ++ post) by (by rewrite <- app_assoc).
    replace (s * length pre + s)%nat with (s * length (pre ++ [v]))%nat
      by (rewrite length_app; cbn; lia).
    rewrite IH; [| apply Forall_app; split; [done | by constructor] | done
                 | cbn in Hfuel; lia].
    cbn [map concat]. by rewrite <- app_assoc.
Qed.

(** X7: for an array that holds [stride] slots for each vertex, where the
    stride is not below the dimension of the layout (2 for XY and XYM, 3
    for XYZ and XYZM), [writeCoordinatesTextNode] writes the first
    coordinates of each vertex, as many as the dimension, joined by commas,
    and the vertices joined by spaces: the slots after them (the M of XYM
    and XYZM) are not written. *)
Theorem writeCoordinates_joined (layout : GeometryLayout) (stride : nat)
    (vs : list (list jsval)) :
  Forall (fun v => length v = stride) vs -> (dimension_of layout <= stride)%nat ->
  writeCoordinatesTextNode (Some layout) stride (concat vs) =
    Ok (Some (joined " "
                (map (fun v => joined "," (map jsval_to_string
                                             (take (dimension_of layout) v))) vs))).
Proof.
  intros Hvs Hdim. unfold writeCoordinatesTextNode.
  fold (dimension_of layout).
  rewrite (length_concat_same stride) by done.
  assert (Hs : (2 <= stride)%nat) by (destruct layout; cbn in Hdim; lia).
  destruct vs as [| v vs]; [by rewrite Nat.mul_0_r |].
  apply Forall_cons in Hvs as [Hv Hvs]. cbn [length].
  destruct (Nat.ltb_spec 0 (stride * S (length vs))); [| nia]. f_equal.
  pose proof (tuple_text_joined layout stride [] vs v ltac:(constructor) Hv Hdim) as Ht.
  cbn [length app] in Ht. rewrite Nat.mul_0_r in Ht. rewrite Ht.
  pose proof (writeTuples_joined layout stride vs Hdim [v]) as Hw.
  cbn [length app] in Hw. rewrite Nat.mul_1_r in Hw.
  rewrite Hw; [| by constructor | done | nia].
  cbn [joined map]. by rewrite map_map.
Qed.

Lemma writeCoordinates_joined_witness :
  Forall (fun v => length v = 4%nat)
    [[Num (of_Z 1); Num (of_Z 2); Num (of_Z 3); Num (of_Z 1514764800000)];
     [Num (of_Z 4); Num (of_Z 5); Num (of_Z 6); Num (of_Z 0)]]
  /\ (dimension_of XYZM <= 4)%nat
  /\ writeCoordinatesTextNode (Some XYZM) 4
       [Num (of_Z 1); Num (of_Z 2); Num (of_Z 3); Num (of_Z 1514764800000);
        Num (of_Z 4); Num (of_Z 5); Num (of_Z 6); Num (of_Z 0)]
     = Ok (Some (of_string "1,2,3 4,5,6")).
Proof.
  assert (H : Forall (fun v => length v = 4%nat)
    [[Num (of_Z 1); Num (of_Z 2); Num (of_Z 3); Num (of_Z 1514764800000)];
     [Num (of_Z 4); Num (of_Z 5); Num (of_Z 6); Num (of_Z 0)]])
    by (by repeat constructor).
  split; [exact H |]. split; [cbn; lia |].
  exact (writeCoordinates_joined XYZM 4 _ H ltac:(cbn; lia)).
Defined.
Lemma writeTuples_ends (dimension stride : nat) (coordinates : list jsval) :
  (0 < stride)%nat ->
  forall (fuel i : nat) (acc : text),
    (length coordinates - i < fuel)%nat ->
    exists written, writeTuples fuel dimension stride i coordinates acc = Some written.
Proof.
  intros Hs. induction fuel as [| fuel IH]; intros i acc Hfuel; [lia |].
  cbn [writeTuples]. destruct (Nat.ltb_spec i (length coordinates)); [| by eexists].
  apply IH. lia.
Qed.

Lemma writeTuples_loops (dimension : nat) (coordinates : list jsval) :
  coordinates <> [] ->
  forall (fuel : nat) (acc : text), writeTuples fuel dimension 0 0 coordinates acc = None.
Proof.
  intros Hne. induction fuel as [| fuel IH]; intros acc; [done |].
  cbn [writeTuples]. destruct coordinates; [done |]. cbn [length Nat.ltb Nat.leb].
  apply IH.
Qed.

(** X8: [writeCoordinatesTextNode] returns a text for every layout, every
    array and every stride above 0; with a stride of 0 and an array that is
    not empty its second loop does not end, however many iterations it is
    given; and without a layout it fails assertion 34. *)
Theorem writeCoordinates_ends (layout : GeometryLayout) (coordinates : list jsval) :
  (forall stride, (0 < stride)%nat ->
     exists written,
       writeCoordinatesTextNode (Some layout) stride coordinates = Ok (Some written))
  /\ (coordinates <> [] ->
      forall fuel acc,
        writeTuples fuel (dimension_of layout) 0 0 coordinates acc = None)
  /\ (forall stride,
        writeCoordinatesTextNode None stride coordinates = Throw (AssertionError 34)).
Proof.
  split; [| split].
  - intros stride Hs. unfold writeCoordinatesTextNode.
    destruct (0 <? length coordinates)%nat; [| by eexists].
    destruct (writeTuples_ends
                (match layout with XY | XYM => 2 | XYZ | XYZM => 3 end)%nat
                stride coordinates Hs (S (length coordinates)) stride
                (tuple_text (match layout with XY | XYM => 2 | XYZ | XYZM => 3 end)%nat
                            0 coordinates))
      as [written ->]; [lia | by eexists].
  - intros Hne fuel acc. by apply writeTuples_loops.
  - reflexivity.
Qed.

Lemma writeCoordinates_ends_witness :
  (exists written,
     writeCoordinatesTextNode (Some XY) 2 [Num (of_Z 1); Num (of_Z 2); Num (of_Z 3)]
     = Ok (Some written))
  /\ writeTuples 1000 (dimension_of XY) 0 0 [Num (of_Z 1); Num (of_Z 2)] [] = None.
Proof.
  split.
  - apply (writeCoordinates_ends XY [Num (of_Z 1); Num (of_Z 2); Num (of_Z 3)]). lia.
  - apply (writeCoordinates_ends XY [Num (of_Z 1); Num (of_Z 2)]). discriminate.
Defined.

(** An array that is not whole vertices is written with [undefined] for
    the slots it lacks. *)
Example writeCoordinates_short_array :
  writeCoordinatesTextNode (Some XYZ) 3
    [Num (of_Z 1); Num (of_Z 2); Num (of_Z 3); Num (of_Z 4)]
  = Ok (Some (of_string "1,2,3 4,undefined,undefined")).
Proof. reflexivity. Qed.
(** ** Vertices of two coordinates *)

Lemma exec_tuple2 (N1 N2 rest : text) :
  literal N1 -> literal N2 ->
  (rest = [] \/ exists r, rest = " "%char :: r /\ head_not is_space r
                          /\ head_not (is_char ",") r) ->
  exec COORDINATES_RE (N1 ++ ","%char :: N2 ++ rest) =
    Some (MatchResult (N1 ++ ","%char :: N2 ++ take 1 rest)
                      [(2%nat, N2); (1%nat, N1)] (drop 1 rest)).
Proof.
  intros H1 H2 Hrest. unfold exec, COORDINATES_RE. cbn [seqs].
  set (s := N1 ++ ","%char :: N2 ++ rest).
  set (kf := fun (s' : text) (c : captures) =>
               Some (MatchResult (take (length s - length s') s) c s')).
  rewrite seq_eq, star_eq, star_k_nil by (by apply literal_head).
  rewrite seq_eq, grp_eq. subst s.
  apply number_re_literal; [done | by repeat split |].
  rewrite take_consumed.
  rewrite seq_eq, star_eq, star_k_nil by reflexivity.
  rewrite seq_eq, cls_cons by reflexivity.
  rewrite seq_eq, star_eq, star_k_nil by (by apply literal_head).
  rewrite seq_eq, grp_eq.
  apply number_re_literal; [done | |].
  { destruct Hrest as [-> | (r & -> & _)]; [done | by repeat split]. }
  rewrite take_consumed.
  rewrite seq_eq, opt_none.
  - rewrite star_eq.
    destruct Hrest as [-> | (r & -> & Hr & _)].
    + cbn [star_k]. unfold kf. rewrite !app_nil_r.
      cbn [length]. rewrite Nat.sub_0_r, firstn_all. reflexivity.
    + change (" "%char :: r) with ([" "%char] ++ r).
      erewrite star_k_first; [| by repeat constructor | exact Hr | reflexivity].
      unfold kf. cbn [take drop app]. f_equal. f_equal.
      replace (N1 ++ ","%char :: N2 ++ " "%char :: r)
        with ((N1 ++ ","%char :: N2 ++ [" "%char]) ++ r).
      * apply take_consumed.
      * by repeat (rewrite <- app_assoc; cbn [app]).
  - rewrite seq_eq, star_eq.
    destruct Hrest as [-> | (r & -> & Hr & Hc)].
    + cbn [star_k]. rewrite seq_eq. by apply cls_none.
    + cbn [star_k]. change (is_space " ") with true. cbv iota.
      rewrite star_k_nil by done. rewrite seq_eq, cls_none by done.
      rewrite seq_eq. by apply cls_none.
Qed.

Lemma literal_head_comma (N rest : text) :
  literal N -> head_not (is_char ",") (N ++ rest).
Proof.
  intros (sg & w1 & fr & w2 & ex & esg & w3 & e & -> & Hsg & Hw1 & Hne1 & _).
  destruct Hsg as [-> | [-> | ->]]; [| reflexivity | reflexivity].
  destruct Hw1 as [| a w1 Ha Hw1]; [done |].
  by destruct (digit_facts a Ha) as (_ & _ & _ & _ & _ & ? & _).
Qed.

Lemma exec_vertex2 (t : dec * dec) (rest : text) :
  (rest = [] \/ exists t' r, rest = " "%char :: vertex2_text t' ++ r) ->
  exists m,
    exec COORDINATES_RE (vertex2_text t ++ rest) = Some m
    /\ tuple_of m = read_vertices2 [t] /\ RegExp.rest m = drop 1 rest.
Proof.
  intros Hrest. destruct t as [x y]. unfold vertex2_text.
  destruct (to_string_read x) as [Hx Hrx].
  destruct (to_string_read y) as [Hy Hry].
  eexists. split; [| split].
  - repeat (rewrite <- app_assoc; cbn [app]).
    apply exec_tuple2; [done | done |].
    destruct Hrest as [-> | ([x' y'] & r & ->)]; [by left |].
    right. eexists. split; [reflexivity |]. unfold vertex2_text.
    rewrite <- app_assoc.
    split; [apply literal_head | apply literal_head_comma]; apply to_string_read.
  - unfold tuple_of, parseFloat_group, group. cbn [groups capture Nat.eqb].
    by rewrite Hrx, Hry.
  - reflexivity.
Qed.

Lemma scans_vertices2 (ts : list (dec * dec)) :
  forall t,
    scans (vertex2_text t ++ more_vertices2_text ts) (read_vertices2 (t :: ts)) [].
Proof.
  induction ts as [| t' ts IH]; intros t.
  - destruct (exec_vertex2 t []) as (m & Hexec & Htuple & Hrest); [by left |].
    rewrite <- (app_nil_r (read_vertices2 [t])).
    rewrite <- Htuple. apply (scans_tuple _ m); [exact Hexec |].
    rewrite Hrest. by apply scans_end.
  - unfold more_vertices2_text. cbn [map concat]. fold (more_vertices2_text ts).
    destruct (exec_vertex2 t (" "%char :: vertex2_text t' ++ more_vertices2_text ts))
      as (m & Hexec & Htuple & Hrest).
    { right. by eexists _, _. }
    replace (read_vertices2 (t :: t' :: ts))
      with (read_vertices2 [t] ++ read_vertices2 (t' :: ts)).
    2:{ unfold read_vertices2. cbn [map concat]. by rewrite app_nil_r. }
    rewrite <- Htuple. apply (scans_tuple _ m); [exact Hexec |].
    rewrite Hrest. apply IH.
Qed.

Lemma vertices2_text (t : dec * dec) (ts : list (dec * dec)) :
  writeCoordinatesTextNode (Some XY) 2 (vertices2 (t :: ts)) =
    Ok (Some (vertex2_text t ++ more_vertices2_text ts)).
Proof.
  assert (Hlen : forall l : list (dec * dec),
            Forall (fun v : list jsval => length v = 2%nat)
                   (map (fun '(x, y) => [Num x; Num y]) l)).
  { intros l. apply Forall_forall. intros v Hv. apply list_elem_of_In in Hv.
    apply in_map_iff in Hv as ([x' y'] & <- & _). reflexivity. }
  destruct t as [x y].
  unfold writeCoordinatesTextNode, vertices2.
  rewrite (length_concat_same 2) by apply Hlen. rewrite length_map. cbn [length].
  destruct (Nat.ltb_spec 0 (2 * S (length ts))); [| lia]. f_equal. cbn [map].
  pose proof (tuple_text_joined XY 2 [] (map (fun '(x, y) => [Num x; Num y]) ts)
                [Num x; Num y] ltac:(constructor) eq_refl ltac:(cbn; lia)) as Ht.
  cbn [length app dimension_of] in Ht. rewrite Nat.mul_0_r in Ht. rewrite Ht.
  pose proof (writeTuples_joined XY 2 (map (fun '(x, y) => [Num x; Num y]) ts)
                ltac:(cbn; lia) [[Num x; Num y]]) as Hw.
  cbn [length app dimension_of] in Hw. rewrite Nat.mul_1_r in Hw.
  rewrite Hw; [| by repeat constructor | apply Hlen | rewrite length_map; lia].
  f_equal. cbn [take map joined concat jsval_to_string vertex2_text].
  rewrite app_nil_r, <- !app_assoc. cbn [app]. do 3 f_equal.
  unfold more_vertices2_text. rewrite map_map. f_equal.
  apply map_ext. intros [x' y']. cbn. by rewrite app_nil_r.
Qed.

Lemma same_xy_vertices (vs : list (dec * dec)) :
  same_xy (vertices2 vs) (read_vertices2 vs).
Proof.
  induction vs as [| [x y] vs IH]; [constructor |].
  unfold vertices2, read_vertices2 in *. cbn [map concat app].
  constructor; [apply normalize_value | apply normalize_value | exact IH].
Qed.

(** X9: vertices of two finite coordinates written by
    [writeCoordinatesTextNode], for the layout XY and a stride of 2, are
    read back by [readFlatCoordinates] with a third coordinate: the array
    read has, for each vertex, numbers of the value of its two coordinates
    and then 0. *)
Theorem coordinates_xy_write_read (vs : list (dec * dec)) :
  exists (written : text) (l : list jsval),
    writeCoordinatesTextNode (Some XY) 2 (vertices2 vs) = Ok (Some written)
    /\ readFlatCoordinates written = Some l
    /\ same_xy (vertices2 vs) l.
Proof.
  destruct vs as [| t ts].
  - exists [], []. repeat split. constructor.
  - exists (vertex2_text t ++ more_vertices2_text ts), (read_vertices2 (t :: ts)).
    split; [apply vertices2_text |]. split.
    + by rewrite (readFlatCoordinates_scans _ _ _ (scans_vertices2 ts t)).
    + apply same_xy_vertices.
Qed.
(** ** Tracks with more timestamps than positions *)

Lemma length_hole_vertices (ws : list jsval) :
  length (hole_vertices ws) = (4 * length ws)%nat.
Proof. unfold hole_vertices. induction ws as [| w ws IH]; [done |]. simpl in *. lia. Qed.

(** Timestamps stored after the end of the array. *)
Lemma setWhens_after (ws : list jsval) :
  forall (fc whens : list jsval) (k : nat),
    length fc = (4 * k)%nat ->
    (forall i, (i < length ws)%nat -> whens !! (k + i)%nat = ws !! i) ->
    fold_left (fun fc i => array_set (4 * i + 3) (array_get i whens) fc)
              (seq k (length ws)) fc
    = fc ++ hole_vertices ws.
Proof.
  induction ws as [| w ws IH]; intros fc whens k Hfc Hwhens.
  - simpl. by rewrite app_nil_r.
  - cbn [length seq fold_left].
    assert (Hw : array_get k whens = w).
    { unfold array_get. specialize (Hwhens 0%nat ltac:(simpl; lia)).
      rewrite Nat.add_0_r in Hwhens. by rewrite Hwhens. }
    rewrite Hw.
    assert (Hset : array_set (4 * k + 3) w fc = fc ++ [Undefined; Undefined; Undefined; w]).
    { unfold array_set.
      destruct (Nat.ltb_spec (4 * k + 3) (length fc)) as [Hbad | _]; [lia |].
      replace (4 * k + 3 - length fc)%nat with 3%nat by lia. reflexivity. }
    rewrite Hset, (IH _ whens (S k)).
    + unfold hole_vertices. cbn [map concat]. by rewrite <- app_assoc.
    + rewrite length_app. simpl. lia.
    + intros i Hi. specialize (Hwhens (S i) ltac:(simpl; lia)).
      replace (S k + i)%nat with (k + S i)%nat by lia. exact Hwhens.
Qed.

Lemma zipTrack_take (ps : list (jsval * jsval * jsval)) (ws : list jsval) :
  zipTrack ps (take (length ps) ws) = zipTrack ps ws.
Proof.
  revert ws. induction ps as [| [[x y] z] ps IH]; intros ws; [by destruct ws |].
  destruct ws as [| w ws]; [done |]. cbn [length take zipTrack]. by rewrite IH.
Qed.

Lemma length_zipTrack (ps : list (jsval * jsval * jsval)) (ws : list jsval) :
  (length ps <= length ws)%nat -> length (zipTrack ps ws) = (4 * length ps)%nat.
Proof.
  revert ws. induction ps as [| [[x y] z] ps IH]; intros ws Hlen; [done |].
  destruct ws as [| w ws]; [simpl in Hlen; lia |].
  cbn [zipTrack length app]. rewrite IH by (simpl in Hlen; lia). lia.
Qed.

(** The loop of [readGxTrack] for more timestamps than positions. *)
Lemma setWhens_extra (ps : list (jsval * jsval * jsval)) (ws : list jsval) :
  (length ps < length ws)%nat ->
  setWhens (Nat.min (length (track_positions ps)) (length ws)) ws (track_positions ps)
  = zipTrack ps ws
      ++ hole_vertices (take (Nat.min (4 * length ps) (length ws) - length ps)
                             (drop (length ps) ws)).
Proof.
  intros Hlen. rewrite length_track_positions.
  set (ii := Nat.min (4 * length ps) (length ws)).
  unfold setWhens.
  destruct (decide (length ps = 0%nat)) as [Hz | Hnz].
  { destruct ps; [| discriminate]. subst ii. by cbn. }
  assert (Hii : (length ps <= ii <= length ws)%nat) by (subst ii; lia).
  replace ii with (length ps + (ii - length ps))%nat at 1 by lia.
  rewrite seq_app, fold_left_app. cbn [Nat.add].
  pose proof (setWhens_from (take (length ps) ws) [] ps ws 0) as H1.
  rewrite length_take, Nat.min_l in H1 by lia.
  cbn [app] in H1. rewrite H1; [| done | lia |].
  2:{ intros i Hi. cbn [Nat.add]. by rewrite lookup_take_lt. }
  rewrite firstn_all, drop_all, zipTrack_take. cbn [track_positions map concat].
  rewrite app_nil_r.
  set (extra := take (ii - length ps) (drop (length ps) ws)).
  assert (Hextra : length extra = (ii - length ps)%nat).
  { subst extra. rewrite length_take, length_drop. lia. }
  rewrite <- Hextra.
  apply setWhens_after.
  - apply length_zipTrack. lia.
  - intros i Hi. subst extra. rewrite lookup_take_lt by lia. by rewrite lookup_drop.
Qed.
Section MoreTracks.

Context (Date_parse : string -> option Z).

(** What [readGxTrack] returns, for every node. *)
Lemma readGxTrack_result (n : node) :
  readGxTrack Date_parse n =
    let ps := track_coords n in
    let ws := track_whens Date_parse n in
    Ok (Some (LineString XYZM
                (setWhens (Nat.min (length (track_positions ps)) (length ws)) ws
                          (track_positions ps)) ∅)).
Proof.
  unfold readGxTrack, pushParseAndPop. destruct n as [t | ns name attrs cs]; [reflexivity |].
  by rewrite parse_track_children, bind_Ok.
Qed.

(** X10: for a track with more timestamps than positions, [readGxTrack]
    returns a line string of layout XYZM with the positions, each with the
    timestamp of its rank, followed by one vertex without coordinates
    (three empty slots) for each timestamp after them, up to the rank
    before four times the number of positions; with no position at all the
    line string is empty. *)
Theorem readGxTrack_extra_whens (n : node) :
  (length (track_coords n) < length (track_whens Date_parse n))%nat ->
  readGxTrack Date_parse n =
    Ok (Some (LineString XYZM
                (zipTrack (track_coords n) (track_whens Date_parse n)
                 ++ hole_vertices
                      (take (Nat.min (4 * length (track_coords n))
                                     (length (track_whens Date_parse n))
                             - length (track_coords n))
                            (drop (length (track_coords n))
                                  (track_whens Date_parse n))))
                ∅)).
Proof.
  intros Hlen. rewrite readGxTrack_result. cbv zeta. by rewrite setWhens_extra.
Qed.

End MoreTracks.

Lemma readGxTrack_extra_whens_witness :
  (length (track_coords Sample.track_1_coord_2_whens)
   < length (track_whens Sample.epoch_2018 Sample.track_1_coord_2_whens))%nat
  /\ readGxTrack Sample.epoch_2018 Sample.track_1_coord_2_whens =
       Ok (Some (LineString XYZM
                   [Sample.one; Sample.two; Sample.three; Num (of_Z 1514764800000);
                    Undefined; Undefined; Undefined; Num (of_Z 1514764810000)] ∅)).
Proof.
  split; [vm_compute; lia |].
  apply (readGxTrack_extra_whens Sample.epoch_2018 Sample.track_1_coord_2_whens).
  vm_compute. lia.
Defined.

Section MultiTracks.

Context (Date_parse : string -> option Z).

(** X11: [readGxMultiTrack] returns a multi-line-string for every node; its
    members are the line strings [readGxTrack] returns for the child
    elements [Track] of the extension namespace, in the order of the
    document. *)
Theorem readGxMultiTrack_members (n : node) :
  exists lines,
    readGxMultiTrack Date_parse n = Ok (Some (MultiLineString lines ∅))
    /\ Forall2 (fun c line => readGxTrack Date_parse c = Ok (Some line))
               (filter (fun c => is_track c = true) (children_of n)) lines.
Proof.
  unfold readGxMultiTrack, pushParseAndPop.
  destruct n as [t | ns name attrs cs]; [exists []; split; [reflexivity | constructor] |].
  cbn [children_of].
  enough (H : exists lines,
            parseNode (GX_MULTITRACK_GEOMETRY_PARSERS Date_parse)
                      (Element ns name attrs cs) [] = Ok lines
            /\ Forall2 (fun c line => readGxTrack Date_parse c = Ok (Some line))
                       (filter (fun c => is_track c = true) cs) lines).
  { destruct H as (lines & -> & H). by exists lines. }
  induction cs as [| c cs IH] using rev_ind.
  - exists []. split; [reflexivity | constructor].
  - destruct IH as (lines & Hparse & Hall).
    rewrite parseNode_app, Hparse, bind_Ok, filter_app.
    destruct c as [t | cns cname cattrs ckids].
    { exists lines. split; [reflexivity |]. by rewrite app_nil_r. }
    rewrite parseNode_singleton.
    unfold dispatch_of, GX_MULTITRACK_GEOMETRY_PARSERS, makeStructureNS.
    rewrite filter_cons, filter_nil. cbn [is_track].
    destruct (includes GX_NAMESPACE_URIS cns); cbn [andb structure_lookup].
    + destruct (String.eqb cname "Track").
      * rewrite decide_True by done. unfold makeArrayPusher.
        rewrite readGxTrack_result. cbv zeta. rewrite bind_Ok.
        eexists. split; [reflexivity |].
        apply Forall2_app; [done |]. constructor; [| constructor].
        by rewrite readGxTrack_result.
      * rewrite decide_False by done. exists lines. split; [done |].
        by rewrite app_nil_r.
    + rewrite decide_False by done. exists lines. split; [done |].
      by rewrite app_nil_r.
Qed.

End MultiTracks.
(** ** Geometries read from elements *)

(** A parse whose parsers do not throw does not throw. *)
Lemma parseNode_total {T} (p : parsersNS T) (n : node) (o : T) :
  (forall ns name f c o, p ns name = Some f -> exists o', f c o = Ok o') ->
  exists o', parseNode p n o = Ok o'.
Proof.
  intros Hp. destruct n as [t | ns name attrs cs]; [by exists o |].
  revert o. induction cs as [| c cs IH] using rev_ind; intros o; [by exists o |].
  rewrite parseNode_app. destruct (IH o) as [o1 ->]. rewrite bind_Ok.
  rewrite parseNode_singleton. destruct c as [t | cns cname cattrs ckids]; [by exists o1 |].
  unfold dispatch_of. destruct (p cns cname) as [f |] eqn:Hf; [| by exists o1].
  by eapply Hp.
Qed.

(** The last [coordinates] child that reads as a text of tuples decides. *)
Lemma parse_coordinates (n : node) (o : option (list jsval)) :
  parseNode GEOMETRY_FLAT_COORDINATES_PARSERS n o =
    Ok (match ring_coordinates n with
        | Some f => Some f
        | None => o
        end).
Proof.
  destruct n as [t | ns name attrs cs]; [reflexivity |].
  unfold ring_coordinates. cbn [children_of].
  induction cs as [| c cs IH] using rev_ind; [reflexivity |].
  rewrite parseNode_app, IH, bind_Ok, parseNode_singleton, omap_app.
  destruct c as [t | cns cname cattrs ckids].
  { cbn. by rewrite app_nil_r. }
  change (omap _ [Element cns cname cattrs ckids])
    with (match (if includes NAMESPACE_URIS cns && String.eqb cname "coordinates"
                 then readFlatCoordinates (text_of (Element cns cname cattrs ckids))
                 else None) with
          | Some f => [f]
          | None => []
          end).
  unfold dispatch_of, GEOMETRY_FLAT_COORDINATES_PARSERS, makeStructureNS.
  destruct (includes NAMESPACE_URIS cns); cbn [andb structure_lookup];
    [| by rewrite app_nil_r].
  destruct (String.eqb cname "coordinates"); [| by rewrite app_nil_r].
  unfold makeReplacer. rewrite bind_Ok.
  destruct (readFlatCoordinates _) as [f |]; cbn [fmap option_fmap option_map].
  - by rewrite last_snoc.
  - by rewrite app_nil_r.
Qed.

Section PrimitiveGeometries.

Context (readBoolean : node -> option bool).

(** The properties of a geometry element are read without exception. *)
Lemma parse_geometry_properties (n : node) (o : properties) :
  exists props, parseNode (EXTRUDE_AND_ALTITUDE_MODE_PARSERS readBoolean) n o = Ok props.
Proof.
  apply parseNode_total. intros ns name f c o0.
  unfold EXTRUDE_AND_ALTITUDE_MODE_PARSERS, makeStructureNS.
  destruct (includes NAMESPACE_URIS ns); [| done]. cbn [structure_lookup].
  repeat (destruct (String.eqb name _); [intros [= <-]; by eexists |]). done.
Qed.

(** X12: a [Point], [LineString] or [LinearRing] element is read without
    exception, and the last of its [coordinates] children that reads as a
    text of tuples decides: the geometry has the coordinates
    [readFlatCoordinates] reads from the text of that child, with the
    layout XYZ (and, for a linear ring, one end, the length of the
    coordinates), whatever the [coordinates] children after it that read as
    nothing; it is absent when no [coordinates] child reads as a text of
    tuples. *)
Theorem primitive_geometry_coordinates (n : node) :
  exists props,
    pushParseAndPop ∅ (EXTRUDE_AND_ALTITUDE_MODE_PARSERS readBoolean) n = Ok props
    /\ readPoint readBoolean n =
         Ok ((fun f => Point XYZ f props) <$> ring_coordinates n)
    /\ readLineString readBoolean n =
         Ok ((fun f => LineString XYZ f props) <$> ring_coordinates n)
    /\ readLinearRing readBoolean n =
         Ok ((fun f => Polygon XYZ f [length f] props) <$> ring_coordinates n).
Proof.
  destruct (parse_geometry_properties n ∅) as [props Hprops].
  exists props. split; [exact Hprops |].
  unfold readPoint, readLineString, readLinearRing, readFlatCoordinatesFromNode,
    pushParseAndPop in *.
  rewrite Hprops, !bind_Ok, parse_coordinates, !bind_Ok.
  by destruct (ring_coordinates n).
Qed.

End PrimitiveGeometries.

(** A point element with a second [coordinates] child that is no text of
    tuples keeps the coordinates of the first. *)
Example point_with_garbage_after_coordinates :
  readPoint Sample.no_boolean
    (Element Sample.KML_NS "Point" []
       [Sample.leaf Sample.KML_NS "coordinates" "1,2,3";
        Sample.leaf Sample.KML_NS "coordinates" "here"])
  = Ok (Some (Point XYZ [Sample.one; Sample.two; Sample.three] ∅)).
Proof. reflexivity. Qed.

(** ** Polygons *)

Lemma last_child_snoc (name : string) ns nm attrs (cs : list node) (c : node) :
  last_child name (Element ns nm attrs (cs ++ [c])) =
    if is_kml_child name c then Some c else last_child name (Element ns nm attrs cs).
Proof.
  unfold last_child. cbn [children_of]. rewrite filter_app, filter_cons, filter_nil.
  destruct (is_kml_child name c).
  - rewrite decide_True by done. by rewrite last_snoc.
  - rewrite decide_False by done. by rewrite app_nil_r.
Qed.

Lemma readFlatLinearRing_ring (r : node) : readFlatLinearRing r = Ok (ring_coordinates r).
Proof.
  unfold readFlatLinearRing, pushParseAndPop.
  change FLAT_LINEAR_RING_PARSERS with GEOMETRY_FLAT_COORDINATES_PARSERS.
  rewrite parse_coordinates. by destruct (ring_coordinates r).
Qed.

(** The last [LinearRing] child of a boundary decides. *)
Lemma parse_boundary (b : node) (o : option (list jsval)) :
  parseNode INNER_BOUNDARY_IS_PARSERS b o =
    Ok (match last_child "LinearRing" b with
        | Some r => ring_coordinates r
        | None => o
        end).
Proof.
  destruct b as [t | ns name attrs cs]; [reflexivity |].
  induction cs as [| c cs IH] using rev_ind; [reflexivity |].
  rewrite parseNode_app, IH, bind_Ok, last_child_snoc, parseNode_singleton.
  destruct c as [t | cns cname cattrs ckids]; [reflexivity |].
  unfold dispatch_of, INNER_BOUNDARY_IS_PARSERS, makeStructureNS. cbn [is_kml_child].
  destruct (includes NAMESPACE_URIS cns); cbn [andb structure_lookup]; [| reflexivity].
  destruct (String.eqb cname "LinearRing"); [| reflexivity].
  unfold makeReplacer. by rewrite readFlatLinearRing_ring, !bind_Ok.
Qed.

Lemma boundary_parsers (c : node) :
  pushParseAndPop None INNER_BOUNDARY_IS_PARSERS c = Ok (boundary_ring c)
  /\ pushParseAndPop None OUTER_BOUNDARY_IS_PARSERS c = Ok (boundary_ring c).
Proof.
  change OUTER_BOUNDARY_IS_PARSERS with INNER_BOUNDARY_IS_PARSERS.
  unfold pushParseAndPop, boundary_ring. rewrite parse_boundary.
  by destruct (last_child "LinearRing" c).
Qed.

(** The boundaries of a polygon element fill the array of rings: the outer
    one its first slot, the inner ones the slots after it. *)
Lemma parse_rings ns name attrs (cs : list node) (first : option (list jsval))
    (others : list (option (list jsval))) :
  let n := Element ns name attrs cs in
  parseNode FLAT_LINEAR_RINGS_PARSERS n (first :: others) =
    Ok (match outer_ring n with
        | Some r => Some r
        | None => first
        end :: others ++ map Some (inner_rings n)).
Proof.
  induction cs as [| c cs IH] using rev_ind; intros n; subst n.
  - cbn. by rewrite app_nil_r.
  - rewrite parseNode_app, IH, bind_Ok. clear IH.
    unfold outer_ring, inner_rings. cbn [children_of].
    rewrite !omap_app. cbn [omap list_omap].
    rewrite parseNode_singleton.
    destruct c as [t | cns cname cattrs ckids].
    { cbn [is_kml_child]. by rewrite !app_nil_r. }
    unfold dispatch_of, FLAT_LINEAR_RINGS_PARSERS, makeStructureNS. cbn [is_kml_child].
    destruct (includes NAMESPACE_URIS cns); cbn [andb structure_lookup];
      [| by rewrite !app_nil_r].
    destruct (String.eqb cname "innerBoundaryIs") eqn:Hinner.
    + apply String.eqb_eq in Hinner as ->. cbn [String.eqb Ascii.eqb Bool.eqb].
      rewrite app_nil_r. unfold innerBoundaryIsParser.
      destruct (boundary_parsers (Element cns "innerBoundaryIs" cattrs ckids)) as [-> _].
      rewrite bind_Ok.
      destruct (boundary_ring _) as [r |].
      * cbn [app]. by rewrite map_app, app_assoc.
      * by rewrite app_nil_r.
    + destruct (String.eqb cname "outerBoundaryIs") eqn:Houter.
      * unfold outerBoundaryIsParser.
        destruct (boundary_parsers (Element cns cname cattrs ckids)) as [_ ->].
        rewrite bind_Ok, app_nil_r.
        destruct (boundary_ring _) as [r |].
        -- by rewrite last_snoc.
        -- by rewrite app_nil_r.
      * by rewrite !app_nil_r.
Qed.

Lemma extendRings_rings (rings : list (list jsval)) :
  forall (flatCoordinates : list jsval) (ends : list nat),
    extendRings (map Some rings) flatCoordinates ends =
      (flatCoordinates ++ concat rings,
       ends ++ ring_ends (length flatCoordinates) rings).
Proof.
  induction rings as [| r rings IH]; intros flatCoordinates ends.
  - cbn. by rewrite !app_nil_r.
  - cbn [map extendRings default concat ring_ends]. rewrite IH.
    rewrite length_app, <- !app_assoc. reflexivity.
Qed.

Section Polygons.

Context (readBoolean : node -> option bool).

(** X13: a [Polygon] element is read without exception.  The ring of a
    boundary is that of its last [LinearRing] child: the coordinates of the
    last [coordinates] child of it that reads as a text of tuples.  The
    element gives a polygon when one of its [outerBoundaryIs] children has
    a ring, the last such child deciding; the coordinates are those of this
    ring, wherever the child stands among the others, followed by the rings
    of the [innerBoundaryIs] children in document order, and the ends are
    the lengths of the coordinates after each ring.  Without outer ring the
    polygon is absent. *)
Theorem readPolygon_rings (n : node) :
  exists props,
    pushParseAndPop ∅ (EXTRUDE_AND_ALTITUDE_MODE_PARSERS readBoolean) n = Ok props
    /\ readPolygon readBoolean n =
         Ok (match outer_ring n with
             | Some outer =>
                 Some (Polygon XYZ (outer ++ concat (inner_rings n))
                               (length outer :: ring_ends (length outer) (inner_rings n))
                               props)
             | None => None
             end).
Proof.
  destruct (parse_geometry_properties readBoolean n ∅) as [props Hprops].
  exists props. split; [exact Hprops |].
  unfold readPolygon, pushParseAndPop in *. rewrite Hprops, bind_Ok.
  destruct n as [t | ns name attrs cs]; [reflexivity |].
  rewrite parse_rings, bind_Ok. cbn [app].
  destruct (outer_ring _) as [outer |]; [| reflexivity].
  by rewrite extendRings_rings.
Qed.

End Polygons.

(** The outer boundary after an inner one still comes first. *)
Example polygon_outer_boundary_last :
  readPolygon Sample.no_boolean
    (Element Sample.KML_NS "Polygon" []
       [Element Sample.KML_NS "innerBoundaryIs" []
          [Element Sample.KML_NS "LinearRing" []
             [Sample.leaf Sample.KML_NS "coordinates" "1,1"]];
        Element Sample.KML_NS "outerBoundaryIs" []
          [Element Sample.KML_NS "LinearRing" []
             [Sample.leaf Sample.KML_NS "coordinates" "0,0 9,9"]]])
  = Ok (Some (Polygon XYZ
                [Sample.zero; Sample.zero; Sample.zero;
                 Num (of_Z 9); Num (of_Z 9); Sample.zero;
                 Sample.one; Sample.one; Sample.zero]
                [6; 9]%nat ∅)).
Proof. reflexivity. Qed.

(** A ring whose second [coordinates] child is no text of tuples keeps the
    coordinates of the first. *)
Example polygon_with_garbage_after_coordinates :
  readPolygon Sample.no_boolean
    (Element Sample.KML_NS "Polygon" []
       [Element Sample.KML_NS "outerBoundaryIs" []
          [Element Sample.KML_NS "LinearRing" []
             [Sample.leaf Sample.KML_NS "coordinates" "0,0 9,9";
              Sample.leaf Sample.KML_NS "coordinates" "here"]]])
  = Ok (Some (Polygon XYZ
                [Sample.zero; Sample.zero; Sample.zero;
                 Num (of_Z 9); Num (of_Z 9); Sample.zero]
                [6]%nat ∅)).
Proof. reflexivity. Qed.

Lemma whole_vertices_app (f g : list jsval) :
  whole_vertices f -> whole_vertices g -> whole_vertices (f ++ g).
Proof.
  intros [[k Hk] Hf] [[k' Hk'] Hg]. split.
  - exists (k + k')%nat. rewrite length_app. lia.
  - by apply Forall_app.
Qed.

Lemma ring_coordinates_whole (r : node) (f : list jsval) :
  ring_coordinates r = Some f -> whole_vertices f.
Proof.
  unfold ring_coordinates. intros H. apply last_Some_elem_of in H.
  apply list_elem_of_omap in H as (c & _ & H).
  destruct (is_kml_child "coordinates" c); [| done].
  apply readFlatCoordinates_inv in H. apply scans_tuples in H as [Hlen Hall].
  split; [exact Hlen |]. eapply Forall_impl; [exact Hall |]. apply a_number_spec.
Qed.

Lemma boundary_ring_whole (b : node) (f : list jsval) :
  boundary_ring b = Some f -> whole_vertices f.
Proof.
  unfold boundary_ring. destruct (last_child "LinearRing" b); [| done].
  apply ring_coordinates_whole.
Qed.

Lemma inner_rings_whole (n : node) : Forall whole_vertices (inner_rings n).
Proof.
  unfold inner_rings. apply Forall_forall. intros f Hf.
  apply list_elem_of_omap in Hf as (c & _ & Hc).
  destruct (is_kml_child "innerBoundaryIs" c); [| done].
  by apply boundary_ring_whole in Hc.
Qed.

Lemma outer_ring_whole (n : node) (f : list jsval) :
  outer_ring n = Some f -> whole_vertices f.
Proof.
  unfold outer_ring. intros H. apply last_Some_elem_of in H.
  apply list_elem_of_omap in H as (c & _ & Hc).
  destruct (is_kml_child "outerBoundaryIs" c); [| done].
  by apply boundary_ring_whole in Hc.
Qed.

Lemma ring_ends_facts (rings : list (list jsval)) :
  forall start,
    Forall whole_vertices rings -> (exists k, start = (3 * k)%nat) ->
    Forall (fun e => (start <= e)%nat /\ exists k, e = (3 * k)%nat) (ring_ends start rings)
    /\ nondecreasing (start :: ring_ends start rings)
    /\ last (start :: ring_ends start rings) = Some (start + length (concat rings))%nat
    /\ length (ring_ends start rings) = length rings.
Proof.
  induction rings as [| r rings IH]; intros start Hrings [k Hk].
  - cbn. split; [constructor |]. split; [done |]. split; [f_equal; lia | done].
  - apply Forall_cons in Hrings as [[[k' Hr] _] Hrings].
    destruct (IH (start + length r)%nat Hrings) as (Hall & Hsorted & Hlast & Hlen).
    { exists (k + k')%nat. lia. }
    cbn [ring_ends concat]. split; [| split; [| split]].
    + constructor; [split; [lia | exists (k + k')%nat; lia] |].
      eapply Forall_impl; [exact Hall |]. intros e [He Hk3]. split; [lia | done].
    + cbn [nondecreasing] in *. split; [lia | exact Hsorted].
    + rewrite last_cons_cons, Hlast, length_app. f_equal. lia.
    + cbn [length]. by rewrite Hlen.
Qed.

Section PolygonInvariants.

Context (readBoolean : node -> option bool).

(** X14: every polygon [readPolygon] returns is well formed: its layout is
    XYZ, its coordinates are three numbers for each vertex, none of them
    NaN and no slot empty, it has one end for the outer ring and one for
    each inner ring, the ends are multiples of 3 that do not decrease, and
    the last end is the length of the coordinates. *)
Theorem readPolygon_well_formed (n : node) (layout : GeometryLayout)
    (flatCoordinates : list jsval) (ends : list nat) (props : properties) :
  readPolygon readBoolean n = Ok (Some (Polygon layout flatCoordinates ends props)) ->
  layout = XYZ
  /\ whole_vertices flatCoordinates
  /\ length ends = S (length (inner_rings n))
  /\ Forall (fun e => exists k, e = (3 * k)%nat) ends
  /\ nondecreasing ends
  /\ last ends = Some (length flatCoordinates).
Proof.
  destruct (parse_geometry_properties readBoolean n ∅) as [props0 Hprops].
  unfold readPolygon, pushParseAndPop in *. rewrite Hprops, bind_Ok.
  destruct n as [t | ns name attrs cs]; [discriminate |].
  rewrite parse_rings, bind_Ok. cbn [app].
  destruct (outer_ring _) as [outer |] eqn:Houter; [| discriminate].
  rewrite extendRings_rings. intros [= <- <- <- <-].
  pose proof (outer_ring_whole _ _ Houter) as Hwhole.
  pose proof (inner_rings_whole (Element ns name attrs cs)) as Hinner.
  destruct (ring_ends_facts _ (length outer) Hinner (proj1 Hwhole))
    as (Hall & Hsorted & Hlast & Hlen).
  split; [done |]. split.
  { apply whole_vertices_app; [done |].
    clear -Hinner. induction Hinner as [| r rs Hr Hrs IH]; [split; [by exists 0%nat | constructor] |].
    cbn [concat]. by apply whole_vertices_app. }
  split; [cbn [app length]; by rewrite Hlen |].
  split; [constructor; [exact (proj1 Hwhole) |];
          eapply Forall_impl; [exact Hall |]; by intros e [_ ?] |].
  split; [exact Hsorted |].
  cbn [app]. by rewrite Hlast, length_app.
Qed.

End PolygonInvariants.

Lemma readPolygon_well_formed_witness :
  readPolygon Sample.no_boolean Sample2.square
  = Ok (Some (Polygon XYZ
                [Sample.zero; Sample.zero; Sample.zero;
                 Num (of_Z 9); Num (of_Z 9); Sample.zero] [6%nat] ∅))
  /\ last [6%nat] = Some (length [Sample.zero; Sample.zero; Sample.zero;
                                  Num (of_Z 9); Num (of_Z 9); Sample.zero]).
Proof.
  split; [reflexivity |].
  exact (proj2 (proj2 (proj2 (proj2 (proj2
    (readPolygon_well_formed Sample.no_boolean Sample2.square XYZ
       [Sample.zero; Sample.zero; Sample.zero;
        Num (of_Z 9); Num (of_Z 9); Sample.zero] [6%nat] ∅ eq_refl)))))).
Defined.
(** ** Multi-geometries of multi-geometries *)

(** X15: the homogenization of [readMultiGeometry] fails assertion 37
    exactly when the members are all multi-points, all multi-line-strings
    or all multi-polygons (the results of nested [MultiGeometry] elements
    with members of one type); for every other list of members it returns
    a geometry. *)
Theorem multiGeometryOf_throws (gs : list geometry) (e : error) :
  multiGeometryOf gs = Throw e <->
  e = AssertionError 37
  /\ exists first others,
       gs = first :: others
       /\ Forall (fun g => getType g = getType first) others
       /\ getType first ∈ [MULTI_POINT; MULTI_LINE_STRING; MULTI_POLYGON].
Proof.
  unfold multiGeometryOf. destruct gs as [| first others].
  { split; [discriminate | by intros (_ & ? & ? & ? & _)]. }
  destruct (forallb (fun g => bool_decide (getType g = getType first)) others) eqn:Hsame.
  - apply forallb_same_type in Hsame. split.
    + intros H. destruct first; cbn [getType] in *; try discriminate;
        injection H as <-; (split; [reflexivity |]); eexists _, _;
        (split; [reflexivity |]); (split; [exact Hsame |]);
        repeat first [apply list_elem_of_here | apply list_elem_of_further].
    + intros (-> & first' & others' & [= <- <-] & _ & Htype).
      destruct first; cbn [getType] in *; try reflexivity; exfalso;
        repeat (apply elem_of_cons in Htype as [Htype | Htype]; [discriminate |]);
        by apply not_elem_of_nil in Htype.
  - split; [discriminate |].
    intros (_ & first' & others' & [= <- <-] & Hall & _).
    apply forallb_same_type in Hall. congruence.
Qed.

(** A multi-geometry element that holds one multi-geometry element of
    points cannot be read. *)
Example nested_multi_geometry_of_points :
  readMultiGeometry Sample.no_boolean
    (Element Sample.KML_NS "MultiGeometry" []
       [Element Sample.KML_NS "MultiGeometry" []
          [Element Sample.KML_NS "Point" []
             [Sample.leaf Sample.KML_NS "coordinates" "1,2"]]])
  = Throw (AssertionError 37).
Proof. reflexivity. Qed.
(** ** Style resolution *)

(** X16: a style-map entry that refers to itself is never resolved:
    [findStyle] recurses until the stack is exhausted, however deep the
    stack. *)
Theorem findStyle_self_reference (sharedStyles : registry) (u : string)
    (defaultStyle : list Style) (fuel : nat) :
  sharedStyles !! u = Some (StyleUrl u) ->
  findStyle fuel (Some (StyleUrl u)) defaultStyle sharedStyles = Throw RangeError.
Proof.
  intros Hu. induction fuel as [| fuel IH]; [reflexivity |].
  rewrite findStyle_step.
  replace (registry_key sharedStyles u) with u.
  - by rewrite Hu.
  - unfold registry_key. rewrite decide_False; [done |]. intros [Hnone _]. congruence.
Qed.

Lemma findStyle_self_reference_witness :
  ({[ "#loop"%string := StyleUrl "#loop" ]} : registry) !! "#loop"%string
    = Some (StyleUrl "#loop")
  /\ findStyle 1000 (Some (StyleUrl "#loop")) DEFAULT_STYLE_ARRAY
       {[ "#loop"%string := StyleUrl "#loop" ]} = Throw RangeError.
Proof.
  split; [reflexivity |].
  apply (findStyle_self_reference {[ "#loop"%string := StyleUrl "#loop" ]} "#loop").
  reflexivity.
Defined.

(** X17: [findStyle] makes no style up: what it returns for a URL is the
    default style or a style array of the registry. *)
Theorem findStyle_origin (fuel : nat) (u : string) (defaultStyle : list Style)
    (sharedStyles : registry) (r : list Style) :
  findStyle fuel (Some (StyleUrl u)) defaultStyle sharedStyles = Ok r ->
  r = defaultStyle \/ exists k, sharedStyles !! k = Some (StyleArray r).
Proof.
  revert u. induction fuel as [| fuel IH]; intros u; [discriminate |].
  rewrite findStyle_step.
  destruct (sharedStyles !! registry_key sharedStyles u) as [[a | u'] |] eqn:Hk.
  - destruct fuel; [discriminate |]. intros [= <-]. right. by eexists.
  - apply IH.
  - destruct fuel; [discriminate |]. intros [= <-]. by left.
Qed.

Lemma findStyle_origin_witness :
  findStyle 3 (Some (StyleUrl "map")) DEFAULT_STYLE_ARRAY Sample.pin_registry
    = Ok [Sample.red_line]
  /\ ([Sample.red_line] = DEFAULT_STYLE_ARRAY
      \/ exists k, Sample.pin_registry !! k = Some (StyleArray [Sample.red_line])).
Proof.
  split; [reflexivity |].
  exact (findStyle_origin 3 "map" DEFAULT_STYLE_ARRAY Sample.pin_registry
           [Sample.red_line] eq_refl).
Defined.


(** X19: an empty style array breaks the labelling of named points: with
    [showPointNames] on, the style function of a named point whose inline
    style, or whose default style when it has no style of its own, is the
    empty array throws a [TypeError], the first style of the array being
    [undefined]. *)
Theorem empty_style_array_throws (styleUrl : option string)
    (defaultStyle : list Style) (sharedStyles : registry) (fuel : nat)
    (feature : Feature) (g : geometry) :
  getGeometry feature = Some g -> getType g = POINT ->
  feature_name feature <> EmptyString ->
  createFeatureStyleFunction (Some []) styleUrl defaultStyle sharedStyles
    true fuel feature = Throw TypeError
  /\ createFeatureStyleFunction None None [] sharedStyles true fuel feature
     = Throw TypeError.
Proof.
  intros Hg Ht Hname.
  assert (Hdraw : drawName true feature = true).
  { unfold drawName. rewrite Hg, bool_decide_eq_true_2 by done.
    apply negb_true_iff, String.eqb_neq, Hname. }
  unfold createFeatureStyleFunction. by rewrite Hdraw.
Qed.

Lemma empty_style_array_throws_witness :
  let feature :=
    {| getId := None;
       getGeometry := Some (Point XY [Num (of_Z 1); Num (of_Z 2)] ∅);
       getProperties_ := {[ "name"%string := VString "a place" ]};
       getStyle := None |} in
  createFeatureStyleFunction (Some []) None DEFAULT_STYLE_ARRAY ∅ true 10 feature
    = Throw TypeError
  /\ createFeatureStyleFunction None None [] ∅ true 10 feature = Throw TypeError.
Proof.
  cbv zeta.
  apply (empty_style_array_throws None DEFAULT_STYLE_ARRAY ∅ 10 _
           (Point XY [Num (of_Z 1); Num (of_Z 2)] ∅)).
  - reflexivity.
  - reflexivity.
  - discriminate.
Defined.
(** ** The registry of shared styles *)

Lemma hash_not_fixed (s : string) : String.append "#" s <> s.
Proof.
  change (String.append "#" s) with (String "#" s).
  intros H. apply (f_equal String.length) in H. simpl in H. lia.
Qed.

Section SharedStyles.

Context (URL_href : string -> string -> outcome string)
        (baseURI : node -> option string)
        (location_href : string)
        (readStyle : node -> outcome (option (list Style))).

(** X20: a shared style is found again: after [readSharedStyle_] has read
    a [Style] element with an identifier, [findStyle] resolves the URL the
    style was stored under to that style, the other entries of the
    registry and the options of the format being as before; and it
    resolves the bare identifier, which the source stores with a leading
    [#] when the document has no base, unless the registry has an entry
    for the bare identifier itself or the identifier is the name of a
    property every object inherits, such as [constructor]. *)
Theorem shared_style_found (this : KML) (n : node) (id : string)
    (style : list Style) (k : string) :
  getAttribute n "id" = Some id ->
  readStyle n = Ok (Some style) ->
  styleUri_of URL_href baseURI location_href n id = Ok k ->
  exists this',
    readSharedStyle_ URL_href baseURI location_href readStyle this n = Ok this'
    /\ (forall fuel defaultStyle,
          findStyle (S (S fuel)) (Some (StyleUrl k)) defaultStyle (sharedStyles_ this')
          = Ok style)
    /\ (forall k', k' <> k -> sharedStyles_ this' !! k' = sharedStyles_ this !! k')
    /\ (defaultStyle_ this', extractStyles_ this', writeStyles_ this',
        showPointNames_ this')
       = (defaultStyle_ this, extractStyles_ this, writeStyles_ this,
          showPointNames_ this)
    /\ (base_of baseURI location_href n = None ->
        sharedStyles_ this !! id = None ->
        (id ∉ Object_prototype_names) ->
        forall fuel defaultStyle,
          findStyle (S (S fuel)) (Some (StyleUrl id)) defaultStyle (sharedStyles_ this')
          = Ok style).
Proof.
  intros Hid Hstyle Hk.
  exists (set_sharedStyle this k (StyleArray style)).
  split; [| split; [| split; [| split]]].
  - unfold readSharedStyle_. by rewrite Hid, Hstyle, bind_Ok, Hk.
  - intros fuel d. rewrite findStyle_step.
    rewrite registry_key_own by (simpl; by rewrite lookup_insert_eq).
    simpl. by rewrite lookup_insert_eq.
  - intros k' Hne. simpl. by rewrite lookup_insert_ne.
  - reflexivity.
  - intros Hbase Hfree Hown fuel d.
    unfold styleUri_of in Hk. rewrite Hbase in Hk. injection Hk as <-.
    rewrite findStyle_step.
    replace (registry_key _ id) with (String.append "#" id).
    + simpl. by rewrite lookup_insert_eq.
    + unfold registry_key. rewrite decide_True; [done |]. simpl.
      split; [| split; [done |]].
      * rewrite lookup_insert_ne; [done | apply hash_not_fixed].
      * rewrite lookup_insert_eq. by eexists.
Qed.

End SharedStyles.

Lemma shared_style_found_witness :
  let n := Element Sample.KML_NS "Style" [("id", "pin")]%string [] in
  exists this',
    readSharedStyle_ Sample.same_url Sample.no_base EmptyString
      (fun _ => Ok (Some [Sample.red_line])) Sample.format n = Ok this'
    /\ (forall fuel defaultStyle,
          findStyle (S (S fuel)) (Some (StyleUrl "#pin")) defaultStyle
            (sharedStyles_ this') = Ok [Sample.red_line])
    /\ (forall k', k' <> "#pin"%string ->
          sharedStyles_ this' !! k' = sharedStyles_ Sample.format !! k')
    /\ (defaultStyle_ this', extractStyles_ this', writeStyles_ this',
        showPointNames_ this')
       = (defaultStyle_ Sample.format, extractStyles_ Sample.format,
          writeStyles_ Sample.format, showPointNames_ Sample.format)
    /\ (base_of Sample.no_base EmptyString n = None ->
        sharedStyles_ Sample.format !! "pin"%string = None ->
        ("pin"%string ∉ Object_prototype_names) ->
        forall fuel defaultStyle,
          findStyle (S (S fuel)) (Some (StyleUrl "pin")) defaultStyle
            (sharedStyles_ this') = Ok [Sample.red_line]).
Proof.
  cbv zeta.
  apply (shared_style_found Sample.same_url Sample.no_base EmptyString
           (fun _ => Ok (Some [Sample.red_line])) Sample.format
           (Element Sample.KML_NS "Style" [("id", "pin")]%string [])
           "pin" [Sample.red_line] "#pin"); reflexivity.
Defined.

(** A style whose identifier is the name of a property every object
    inherits is found by its URL and not by the bare identifier, which
    gives the default style. *)
Example inherited_identifier :
  (this' ← readSharedStyle_ Sample.same_url Sample.no_base EmptyString
             (fun _ => Ok (Some [Sample.red_line])) Sample.format
             (Element Sample.KML_NS "Style" [("id", "constructor")]%string []);
   Ok (findStyle 3 (Some (StyleUrl "#constructor")) DEFAULT_STYLE_ARRAY
         (sharedStyles_ this'),
       findStyle 3 (Some (StyleUrl "constructor")) DEFAULT_STYLE_ARRAY
         (sharedStyles_ this')))
  = Ok (Ok [Sample.red_line], Ok DEFAULT_STYLE_ARRAY).
Proof. reflexivity. Qed.

(** ** Style maps *)

Section StyleMaps.

Context (URL_href : string -> string -> outcome string)
        (baseURI : node -> option string)
        (location_href : string)
        (readStyle : node -> outcome (option (list Style))).

(** What the children of a [Pair] element leave in the pair object: the
    text of the last [key], what the last [Style] reads as, and the URL of
    the last [styleUrl]. *)
Lemma parse_pair_children ns name attrs (kids : list node) (o o' : gmap string value) :
  let d := Element ns name attrs kids in
  parseNode (PAIR_PARSERS URL_href baseURI location_href readStyle) d o = Ok o' ->
  o' !! "key"%string =
    match last_child_text "key" d with
    | Some t => Some (VString t)
    | None => o !! "key"%string
    end
  /\ match last_child "Style" d with
     | Some s => exists r, readStyle s = Ok r
                           /\ o' !! "Style"%string
                              = Some (match r with Some a => VStyle a | None => VNull end)
     | None => o' !! "Style"%string = o !! "Style"%string
     end
  /\ match last_child "styleUrl" d with
     | Some u => exists url, readURI URL_href baseURI location_href u = Ok url
                             /\ o' !! "styleUrl"%string = Some (VString url)
     | None => o' !! "styleUrl"%string = o !! "styleUrl"%string
     end.
Proof.
  revert o'. induction kids as [| c kids IH] using rev_ind; intros o' d; subst d.
  - intros [= <-]. by repeat split.
  - rewrite parseNode_app.
    destruct (parseNode _ (Element ns name attrs kids) o) as [o1 | e] eqn:Hkids;
      [| discriminate].
    destruct (IH o1 Hkids) as (Hkey & Hstyle & Hurl). clear IH.
    rewrite bind_Ok, parseNode_singleton, last_child_text_snoc, !last_child_snoc.
    remember (last_child "Style" (Element ns name attrs kids)) as LS eqn:HLS.
    remember (last_child "styleUrl" (Element ns name attrs kids)) as LU eqn:HLU.
    clear HLS HLU.
    destruct c as [t | cns cname cattrs ckids].
    { intros [= <-]. by repeat split. }
    unfold dispatch_of, PAIR_PARSERS, makeStructureNS. cbn [is_kml_child].
    destruct (includes NAMESPACE_URIS cns); cbn [andb structure_lookup];
      [| by intros [= <-]; repeat split].
    destruct (String.eqb cname "Style") eqn:HS.
    { apply String.eqb_eq in HS as ->. cbn [String.eqb Ascii.eqb Bool.eqb].
      unfold style_setter, makeObjectPropertySetter.
      destruct (readStyle _) as [r |] eqn:Hr; [| discriminate].
      cbn. intros [= <-]. split; [| split].
      - by rewrite lookup_insert_ne.
      - exists r. split; [done |]. by rewrite lookup_insert_eq.
      - destruct LU.
        + destruct Hurl as (url & ? & ?). exists url. split; [done |].
          by rewrite lookup_insert_ne.
        + by rewrite lookup_insert_ne. }
    destruct (String.eqb cname "key") eqn:HK.
    { apply String.eqb_eq in HK as ->. cbn [String.eqb Ascii.eqb Bool.eqb].
      unfold string_setter, setter_of, makeObjectPropertySetter. cbn.
      intros [= <-]. split; [| split].
      - by rewrite lookup_insert_eq.
      - destruct LS.
        + destruct Hstyle as (r & ? & ?). exists r. split; [done |].
          by rewrite lookup_insert_ne.
        + by rewrite lookup_insert_ne.
      - destruct LU.
        + destruct Hurl as (url & ? & ?). exists url. split; [done |].
          by rewrite lookup_insert_ne.
        + by rewrite lookup_insert_ne. }
    destruct (String.eqb cname "styleUrl") eqn:HU.
    { apply String.eqb_eq in HU as ->. cbn [String.eqb Ascii.eqb Bool.eqb].
      unfold uri_setter, makeObjectPropertySetter.
      destruct (readURI _ _ _ _) as [url |] eqn:Hr; [| discriminate].
      cbn. intros [= <-]. split; [| split].
      - by rewrite lookup_insert_ne.
      - destruct LS.
        + destruct Hstyle as (r & ? & ?). exists r. split; [done |].
          by rewrite lookup_insert_ne.
        + by rewrite lookup_insert_ne.
      - exists url. split; [done |]. by rewrite lookup_insert_eq. }
    by intros [= <-].
Qed.

(** The object of a [Pair] element. *)
Lemma pair_object (p : node) (po : gmap string value) :
  pushParseAndPop ∅ (PAIR_PARSERS URL_href baseURI location_href readStyle) p = Ok po ->
  po !! "key"%string = VString <$> last_child_text "key" p
  /\ (forall s a, last_child "Style" p = Some s -> readStyle s = Ok (Some a) ->
        po !! "Style"%string = Some (VStyle a))
  /\ (last_child "Style" p = None -> po !! "Style"%string = None)
  /\ (forall u url, last_child "styleUrl" p = Some u ->
        readURI URL_href baseURI location_href u = Ok url ->
        po !! "styleUrl"%string = Some (VString url)).
Proof.
  destruct p as [t | ns name attrs kids].
  { intros [= <-]. by repeat split. }
  intros H. unfold pushParseAndPop in H.
  apply parse_pair_children in H as (Hkey & Hstyle & Hurl).
  split; [| split; [| split]].
  - rewrite Hkey. by destruct (last_child_text _ _).
  - intros s a Hs Hr. rewrite Hs in Hstyle. destruct Hstyle as (r & Hr' & ->).
    rewrite Hr in Hr'. by injection Hr' as <-.
  - intros Hs. by rewrite Hs in Hstyle.
  - intros u url Hu Hr. rewrite Hu in Hurl. destruct Hurl as (url' & Hr' & ->).
    rewrite Hr in Hr'. by injection Hr' as <-.
Qed.

(** A pair whose key is not [normal] leaves the value of the style map as
    it was. *)
Lemma pairDataParser_other (p : node) (top v : option styleValue) :
  pairDataParser URL_href baseURI location_href readStyle p top = Ok v ->
  last_child_text "key" p <> Some "normal"%string -> v = top.
Proof.
  unfold pairDataParser.
  destruct (pushParseAndPop _ _ p) as [po |] eqn:Hpo; [| discriminate].
  rewrite bind_Ok. apply pair_object in Hpo as (Hk & _). rewrite Hk.
  intros [= <-] Hkey.
  destruct (last_child_text "key" _) as [t |]; [| reflexivity].
  cbn [fmap option_fmap option_map].
  destruct (String.eqb t "normal") eqn:Ht.
  - apply String.eqb_eq in Ht as ->. by destruct Hkey.
  - apply String.eqb_neq in Ht.
    repeat (match goal with
            | |- context [match ?s with EmptyString => _ | String _ _ => _ end] =>
                destruct s as [| ? s]; try reflexivity
            | |- context [match ?a with Ascii _ _ _ _ _ _ _ _ => _ end] =>
                destruct a as [[] [] [] [] [] [] [] []]; try reflexivity
            end).
    by destruct Ht.
Qed.

Lemma normal_pair_snoc ns nm attrs (cs : list node) (c : node) :
  normal_pair (Element ns nm attrs (cs ++ [c])) =
    if is_normal_pair c then Some c else normal_pair (Element ns nm attrs cs).
Proof.
  unfold normal_pair. cbn [children_of]. rewrite filter_app, filter_cons, filter_nil.
  destruct (is_normal_pair c).
  - rewrite decide_True by done. by rewrite last_snoc.
  - rewrite decide_False by done. by rewrite app_nil_r.
Qed.

(** The value of a style map is what its last normal pair makes of the
    value before it. *)
Lemma parse_pairs ns name attrs (kids : list node) (top v : option styleValue) :
  let n := Element ns name attrs kids in
  parseNode (STYLE_MAP_PARSERS URL_href baseURI location_href readStyle) n top = Ok v ->
  match normal_pair n with
  | Some p => exists top',
      pairDataParser URL_href baseURI location_href readStyle p top' = Ok v
  | None => v = top
  end.
Proof.
  revert v. induction kids as [| c kids IH] using rev_ind; intros v n; subst n.
  - by intros [= <-].
  - rewrite parseNode_app.
    destruct (parseNode _ (Element ns name attrs kids) top) as [v1 | e] eqn:Hkids;
      [| discriminate].
    specialize (IH v1 Hkids).
    rewrite bind_Ok, parseNode_singleton, normal_pair_snoc.
    destruct c as [t | cns cname cattrs ckids]; [by intros [= <-] |].
    unfold dispatch_of, STYLE_MAP_PARSERS, makeStructureNS, is_normal_pair.
    cbn [is_kml_child].
    destruct (includes NAMESPACE_URIS cns); cbn [andb structure_lookup];
      [| by intros [= <-]].
    destruct (String.eqb cname "Pair"); [| by intros [= <-]].
    intros H. case_bool_decide as Hkey; [by exists v1 |].
    by apply pairDataParser_other in H as ->.
Qed.

Lemma parse_pairs_total ns name attrs (kids : list node) (top : option styleValue) :
  (forall c, c ∈ kids -> is_kml_child "Pair" c = true ->
     exists po,
       pushParseAndPop ∅ (PAIR_PARSERS URL_href baseURI location_href readStyle) c
       = Ok po) ->
  exists v,
    parseNode (STYLE_MAP_PARSERS URL_href baseURI location_href readStyle)
      (Element ns name attrs kids) top = Ok v.
Proof.
  induction kids as [| c kids IH] using rev_ind; intros Hok.
  - by exists top.
  - destruct IH as [v1 Hv1].
    { intros c' Hc'. apply Hok. apply elem_of_app. by left. }
    rewrite parseNode_app, Hv1, bind_Ok, parseNode_singleton.
    destruct c as [t | cns cname cattrs ckids]; [by eexists |].
    specialize (Hok (Element cns cname cattrs ckids)).
    unfold dispatch_of, STYLE_MAP_PARSERS, makeStructureNS. cbn [is_kml_child] in *.
    destruct (includes NAMESPACE_URIS cns); cbn [andb structure_lookup] in *;
      [| by eexists].
    destruct (String.eqb cname "Pair"); [| by eexists].
    destruct Hok as [po Hpo]; [apply elem_of_app; right; by left | done |].
    unfold pairDataParser. rewrite Hpo, bind_Ok. by eexists.
Qed.

(** X21: only the pairs with the key [normal] count: a [StyleMap] element
    none of whose [Pair] children has the key [normal] - one with
    [highlight] pairs only, say - has no value: as a shared style map it
    leaves the registry as it was, and inside a placemark it leaves the
    placemark as it was. *)
Theorem style_map_without_normal_pair (this : KML) (n : node)
    (placemarkObject : gmap string value) :
  (forall c, c ∈ children_of n -> is_kml_child "Pair" c = true ->
     (exists po,
        pushParseAndPop ∅ (PAIR_PARSERS URL_href baseURI location_href readStyle) c
        = Ok po)
     /\ last_child_text "key" c <> Some "normal"%string) ->
  readStyleMapValue URL_href baseURI location_href readStyle n = Ok None
  /\ readSharedStyleMap_ URL_href baseURI location_href readStyle this n = Ok this
  /\ placemarkStyleMapParser URL_href baseURI location_href readStyle n placemarkObject
     = Ok placemarkObject.
Proof.
  intros Hpairs.
  assert (Hvalue : readStyleMapValue URL_href baseURI location_href readStyle n
                   = Ok None).
  { unfold readStyleMapValue, pushParseAndPop.
    destruct n as [t | ns name attrs kids]; [reflexivity |].
    cbn [children_of] in Hpairs.
    induction kids as [| c kids IH] using rev_ind; [reflexivity |].
    rewrite parseNode_app, IH, bind_Ok, parseNode_singleton.
    2:{ intros c' Hc'. apply Hpairs. apply elem_of_app. by left. }
    destruct c as [t | cns cname cattrs ckids]; [reflexivity |].
    specialize (Hpairs (Element cns cname cattrs ckids)).
    unfold dispatch_of, STYLE_MAP_PARSERS, makeStructureNS. cbn [is_kml_child] in *.
    destruct (includes NAMESPACE_URIS cns); cbn [andb structure_lookup] in *;
      [| reflexivity].
    destruct (String.eqb cname "Pair"); [| reflexivity].
    destruct Hpairs as [[po Hpo] Hkey]; [apply elem_of_app; right; by left | done |].
    destruct (pairDataParser URL_href baseURI location_href readStyle
                (Element cns cname cattrs ckids) None) as [v |] eqn:Hv.
    - by apply pairDataParser_other in Hv as ->.
    - unfold pairDataParser in Hv. by rewrite Hpo in Hv. }
  split; [done | split].
  - unfold readSharedStyleMap_. rewrite Hvalue. by destruct (getAttribute n "id").
  - unfold placemarkStyleMapParser. by rewrite Hvalue.
Qed.

(** X22: the last pair with the key [normal] decides the value of a style
    map, wherever it stands among the pairs: the style of its last [Style]
    child when it has one, and otherwise the URL of its last [styleUrl]
    child, unless that is empty.  A style inside the pair wins over a URL. *)
Theorem style_map_normal_pair (n p : node) :
  (forall c, c ∈ children_of n -> is_kml_child "Pair" c = true ->
     exists po,
       pushParseAndPop ∅ (PAIR_PARSERS URL_href baseURI location_href readStyle) c
       = Ok po) ->
  normal_pair n = Some p ->
  (forall s a, last_child "Style" p = Some s -> readStyle s = Ok (Some a) ->
     readStyleMapValue URL_href baseURI location_href readStyle n
     = Ok (Some (StyleArray a)))
  /\ (forall u url, last_child "Style" p = None -> last_child "styleUrl" p = Some u ->
        readURI URL_href baseURI location_href u = Ok url -> url <> EmptyString ->
        readStyleMapValue URL_href baseURI location_href readStyle n
        = Ok (Some (StyleUrl url))).
Proof.
  intros Hok Hp.
  destruct n as [t | ns name attrs kids]; [discriminate |].
  destruct (parse_pairs_total ns name attrs kids None Hok) as [v Hv].
  pose proof (parse_pairs ns name attrs kids None v Hv) as Hlast.
  cbv zeta in Hlast. rewrite Hp in Hlast. destruct Hlast as [top' Hpair].
  assert (Hin : p ∈ kids /\ is_normal_pair p = true).
  { unfold normal_pair in Hp. apply last_Some_elem_of in Hp.
    apply list_elem_of_filter in Hp as [? ?]. by split. }
  destruct Hin as [Hin Hnormal].
  apply andb_true_iff in Hnormal as [Hpairp Hkey].
  apply bool_decide_eq_true in Hkey.
  destruct (Hok p Hin Hpairp) as [po Hpo].
  unfold pairDataParser in Hpair. rewrite Hpo, bind_Ok in Hpair.
  apply pair_object in Hpo as (Hk & Hstyle & Hnostyle & Hurl).
  rewrite Hk, Hkey in Hpair. cbn [fmap option_fmap option_map] in Hpair.
  unfold readStyleMapValue, pushParseAndPop. rewrite Hv.
  split.
  - intros s a Hs Hr. rewrite (Hstyle s a Hs Hr) in Hpair. by injection Hpair as <-.
  - intros u url Hs Hu Hr Hne. rewrite (Hnostyle Hs), (Hurl u url Hu Hr) in Hpair.
    destruct url as [| a url]; [done |]. by injection Hpair as <-.
Qed.

End StyleMaps.

Lemma style_map_without_normal_pair_witness :
  readStyleMapValue Sample.same_url Sample.no_base EmptyString Sample.default_style
    Sample3.highlight_map = Ok None
  /\ readSharedStyleMap_ Sample.same_url Sample.no_base EmptyString Sample.default_style
       Sample.format Sample3.highlight_map = Ok Sample.format
  /\ placemarkStyleMapParser Sample.same_url Sample.no_base EmptyString
       Sample.default_style Sample3.highlight_map ∅ = Ok ∅.
Proof.
  apply (style_map_without_normal_pair Sample.same_url Sample.no_base EmptyString
           Sample.default_style Sample.format Sample3.highlight_map ∅).
  intros c Hc Hpair. cbn [children_of Sample3.highlight_map] in Hc.
  apply list_elem_of_singleton in Hc as ->.
  split; [by eexists | discriminate].
Defined.

Lemma style_map_normal_pair_witness :
  readStyleMapValue Sample.same_url Sample.no_base EmptyString Sample.default_style
    Sample3.pin_map = Ok (Some (StyleUrl "#pin")).
Proof.
  refine (proj2 (style_map_normal_pair Sample.same_url Sample.no_base EmptyString
                   Sample.default_style Sample3.pin_map Sample3.normal_pin _ _)
            (Sample.leaf Sample.KML_NS "styleUrl" "#pin") "#pin"%string _ _ _ _).
  - intros c Hc Hpair. cbn [children_of Sample3.pin_map] in Hc.
    apply elem_of_cons in Hc as [-> | Hc]; [by eexists |].
    apply list_elem_of_singleton in Hc as ->. by eexists.
  - reflexivity.
  - reflexivity.
  - reflexivity.
  - reflexivity.
  - discriminate.
Defined.
(** ** Documents *)

(** Induction on a node, with the property at hand for the children. *)
Lemma node_children_ind (P : node -> Prop) :
  (forall t, P (TextNode t)) ->
  (forall ns name attrs cs, Forall P cs -> P (Element ns name attrs cs)) ->
  forall n, P n.
Proof.
  intros Ht He. fix IH 1. intros [t | ns name attrs cs]; [apply Ht |].
  apply He. induction cs as [| c cs IHcs]; constructor; [apply IH | apply IHcs].
Qed.

Lemma grown_refl (this : KML) : grown this this.
Proof. by repeat split. Qed.

Lemma grown_trans (a b c : KML) : grown a b -> grown b c -> grown a c.
Proof.
  intros (? & ? & ? & ? & Hab) (? & ? & ? & ? & Hbc).
  repeat split; try congruence. intros k Hk. by apply Hbc, Hab.
Qed.

Lemma grown_set (this : KML) (k : string) (v : styleValue) :
  grown this (set_sharedStyle this k v).
Proof.
  repeat split. intros k' Hk'. simpl.
  destruct (decide (k = k')) as [-> | Hne].
  - rewrite lookup_insert_eq. by eexists.
  - by rewrite lookup_insert_ne.
Qed.

Section Documents.

Context (readBoolean : node -> option bool)
        (readDecimal : node -> option dec)
        (Date_parse : string -> option Z)
        (URL_href : string -> string -> outcome string)
        (baseURI : node -> option string)
        (location_href : string)
        (transformWithOptions : geometry -> geometry)
        (readStyle : node -> outcome (option (list Style))).

#[local] Abbreviation placemark_of :=
  (readPlacemark_ readBoolean readDecimal Date_parse URL_href baseURI location_href
     transformWithOptions readStyle).
#[local] Abbreviation folder_of :=
  (readDocumentOrFolder_ readBoolean readDecimal Date_parse URL_href baseURI
     location_href transformWithOptions readStyle).
#[local] Abbreviation features_of :=
  (readFeaturesFromNode readBoolean readDecimal Date_parse URL_href baseURI
     location_href transformWithOptions readStyle).

(** A placemark is read without a look at the registry. *)
Lemma readPlacemark_grown (this this' : KML) (p : node) :
  grown this this' -> placemark_of this' p = placemark_of this p.
Proof.
  intros (Hd & He & _ & Hs & _). unfold readPlacemark_. by rewrite Hd, He, Hs.
Qed.

Lemma readSharedStyle_grown (this this' : KML) (n : node) :
  readSharedStyle_ URL_href baseURI location_href readStyle this n = Ok this' ->
  grown this this'.
Proof.
  unfold readSharedStyle_.
  destruct (getAttribute n "id") as [id |]; [| intros [= <-]; apply grown_refl].
  destruct (readStyle n) as [[style |] |]; try discriminate;
    [| intros [= <-]; apply grown_refl].
  rewrite bind_Ok. destruct (styleUri_of _ _ _ n id) as [k |]; [| discriminate].
  intros [= <-]. apply grown_set.
Qed.

Lemma readSharedStyleMap_grown (this this' : KML) (n : node) :
  readSharedStyleMap_ URL_href baseURI location_href readStyle this n = Ok this' ->
  grown this this'.
Proof.
  unfold readSharedStyleMap_.
  destruct (getAttribute n "id") as [id |]; [| intros [= <-]; apply grown_refl].
  destruct (readStyleMapValue _ _ _ _ n) as [v |]; [| discriminate].
  rewrite bind_Ok.
  destruct v as [[a | [| c u]] |]; try (intros [= <-]; apply grown_refl);
    (destruct (styleUri_of _ _ _ n id) as [k |]; [| discriminate]);
    intros [= <-]; apply grown_set.
Qed.

Lemma Forall2_placemark_grown (this this' : KML) (fs : list Feature) (ps : list node) :
  grown this this' ->
  Forall2 (fun f p => placemark_of this' p = Ok (Some f)) fs ps ->
  Forall2 (fun f p => placemark_of this p = Ok (Some f)) fs ps.
Proof.
  intros Hg H. eapply Forall2_impl; [exact H |].
  intros f p Hp. by rewrite <- (readPlacemark_grown this this').
Qed.

(** What a document or folder gives: the features of its placemarks, in
    the order of [folder_placemarks], and the format object grown. *)
Lemma readDocumentOrFolder_read (n : node) (this : KML)
    (r : option (list Feature) * KML) :
  folder_of this n = Ok r ->
  grown this (snd r)
  /\ exists fs, fst r = Some fs
                /\ Forall2 (fun f p => placemark_of this p = Ok (Some f))
                     fs (folder_placemarks n).
Proof.
  revert this r. induction n as [t | ns name attrs cs IH] using node_children_ind;
    intros this r.
  { intros [= <-]. split; [apply grown_refl |]. exists []. split; [done | constructor]. }
  cbn [readDocumentOrFolder_ folder_placemarks].
  match goal with
  | |- (parseNodeBy ?d _ _ ≫= _) = _ -> _ => set (dispatch := d)
  end.
  assert (Hfold : forall cs' features this0 features1 this1,
             Forall (fun c => forall this r, folder_of this c = Ok r ->
                       grown this (snd r)
                       /\ exists fs, fst r = Some fs
                            /\ Forall2 (fun f p => placemark_of this p = Ok (Some f))
                                 fs (folder_placemarks c)) cs' ->
             parseNodeBy dispatch (Element ns name attrs cs') (features, this0)
             = Ok (features1, this1) ->
             grown this0 this1
             /\ exists new, features1 = features ++ new
                  /\ Forall2 (fun f p => placemark_of this0 p = Ok (Some f)) new
                       (flat_map
                          (fun c =>
                             match c with
                             | Element ns name _ _ =>
                                 if includes NAMESPACE_URIS ns then
                                   if String.eqb name "Document"
                                      || String.eqb name "Folder"
                                   then folder_placemarks c
                                   else if String.eqb name "Placemark" then [c] else []
                                 else []
                             | TextNode _ => []
                             end) cs')).
  { clear IH cs r this.
    induction cs' as [| c cs' IHcs]; intros features this0 features1 this1 HP.
    { intros [= <- <-]. split; [apply grown_refl |].
      exists []. split; [by rewrite app_nil_r | constructor]. }
    apply Forall_cons in HP as [Hc HP].
    rewrite parseNodeBy_cons.
    assert (Hskip : parseNodeBy dispatch (Element ns name attrs cs') (features, this0)
                    = Ok (features1, this1) ->
                    grown this0 this1
                    /\ exists new, features1 = features ++ new
                         /\ Forall2 (fun f p => placemark_of this0 p = Ok (Some f)) new
                              ([] ++ flat_map
                                 (fun c =>
                                    match c with
                                    | Element ns name _ _ =>
                                        if includes NAMESPACE_URIS ns then
                                          if String.eqb name "Document"
                                             || String.eqb name "Folder"
                                          then folder_placemarks c
                                          else if String.eqb name "Placemark"
                                               then [c] else []
                                        else []
                                    | TextNode _ => []
                                    end) cs')).
    { intros H. by apply IHcs. }
    cbn [flat_map].
    destruct c as [t | cns cname cattrs ckids]; [exact Hskip |].
    set (others := parseNodeBy dispatch (Element ns name attrs cs')) in *.
    unfold dispatch.
    destruct (includes NAMESPACE_URIS cns); [| exact Hskip].
    destruct (String.eqb cname "Document" || String.eqb cname "Folder").
    { destruct (folder_of this0 (Element cns cname cattrs ckids)) as [[ofs thisc] |]
        eqn:Hsub; [| discriminate].
      destruct (Hc this0 _ Hsub) as (Hg & fs & Hfs & Hall). simpl in Hg, Hfs.
      subst ofs. rewrite !bind_Ok. cbn [fst snd]. intros H.
      destruct (IHcs _ _ _ _ HP H) as (Hg' & new & -> & Hnew).
      split; [by eapply grown_trans |].
      exists (fs ++ new). split; [by rewrite app_assoc |].
      apply Forall2_app; [done |]. by eapply Forall2_placemark_grown. }
    destruct (String.eqb cname "Placemark").
    { destruct (placemark_of this0 (Element cns cname cattrs ckids)) as [f |]
        eqn:Hp; [| discriminate].
      assert (Hf : exists f', f = Some f').
      { unfold readPlacemark_ in Hp.
        destruct (pushParseAndPop _ _ _); [| discriminate].
        injection Hp as <-. by eexists. }
      destruct Hf as [f' ->]. rewrite !bind_Ok. intros H.
      destruct (IHcs _ _ _ _ HP H) as (Hg' & new & -> & Hnew).
      split; [done |]. exists (f' :: new).
      split; [by rewrite <- app_assoc |]. by constructor. }
    destruct (String.eqb cname "Style").
    { destruct (readSharedStyle_ _ _ _ _ this0 _) as [thisc |] eqn:Hs; [| discriminate].
      apply readSharedStyle_grown in Hs. rewrite !bind_Ok. intros H.
      destruct (IHcs _ _ _ _ HP H) as (Hg' & new & -> & Hnew).
      split; [by eapply grown_trans |]. exists new. split; [done |].
      by eapply Forall2_placemark_grown. }
    destruct (String.eqb cname "StyleMap"); [| exact Hskip].
    destruct (readSharedStyleMap_ _ _ _ _ this0 _) as [thisc |] eqn:Hs; [| discriminate].
    apply readSharedStyleMap_grown in Hs. rewrite !bind_Ok. intros H.
    destruct (IHcs _ _ _ _ HP H) as (Hg' & new & -> & Hnew).
    split; [by eapply grown_trans |]. exists new. split; [done |].
    by eapply Forall2_placemark_grown. }
  destruct (parseNodeBy dispatch _ _) as [[features1 this1] |] eqn:Hparse;
    [| discriminate].
  rewrite bind_Ok. intros [= <-]. cbn [fst snd].
  destruct (Hfold cs [] this features1 this1) as (Hg & new & -> & Hnew); [| done |].
  { exact IH. }
  split; [done |]. by exists new.
Qed.

Lemma readFeaturesFromNode_read (n : node) (this : KML) (fs : list Feature)
    (this' : KML) :
  features_of this n = Ok (fs, this') ->
  grown this this'
  /\ Forall2 (fun f p => placemark_of this p = Ok (Some f)) fs (placemarks n).
Proof.
  revert this fs this'.
  induction n as [t | ns name attrs cs IH] using node_children_ind;
    intros this fs this'.
  { intros [= <- <-]. split; [apply grown_refl | constructor]. }
  cbn [readFeaturesFromNode placemarks].
  destruct (negb (includes NAMESPACE_URIS ns)).
  { intros [= <- <-]. split; [apply grown_refl | constructor]. }
  destruct (String.eqb name "Document" || String.eqb name "Folder").
  { destruct (folder_of this (Element ns name attrs cs)) as [r |] eqn:Hr;
      [| discriminate].
    destruct (readDocumentOrFolder_read _ _ _ Hr) as (Hg & fs' & Hfs & Hall).
    rewrite bind_Ok, Hfs. by intros [= <- <-]. }
  destruct (String.eqb name "Placemark").
  { destruct (placemark_of this (Element ns name attrs cs)) as [f |] eqn:Hp;
      [| discriminate].
    assert (Hf : exists f', f = Some f').
    { unfold readPlacemark_ in Hp.
      destruct (pushParseAndPop _ _ _); [| discriminate].
      injection Hp as <-. by eexists. }
    destruct Hf as [f' ->]. rewrite bind_Ok. intros [= <- <-].
    split; [apply grown_refl |]. by repeat constructor. }
  destruct (String.eqb name "kml");
    [| intros [= <- <-]; split; [apply grown_refl | constructor]].
  match goal with
  | |- fold_left ?f _ _ = _ -> _ => set (step := f)
  end.
  assert (Hthrow : forall cs' e, fold_left step cs' (Throw e) = Throw e).
  { induction cs' as [| c cs' IHcs]; intros e; [reflexivity | apply IHcs]. }
  assert (Hfold : forall cs' features this0 features1 this1,
             Forall (fun c => forall this fs this',
                       features_of this c = Ok (fs, this') ->
                       grown this this'
                       /\ Forall2 (fun f p => placemark_of this p = Ok (Some f))
                            fs (placemarks c)) cs' ->
             fold_left step cs' (Ok (features, this0)) = Ok (features1, this1) ->
             grown this0 this1
             /\ exists new, features1 = features ++ new
                  /\ Forall2 (fun f p => placemark_of this0 p = Ok (Some f)) new
                       (flat_map placemarks cs')).
  { clear IH cs fs this this'.
    induction cs' as [| c cs' IHcs]; intros features this0 features1 this1 HP.
    { intros [= <- <-]. split; [apply grown_refl |].
      exists []. split; [by rewrite app_nil_r | constructor]. }
    apply Forall_cons in HP as [Hc HP]. cbn [fold_left flat_map].
    destruct c as [t | cns cname cattrs ckids].
    { intros H. by apply IHcs. }
    unfold step at 2.
    destruct (features_of this0 (Element cns cname cattrs ckids)) as [[fsc thisc] | e]
      eqn:Hsub;
      [| change (Throw e ≫= _) with (@Throw (list Feature * KML) e);
         by rewrite Hthrow].
    destruct (Hc _ _ _ Hsub) as (Hg & Hall).
    rewrite bind_Ok. cbn [fst snd]. intros H.
    destruct (IHcs _ _ _ _ HP H) as (Hg' & new & -> & Hnew).
    split; [by eapply grown_trans |].
    exists (fsc ++ new). split; [by rewrite app_assoc |].
    apply Forall2_app; [done |]. by eapply Forall2_placemark_grown. }
  intros H. destruct (Hfold cs [] this fs this' IH H) as (Hg & new & -> & Hnew).
  by split.
Qed.

(** X23: reading never loses a shared style, and never touches the options
    of the format: after [readFeaturesFromNode] the default style and the
    flags are what they were, and the registry has an entry for every URL
    it had one for - the styles of the documents read before stay. *)
Theorem readFeatures_keeps_styles (this : KML) (n : node) (fs : list Feature)
    (this' : KML) :
  features_of this n = Ok (fs, this') ->
  (defaultStyle_ this', extractStyles_ this', writeStyles_ this',
   showPointNames_ this')
  = (defaultStyle_ this, extractStyles_ this, writeStyles_ this,
     showPointNames_ this)
  /\ forall k, is_Some (sharedStyles_ this !! k) -> is_Some (sharedStyles_ this' !! k).
Proof.
  intros H. apply readFeaturesFromNode_read in H as [(Hd & He & Hw & Hs & Hk) _].
  split; [by rewrite Hd, He, Hw, Hs | exact Hk].
Qed.

(** X24: the features read are the placemarks, one for one and in the order
    of the document: the placemarks of a document or folder with, in their
    place, those of the documents and folders below it.  Each feature is
    what [readPlacemark_] makes of its placemark, whatever shared styles
    stand before or after it. *)
Theorem features_are_placemarks (this : KML) (n : node) (fs : list Feature)
    (this' : KML) :
  features_of this n = Ok (fs, this') ->
  Forall2 (fun f p => placemark_of this p = Ok (Some f)) fs (placemarks n).
Proof. intros H. by apply readFeaturesFromNode_read in H as [_ H]. Qed.

End Documents.

Lemma readFeatures_keeps_styles_witness :
  exists fs this',
    readFeaturesFromNode Sample.no_boolean Sample.no_decimal Sample.no_date
      Sample.same_url Sample.no_base EmptyString id Sample.default_style
      (set_sharedStyle Sample.format "#old" (StyleArray [Sample.red_line]))
      Sample4.document = Ok (fs, this')
    /\ (defaultStyle_ this', extractStyles_ this', writeStyles_ this',
        showPointNames_ this')
       = (DEFAULT_STYLE_ARRAY, true, true, true)
    /\ forall k,
         is_Some (({[ "#old"%string := StyleArray [Sample.red_line] ]} : registry) !! k) ->
         is_Some (sharedStyles_ this' !! k).
Proof.
  destruct (readFeaturesFromNode Sample.no_boolean Sample.no_decimal Sample.no_date
              Sample.same_url Sample.no_base EmptyString id Sample.default_style
              (set_sharedStyle Sample.format "#old" (StyleArray [Sample.red_line]))
              Sample4.document) as [[fs this'] | e] eqn:H.
  - exists fs, this'. split; [reflexivity |].
    exact (readFeatures_keeps_styles Sample.no_boolean Sample.no_decimal Sample.no_date
             Sample.same_url Sample.no_base EmptyString id Sample.default_style
             _ _ _ _ H).
  - exfalso. vm_compute in H. discriminate H.
Defined.

Lemma features_are_placemarks_witness :
  exists fs this',
    readFeaturesFromNode Sample.no_boolean Sample.no_decimal Sample.no_date
      Sample.same_url Sample.no_base EmptyString id Sample.default_style
      Sample.format Sample4.document = Ok (fs, this')
    /\ Forall2
         (fun f p =>
            readPlacemark_ Sample.no_boolean Sample.no_decimal Sample.no_date
              Sample.same_url Sample.no_base EmptyString id Sample.default_style
              Sample.format p = Ok (Some f))
         fs [Sample4.depot_placemark; Sample4.yard_placemark].
Proof.
  destruct (readFeaturesFromNode Sample.no_boolean Sample.no_decimal Sample.no_date
              Sample.same_url Sample.no_base EmptyString id Sample.default_style
              Sample.format Sample4.document) as [[fs this'] | e] eqn:H.
  - exists fs, this'. split; [reflexivity |].
    exact (features_are_placemarks Sample.no_boolean Sample.no_decimal Sample.no_date
             Sample.same_url Sample.no_base EmptyString id Sample.default_style
             _ _ _ _ H).
  - exfalso. vm_compute in H. discriminate H.
Defined.
(** ** The name of a document *)

Lemma find_first {A} (p : A -> bool) (l : list A) (x : A) :
  List.find p l = Some x -> x ∈ l /\ p x = true.
Proof.
  intros H. apply find_some in H as [Hin Hp]. split; [| done].
  by apply list_elem_of_In.
Qed.

(** X25: [readNameFromNode] makes no name up and looks at first names
    only: the name it returns is the text of the first [name] child, in a
    KML namespace, of the node or of an element reached from it through
    documents, folders, placemarks and [kml] elements of a KML namespace. *)
Theorem readNameFromNode_sound (n : node) (s : string) :
  readNameFromNode n = Some s ->
  exists d c,
    below n d
    /\ List.find (is_kml_child "name") (children_of d) = Some c
    /\ s = readString c.
Proof.
  revert s. induction n as [t | ns name attrs cs IH] using node_children_ind;
    intros s; [discriminate |].
  cbn [readNameFromNode].
  destruct (List.find (is_kml_child "name") cs) as [c |] eqn:Hfind.
  { intros [= <-]. exists (Element ns name attrs cs), c.
    split; [constructor | by split]. }
  clear Hfind.
  assert (Hnested : forall cs',
             Forall (fun c => forall s, readNameFromNode c = Some s ->
                       exists d c', below c d
                         /\ List.find (is_kml_child "name") (children_of d) = Some c'
                         /\ s = readString c') cs' ->
             (forall c, c ∈ cs' -> c ∈ cs) ->
             (fix nested (cs : list node) : option string :=
                match cs with
                | [] => None
                | c :: cs' =>
                    if is_kml_element ["Document"; "Folder"; "Placemark"; "kml"]%string c
                    then
                      match readNameFromNode c with
                      | Some (String _ _ as name) => Some name
                      | _ => nested cs'
                      end
                    else nested cs'
                end) cs' = Some s ->
             exists d c,
               below (Element ns name attrs cs) d
               /\ List.find (is_kml_child "name") (children_of d) = Some c
               /\ s = readString c).
  { induction cs' as [| c cs' IHcs]; intros HP Hsub; [discriminate |].
    apply Forall_cons in HP as [Hc HP].
    assert (Hrest : forall c', c' ∈ cs' -> c' ∈ cs).
    { intros c' Hc'. apply Hsub. by right. }
    destruct (is_kml_element _ c) eqn:Hcont; [| by apply IHcs].
    destruct (readNameFromNode c) as [[| a s'] |] eqn:Hname; try (by apply IHcs).
    intros [= <-]. destruct (Hc _ eq_refl) as (d & c' & Hbelow & Hfind & Hs).
    exists d, c'. split; [| by split].
    eapply below_child; [| exact Hcont | exact Hbelow].
    apply Hsub. by left. }
  by apply Hnested.
Qed.

Lemma readNameFromNode_sound_witness :
  readNameFromNode Sample5.named_folder = Some "Depots"%string
  /\ exists d c,
       below Sample5.named_folder d
       /\ List.find (is_kml_child "name") (children_of d) = Some c
       /\ "Depots"%string = readString c.
Proof.
  split; [reflexivity |].
  exact (readNameFromNode_sound Sample5.named_folder "Depots" eq_refl).
Defined.

(** A document whose own name is empty has the empty name, whatever the
    names below it. *)
Example empty_name_hides_names_below :
  readNameFromNode Sample5.unnamed_document = Some EmptyString.
Proof. reflexivity. Qed.
(** ** Regions *)

Section Regions.

Context (readDecimal : node -> option dec).

(** The children of a box or of a level of detail: every child is handed
    to a setter of the property of its name, so the property [key] holds,
    in the end, what the last child of that name that reads as a value
    reads as. *)
Lemma parse_setters (s : structure (gmap string value)) (key : string)
    (read : node -> option value) :
  is_Some (structure_lookup key s) ->
  (forall name p, structure_lookup name s = Some p ->
     forall cns cattrs ckids o,
       let c := Element cns name cattrs ckids in
       exists o', p c o = Ok o'
         /\ o' !! key = if String.eqb name key
                        then match read c with Some v => Some v | None => o !! key end
                        else o !! key) ->
  forall ns nm attrs kids o,
  exists o',
    parseNode (makeStructureNS NAMESPACE_URIS s emptyNS) (Element ns nm attrs kids) o
    = Ok o'
    /\ o' !! key =
         match last (omap (fun c => if is_kml_child key c then read c else None) kids) with
         | Some v => Some v
         | None => o !! key
         end.
Proof.
  intros Hkeyp Hs ns nm attrs kids o.
  induction kids as [| c kids IH] using rev_ind; [by exists o |].
  destruct IH as (o1 & Hparse & Hkey).
  rewrite parseNode_app, Hparse, bind_Ok, parseNode_singleton, omap_app.
  destruct c as [t | cns cname cattrs ckids].
  { exists o1. split; [done |]. cbn. by rewrite app_nil_r. }
  unfold dispatch_of, makeStructureNS.
  change (omap _ [Element cns cname cattrs ckids])
    with (match (if includes NAMESPACE_URIS cns && String.eqb cname key
                 then read (Element cns cname cattrs ckids) else None) with
          | Some v => [v]
          | None => []
          end).
  destruct (includes NAMESPACE_URIS cns); cbn [andb].
  2:{ exists o1. split; [done |]. by rewrite app_nil_r. }
  destruct (structure_lookup cname s) as [p |] eqn:Hp.
  - destruct (Hs cname p Hp cns cattrs ckids o1) as (o' & Hok & Hkey').
    exists o'. split; [done |]. rewrite Hkey'.
    destruct (String.eqb cname key).
    + destruct (read _) as [v |].
      * by rewrite last_snoc.
      * by rewrite app_nil_r.
    + by rewrite app_nil_r.
  - exists o1. split; [done |].
    destruct (String.eqb cname key) eqn:Hk.
    + apply String.eqb_eq in Hk as ->. rewrite Hp in Hkeyp. by destruct Hkeyp.
    + by rewrite app_nil_r.
Qed.

(** The setters of a box and of a level of detail. *)
Lemma decimal_setter_key (name key : string) cns cattrs ckids (o : gmap string value) :
  let c := Element cns name cattrs ckids in
  exists o', decimal_setter readDecimal c o = Ok o'
    /\ o' !! key = if String.eqb name key
                   then match (fun x => VNumber (Num x)) <$> readDecimal c with
                        | Some v => Some v
                        | None => o !! key
                        end
                   else o !! key.
Proof.
  intros c. unfold decimal_setter, setter_of, makeObjectPropertySetter.
  rewrite bind_Ok. eexists. split; [reflexivity |].
  cbn [localName_of default c].
  destruct (readDecimal _) as [x |]; cbn [fmap option_fmap option_map].
  - destruct (String.eqb name key) eqn:Hk.
    + apply String.eqb_eq in Hk as ->. by rewrite lookup_insert_eq.
    + apply String.eqb_neq in Hk. by rewrite lookup_insert_ne.
  - by destruct (String.eqb name key).
Qed.

Lemma string_setter_key (name key : string) cns cattrs ckids (o : gmap string value)
    (read : node -> option value) :
  String.eqb name key = false ->
  let c := Element cns name cattrs ckids in
  exists o', string_setter c o = Ok o'
    /\ o' !! key = if String.eqb name key
                   then match read c with Some v => Some v | None => o !! key end
                   else o !! key.
Proof.
  intros Hk c. unfold string_setter, setter_of, makeObjectPropertySetter.
  rewrite bind_Ok. eexists. split; [reflexivity |]. rewrite Hk.
  cbn [localName_of default c fmap option_fmap option_map].
  apply String.eqb_neq in Hk. by rewrite lookup_insert_ne.
Qed.

(** The number a box or a level of detail holds for the child [key]. *)
Lemma side_value (b : node) (key : string) (object : gmap string value) :
  object !! key =
    match last (omap (fun c => if is_kml_child key c
                               then (fun x => VNumber (Num x)) <$> readDecimal c
                               else None) (children_of b)) with
    | Some v => Some v
    | None => None
    end ->
  parseFloat_value (object !! key) = VNumber (side readDecimal key b).
Proof.
  intros ->. unfold side.
  replace (omap (fun c => if is_kml_child key c
                          then (fun x => VNumber (Num x)) <$> readDecimal c
                          else None) (children_of b))
    with ((fun x => VNumber (Num x)) <$>
            omap (fun c => if is_kml_child key c then readDecimal c else None)
              (children_of b)).
  - rewrite fmap_last. by destruct (last _).
  - induction (children_of b) as [| c cs IH]; [reflexivity |]. cbn.
    destruct (is_kml_child key c); [| exact IH].
    destruct (readDecimal c); cbn; [by rewrite IH | exact IH].
Qed.

Lemma parse_box (b : node) (key : string) :
  key ∈ ["west"; "south"; "east"; "north"; "minAltitude"; "maxAltitude"]%string ->
  exists object,
    pushParseAndPop ∅ (LAT_LON_ALT_BOX_PARSERS readDecimal) b = Ok object
    /\ parseFloat_value (object !! key) = VNumber (side readDecimal key b).
Proof.
  intros Hkey. destruct b as [t | ns nm attrs kids].
  { exists ∅. split; [reflexivity |]. by apply side_value. }
  destruct (parse_setters
              [("altitudeMode"%string, string_setter);
               ("minAltitude"%string, decimal_setter readDecimal);
               ("maxAltitude"%string, decimal_setter readDecimal);
               ("north"%string, decimal_setter readDecimal);
               ("south"%string, decimal_setter readDecimal);
               ("east"%string, decimal_setter readDecimal);
               ("west"%string, decimal_setter readDecimal)] key
              (fun c => (fun x => VNumber (Num x)) <$> readDecimal c))
    with (ns := ns) (nm := nm) (attrs := attrs) (kids := kids)
         (o := (∅ : gmap string value)) as (object & Hparse & Hobject).
  - repeat (apply elem_of_cons in Hkey as [-> | Hkey]; [by eexists |]).
    by apply not_elem_of_nil in Hkey.
  - intros name p Hp cns cattrs ckids o. cbn [structure_lookup] in Hp.
    destruct (String.eqb name "altitudeMode") eqn:Ha.
    { injection Hp as <-. apply String.eqb_eq in Ha as ->.
      apply (string_setter_key _ _ _ _ _ _
               (fun c => (fun x => VNumber (Num x)) <$> readDecimal c)).
      repeat (apply elem_of_cons in Hkey as [-> | Hkey]; [reflexivity |]).
      by apply not_elem_of_nil in Hkey. }
    repeat (match type of Hp with
            | (if ?b then _ else _) = _ =>
                destruct b; [injection Hp as <-; apply decimal_setter_key |]
            end).
    discriminate.
  - exists object. split; [exact Hparse |]. apply side_value.
    rewrite Hobject, lookup_empty. by destruct (last _).
Qed.

(** A box stores its extent: west, south, east and north. *)
Lemma latLonAltBoxParser_extent (b : node) (regionObject : gmap string value) :
  exists regionObject',
    latLonAltBoxParser readDecimal b regionObject = Ok regionObject'
    /\ regionObject' !! "extent"%string
       = Some (VArray [VNumber (side readDecimal "west" b);
                       VNumber (side readDecimal "south" b);
                       VNumber (side readDecimal "east" b);
                       VNumber (side readDecimal "north" b)]).
Proof.
  destruct (parse_box b "west") as (object & Hparse & Hwest);
    [repeat (try (by left); right) |].
  destruct (parse_box b "south") as (o2 & H2 & Hsouth);
    [repeat (try (by left); right) |].
  destruct (parse_box b "east") as (o3 & H3 & Heast);
    [repeat (try (by left); right) |].
  destruct (parse_box b "north") as (o4 & H4 & Hnorth);
    [repeat (try (by left); right) |].
  rewrite Hparse in H2, H3, H4.
  injection H2 as <-. injection H3 as <-. injection H4 as <-.
  unfold latLonAltBoxParser. rewrite Hparse, bind_Ok.
  eexists. split; [reflexivity |].
  rewrite !lookup_insert_ne by done. rewrite lookup_insert_eq.
  by rewrite Hwest, Hsouth, Heast, Hnorth.
Qed.

Lemma lodParser_extent (l : node) (lodObject : gmap string value) :
  exists lodObject',
    lodParser readDecimal l lodObject = Ok lodObject'
    /\ lodObject' !! "extent"%string = lodObject !! "extent"%string.
Proof.
  unfold lodParser.
  destruct (parseNode_total (LOD_PARSERS readDecimal) l ∅) as [object Hobject].
  { intros ns name f c o Hf. unfold LOD_PARSERS, makeStructureNS in Hf.
    destruct (includes NAMESPACE_URIS ns); [| discriminate].
    cbn [structure_lookup] in Hf.
    repeat (match type of Hf with
            | (if ?b then _ else _) = _ =>
                destruct b; [injection Hf as <-;
                             unfold decimal_setter, setter_of, makeObjectPropertySetter;
                             rewrite bind_Ok; by eexists |]
            end).
    discriminate. }
  unfold pushParseAndPop. rewrite Hobject, bind_Ok.
  eexists. split; [reflexivity |]. by rewrite !lookup_insert_ne.
Qed.

(** Reading a region does not throw. *)
Lemma region_total (r : node) (o : gmap string value) :
  exists regionObject,
    pushParseAndPop o (REGION_PARSERS readDecimal) r = Ok regionObject.
Proof.
  unfold pushParseAndPop. apply parseNode_total. intros ns name f c o' Hf.
  unfold REGION_PARSERS, makeStructureNS in Hf.
  destruct (includes NAMESPACE_URIS ns); [| discriminate].
  cbn [structure_lookup] in Hf.
  destruct (String.eqb name "LatLonAltBox").
  { injection Hf as <-.
    destruct (latLonAltBoxParser_extent c o') as (o'' & -> & _). by eexists. }
  destruct (String.eqb name "Lod"); [| discriminate].
  injection Hf as <-. destruct (lodParser_extent c o') as (o'' & -> & _). by eexists.
Qed.

(** X26: reading a [Region] element does not throw, and the region has an
    extent exactly when the element has a [LatLonAltBox] child: the west,
    south, east and north of the last one, in this order, each the number
    of the last child of that name that reads as a decimal, and [NaN] when
    the box has none. *)
Theorem region_extent (r : node) :
  exists regionObject,
    pushParseAndPop ∅ (REGION_PARSERS readDecimal) r = Ok regionObject
    /\ regionObject !! "extent"%string
       = match last_child "LatLonAltBox" r with
         | Some b =>
             Some (VArray [VNumber (side readDecimal "west" b);
                           VNumber (side readDecimal "south" b);
                           VNumber (side readDecimal "east" b);
                           VNumber (side readDecimal "north" b)])
         | None => None
         end.
Proof.
  unfold pushParseAndPop. destruct r as [t | ns name attrs kids]; [by exists ∅ |].
  induction kids as [| c kids IH] using rev_ind; [by exists ∅ |].
  destruct IH as (o1 & Hparse & Hextent).
  rewrite parseNode_app, Hparse, bind_Ok, parseNode_singleton, last_child_snoc.
  destruct c as [t | cns cname cattrs ckids]; [by exists o1 |].
  unfold dispatch_of, REGION_PARSERS, makeStructureNS. cbn [is_kml_child].
  destruct (includes NAMESPACE_URIS cns); cbn [andb structure_lookup];
    [| by exists o1].
  destruct (String.eqb cname "LatLonAltBox") eqn:Hbox.
  { apply latLonAltBoxParser_extent. }
  destruct (String.eqb cname "Lod"); [| by exists o1].
  destruct (lodParser_extent (Element cns cname cattrs ckids) o1) as (o' & Hlod & Hsame).
  exists o'. split; [done |]. by rewrite Hsame.
Qed.

(** X27: [readRegionFromNode] does not throw, and it returns one region
    for each [Region] element it reads: first those among the children of
    the node, then those of the documents, folders and [kml] elements among
    the children - not in the order of the document. *)
Theorem readRegionFromNode_regions (n : node) :
  exists regions,
    readRegionFromNode readDecimal n = Ok regions
    /\ Forall2 (fun regionObject c =>
                  pushParseAndPop ∅ (REGION_PARSERS readDecimal) c = Ok regionObject)
         regions (region_nodes n).
Proof.
  induction n as [t | ns name attrs cs IH] using node_children_ind.
  { exists []. split; [reflexivity | constructor]. }
  cbn [readRegionFromNode region_nodes].
  assert (Hown : forall cs' regions0,
             exists own,
               fold_left
                 (fun acc c =>
                    regions ← acc;
                    if is_kml_child "Region" c then
                      obj ← pushParseAndPop ∅ (REGION_PARSERS readDecimal) c;
                      Ok (regions ++ [obj])
                    else Ok regions)
                 cs' (Ok regions0) = Ok (regions0 ++ own)
               /\ Forall2 (fun regionObject c =>
                             pushParseAndPop ∅ (REGION_PARSERS readDecimal) c
                             = Ok regionObject)
                    own (filter (fun c => is_kml_child "Region" c = true) cs')).
  { induction cs' as [| c cs' IHcs]; intros regions0.
    { exists []. split; [by rewrite app_nil_r | constructor]. }
    cbn [fold_left]. rewrite bind_Ok, filter_cons.
    destruct (is_kml_child "Region" c) eqn:Hc.
    - destruct (region_total c ∅) as (obj & Hobj). rewrite Hobj, bind_Ok.
      destruct (IHcs (regions0 ++ [obj])) as (own & -> & Hall).
      exists (obj :: own). split; [by rewrite <- app_assoc |].
      rewrite decide_True by done. by constructor.
    - destruct (IHcs regions0) as (own & -> & Hall).
      exists own. split; [done |]. rewrite decide_False; [done | congruence]. }
  assert (Hnested : forall cs' regions0,
             Forall (fun c => exists regions,
                       readRegionFromNode readDecimal c = Ok regions
                       /\ Forall2 (fun regionObject c =>
                                     pushParseAndPop ∅ (REGION_PARSERS readDecimal) c
                                     = Ok regionObject)
                            regions (region_nodes c)) cs' ->
             exists nested,
               fold_left
                 (fun acc c =>
                    regions ← acc;
                    if is_kml_element ["Document"; "Folder"; "kml"]%string c then
                      nested ← readRegionFromNode readDecimal c;
                      Ok (regions ++ nested)
                    else Ok regions)
                 cs' (Ok regions0) = Ok (regions0 ++ nested)
               /\ Forall2 (fun regionObject c =>
                             pushParseAndPop ∅ (REGION_PARSERS readDecimal) c
                             = Ok regionObject)
                    nested
                    (flat_map
                       (fun c =>
                          if is_kml_element ["Document"; "Folder"; "kml"]%string c
                          then region_nodes c else []) cs')).
  { induction cs' as [| c cs' IHcs]; intros regions0 HP.
    { exists []. split; [by rewrite app_nil_r | constructor]. }
    apply Forall_cons in HP as [Hc HP].
    cbn [fold_left flat_map]. rewrite bind_Ok.
    destruct (is_kml_element _ c).
    - destruct Hc as (rs & -> & Hrs). rewrite bind_Ok.
      destruct (IHcs (regions0 ++ rs) HP) as (nested & -> & Hall).
      exists (rs ++ nested). split; [by rewrite <- app_assoc |].
      by apply Forall2_app.
    - destruct (IHcs regions0 HP) as (nested & -> & Hall). by exists nested. }
  destruct (Hown cs []) as (own & -> & Hall1). rewrite bind_Ok.
  destruct (Hnested cs ([] ++ own) IH) as (nested & -> & Hall2).
  exists (own ++ nested). split; [reflexivity |]. by apply Forall2_app.
Qed.

End Regions.

(** The region of the document comes before the region of its folder,
    which stands before it. *)
Example regions_own_first :
  (fun rs => map (fun r => r !! "extent"%string) rs)
    <$> readRegionFromNode Sample5.decimal Sample5.regions_document
  = Ok [Some (VArray [VNumber Sample.two; VNumber NaN; VNumber NaN; VNumber NaN]);
        Some (VArray [VNumber Sample.one; VNumber NaN; VNumber NaN; VNumber NaN])].
Proof. reflexivity. Qed.
